(** * Spooled I/O streams (boltons/ioutils.py)

    A shallow embedding of [SpooledIOBase], [SpooledBytesIO] and
    [SpooledStringIO], together with the parts of the Python standard
    library they are built on: [io.BytesIO], [tempfile.TemporaryFile],
    the UTF-8 codec and [codecs.EncodedFile].

    Python objects are mutable; a method is modelled as a function from
    the object's state to an outcome (a value or a raised exception) and
    the state the object is left in.  A raised exception keeps the
    mutations made before it.

    The library objects follow CPython 3: [bytes] and [str] are the
    binary and the text type, a file-like object is described by its
    class, its bytes, its cursor and whether it is closed, and
    [EncodedFile] by the source of [codecs.StreamRecoder] and
    [codecs.StreamReader]. *)

From Stdlib Require Import String Ascii.
From Stdlib Require Import ZArith Lia Bool List.
Import ListNotations.
Local Open Scope string_scope.
Local Open Scope list_scope.
Local Open Scope Z_scope.

(** ** Python values and exceptions *)

(** A byte string is a list of integers in [0, 255]; a text is a list of
    code points. *)
Definition bytes := list Z.
Definition text := list Z.

(** The values that are written to and read from the streams.  On these
    four types Python's [==] is structural equality: values of different
    types are never equal. *)
Inductive pyval :=
| PyNone
| PyInt (n : Z)
| PyBytes (b : bytes)
| PyStr (t : text).

(** [type(v).__name__] *)
Definition type_name (v : pyval) : string :=
  match v with
  | PyNone => "NoneType"
  | PyInt _ => "int"
  | PyBytes _ => "bytes"
  | PyStr _ => "str"
  end.

(** [six.binary_type.__name__] and [six.text_type.__name__] *)
Definition binary_type_name : string := "bytes".
Definition text_type_name : string := "str".

Definition EINVAL : Z := 22.

(** The exceptions of Python that the methods raise.  [OutOfFuel] is not
    one of them: it marks a loop of the model stopped by its bound on the
    number of turns, which never happens (see
    [text_reads_never_out_of_fuel]). *)
Inductive exn :=
| TypeError (msg : string)
| ValueError
| IOError (errno : Z) (msg : string)
| UnsupportedOperation (msg : string)
| UnicodeDecodeError (start : nat)
| UnicodeEncodeError
| AttributeError (name : string)
| OutOfFuel.

Inductive result (A : Type) :=
| Ok (a : A)
| Raise (e : exn).
Arguments Ok {A} a.
Arguments Raise {A} e.

(** ** Methods: state passing with exceptions *)

Definition M (S A : Type) : Type := S -> result A * S.

Definition ret {S A} (a : A) : M S A := fun s => (Ok a, s).
Definition raise {S A} (e : exn) : M S A := fun s => (Raise e, s).
Definition bind {S A B} (m : M S A) (k : A -> M S B) : M S B :=
  fun s => match m s with
           | (Ok a, s') => k a s'
           | (Raise e, s') => (Raise e, s')
           end.
Definition get {S} : M S S := fun s => (Ok s, s).

Declare Scope py_scope.
Delimit Scope py_scope with py.
Notation "x <- m ;; k" := (bind m (fun x => k))
  (at level 100, m at next level, right associativity) : py_scope.
Notation "m ;;; k" := (bind m (fun _ => k))
  (at level 100, right associativity) : py_scope.
Local Open Scope py_scope.

(** A method call on an object held in a local variable. *)
Definition local {S L A} (m : M L A) (l : L) : M S (A * L) :=
  fun s => match m l with
           | (Ok a, l') => (Ok (a, l'), s)
           | (Raise e, _) => (Raise e, s)
           end.

(** The state a method leaves behind, and its outcome. *)
Definition exec {S A} (m : M S A) (s : S) : S := snd (m s).
Definition outcome {S A} (m : M S A) (s : S) : result A := fst (m s).

(** ** Raw file objects: [io.BytesIO] and [tempfile.TemporaryFile] *)

Inductive flo_class := cls_BytesIO | cls_TemporaryFile.

Record flo := mk_flo {
  flo_cls : flo_class;
  flo_data : bytes;
  flo_pos : nat;
  flo_closed : bool
}.

Definition BytesIO : flo := mk_flo cls_BytesIO [] 0 false.
Definition TemporaryFile : flo := mk_flo cls_TemporaryFile [] 0 false.

(** [isinstance(f, BytesIO)] *)
Definition isinstance_BytesIO (f : flo) : bool :=
  match flo_cls f with cls_BytesIO => true | cls_TemporaryFile => false end.

(** The descriptor of the temporary file.  The operating system chooses
    it; its value plays no role below. *)
Definition tmpfile_fd : Z := 3.

Definition set_pos (p : nat) (f : flo) : flo :=
  mk_flo (flo_cls f) (flo_data f) p (flo_closed f).
Definition set_data (d : bytes) (f : flo) : flo :=
  mk_flo (flo_cls f) d (flo_pos f) (flo_closed f).

(** Every method of a closed file raises [ValueError]. *)
Definition if_open {A} (m : M flo A) : M flo A :=
  fun f => if flo_closed f then (Raise ValueError, f) else m f.

Definition flo_tell : M flo nat :=
  if_open (fun f => (Ok (flo_pos f), f)).

(** [seek(offset, whence)].  A [BytesIO] clamps a relative seek before the
    start to 0 and rejects a negative absolute offset; a file rejects
    both.  Only the portable [whence] values 0, 1, 2 are accepted. *)
Definition flo_seek (offset whence : Z) : M flo Z :=
  if_open (fun f =>
    let target :=
      if whence =? 0 then Some offset
      else if whence =? 1 then Some (Z.of_nat (flo_pos f) + offset)
      else if whence =? 2 then Some (Z.of_nat (length (flo_data f)) + offset)
      else None in
    match target with
    | None => (Raise ValueError, f)
    | Some t =>
        if t <? 0 then
          match flo_cls f with
          | cls_BytesIO =>
              if whence =? 0 then (Raise ValueError, f)
              else (Ok 0, set_pos 0 f)
          | cls_TemporaryFile => (Raise (IOError EINVAL "Invalid argument"), f)
          end
        else (Ok t, set_pos (Z.to_nat t) f)
    end).

(** [read(n)]: the bytes from the cursor on, at most [n] of them when
    [n >= 0].  A file accepts no negative length but -1. *)
Definition flo_read (n : Z) : M flo bytes :=
  if_open (fun f =>
    if (n <? -1) && negb (isinstance_BytesIO f) then (Raise ValueError, f)
    else
      let rest := skipn (flo_pos f) (flo_data f) in
      let r := if n <? 0 then rest else firstn (Z.to_nat n) rest in
      (Ok r, set_pos (flo_pos f + length r) f)).

(** Writing [s] at position [p]: a gap between the end of the data and
    [p] is filled with zero bytes. *)
Definition overwrite (d : bytes) (p : nat) (s : bytes) : bytes :=
  firstn p d ++ repeat 0 (p - length d) ++ s ++ skipn (p + length s) d.

Definition flo_write (s : bytes) : M flo Z :=
  if_open (fun f =>
    match s with
    | [] => (Ok 0, f)
    | _ => (Ok (Z.of_nat (length s)),
            mk_flo (flo_cls f) (overwrite (flo_data f) (flo_pos f) s)
                   (flo_pos f + length s) (flo_closed f))
    end).

(** [splitlines(keepends)]: the lines of a byte or character sequence.
    [brk] tells the characters that end a line; a carriage return
    followed by a line feed is one line end. *)
Fixpoint splitlines_from (brk : Z -> bool) (keepends : bool)
  (cur : list Z) (l : list Z) : list (list Z) :=
  match l with
  | [] => match cur with [] => [] | _ => [rev cur] end
  | c :: l' =>
      if brk c then
        match l' with
        | d :: l'' =>
            if (c =? 13) && (d =? 10) && brk d
            then rev (if keepends then d :: c :: cur else cur)
                 :: splitlines_from brk keepends [] l''
            else rev (if keepends then c :: cur else cur)
                 :: splitlines_from brk keepends [] l'
        | [] => [rev (if keepends then c :: cur else cur)]
        end
      else splitlines_from brk keepends (c :: cur) l'
  end.

Definition is_LF (c : Z) : bool := c =? 10.

(** [readline(size)]: up to and including the next line feed, cut to
    [size] bytes when [size] is given and not negative. *)
Definition flo_readline (size : option Z) : M flo bytes :=
  if_open (fun f =>
    let rest := skipn (flo_pos f) (flo_data f) in
    let line := hd [] (splitlines_from is_LF true [] rest) in
    let r := match size with
             | Some n => if n <? 0 then line else firstn (Z.to_nat n) line
             | None => line
             end in
    (Ok r, set_pos (flo_pos f + length r) f)).

(** Lines taken by [readlines(hint)] for [hint > 0]: reading stops once
    the bytes read so far reach the hint ([BytesIO]) or pass it (a
    file). *)
Fixpoint take_hint (strict : bool) (hint : Z) (sofar : Z)
  (ls : list bytes) : list bytes :=
  match ls with
  | [] => []
  | l :: ls' =>
      let sofar' := sofar + Z.of_nat (length l) in
      if (if strict then hint <? sofar' else hint <=? sofar')
      then [l] else l :: take_hint strict hint sofar' ls'
  end.

Definition flo_readlines (hint : Z) : M flo (list bytes) :=
  if_open (fun f =>
    let rest := skipn (flo_pos f) (flo_data f) in
    let all := splitlines_from is_LF true [] rest in
    let strict := match flo_cls f with
                  | cls_BytesIO => false | cls_TemporaryFile => true end in
    let ls := if hint <=? 0 then all else take_hint strict hint 0 all in
    (Ok ls, set_pos (flo_pos f + length (concat ls)) f)).

(** [truncate(size)], [size] defaulting to the cursor.  The cursor stays.
    A [BytesIO] never grows; a file is extended with zero bytes. *)
Definition flo_truncate (size : option Z) : M flo Z :=
  if_open (fun f =>
    let n := match size with
             | Some n => n | None => Z.of_nat (flo_pos f) end in
    if n <? 0 then
      match flo_cls f with
      | cls_BytesIO => (Raise ValueError, f)
      | cls_TemporaryFile => (Raise (IOError EINVAL "Invalid argument"), f)
      end
    else
      let k := Z.to_nat n in
      let d := flo_data f in
      match flo_cls f with
      | cls_BytesIO => (Ok n, set_data (firstn k d) f)
      | cls_TemporaryFile =>
          (Ok n, set_data (firstn k d ++ repeat 0 (k - length d)) f)
      end).

Definition flo_close : M flo unit :=
  fun f => (Ok tt, mk_flo (flo_cls f) (flo_data f) (flo_pos f) true).

Definition flo_fileno : M flo Z :=
  fun f => match flo_cls f with
           | cls_BytesIO => (Raise (UnsupportedOperation "fileno"), f)
           | cls_TemporaryFile =>
               if flo_closed f then (Raise ValueError, f)
               else (Ok tmpfile_fd, f)
           end.

(** ** The UTF-8 codec *)

(** Code points that UTF-8 encodes: all of [0, 0x10FFFF] but the
    surrogates. *)
Definition is_scalar (c : Z) : bool :=
  ((0 <=? c) && (c <? 0xD800)) || ((0xDFFF <? c) && (c <=? 0x10FFFF)).

Definition utf8_encode_char (c : Z) : option bytes :=
  if negb (is_scalar c) then None
  else if c <? 0x80 then Some [c]
  else if c <? 0x800 then Some [0xC0 + c / 64; 0x80 + c mod 64]
  else if c <? 0x10000 then
    Some [0xE0 + c / 4096; 0x80 + (c / 64) mod 64; 0x80 + c mod 64]
  else
    Some [0xF0 + c / 262144; 0x80 + (c / 4096) mod 64;
          0x80 + (c / 64) mod 64; 0x80 + c mod 64].

(** [t.encode('utf-8')]: [None] stands for [UnicodeEncodeError]. *)
Fixpoint utf8_encode (t : text) : option bytes :=
  match t with
  | [] => Some []
  | c :: t' =>
      match utf8_encode_char c, utf8_encode t' with
      | Some b, Some bs => Some (b ++ bs)
      | _, _ => None
      end
  end.

(** The decoder reads one byte at a time.  Between characters it is in
    [DStart]; inside a character it remembers how many continuation bytes
    follow the next one, the bits gathered so far and the range allowed
    for the next byte (narrower than [0x80, 0xBF] after the lead bytes
    E0, ED, F0 and F4, which rules out overlong forms, surrogates and
    code points above 0x10FFFF). *)
Inductive dec_state :=
| DStart
| DNeed (more : nat) (acc : Z) (lo hi : Z).

Inductive dec_step :=
| Emit (c : Z)
| Next (st : dec_state)
| Bad.

Definition utf8_step (st : dec_state) (b : Z) : dec_step :=
  match st with
  | DStart =>
      if (0 <=? b) && (b <? 0x80) then Emit b
      else if (0xC2 <=? b) && (b <=? 0xDF) then Next (DNeed 0 (b - 0xC0) 0x80 0xBF)
      else if b =? 0xE0 then Next (DNeed 1 0 0xA0 0xBF)
      else if b =? 0xED then Next (DNeed 1 13 0x80 0x9F)
      else if (0xE1 <=? b) && (b <=? 0xEF) then Next (DNeed 1 (b - 0xE0) 0x80 0xBF)
      else if b =? 0xF0 then Next (DNeed 2 0 0x90 0xBF)
      else if b =? 0xF4 then Next (DNeed 2 4 0x80 0x8F)
      else if (0xF1 <=? b) && (b <=? 0xF3) then Next (DNeed 2 (b - 0xF0) 0x80 0xBF)
      else Bad
  | DNeed more acc lo hi =>
      if (lo <=? b) && (b <=? hi) then
        let acc' := acc * 64 + (b - 0x80) in
        match more with
        | O => Emit acc'
        | S more' => Next (DNeed more' acc' 0x80 0xBF)
        end
      else Bad
  end.

(** The outcome of [codecs.utf_8_decode(data, 'strict', final)]: the
    characters decoded and the number of bytes they took, or the position
    of the first byte sequence that is not UTF-8. *)
Inductive decoded :=
| Decoded (chars : text) (consumed : nat)
| DecodeError (start : nat).

(** [done] counts the bytes of the characters decoded so far, [pending]
    those of the character being read, [out] holds the characters in
    reverse.  When the data end inside a character, a final decoder
    fails and a non-final one stops before that character.  A non-final
    decoder also stops before a trailing ED followed by one byte of
    [0xA0, 0xBF] (a surrogate cut short), as CPython does. *)
Fixpoint utf8_scan (final : bool) (st : dec_state) (done pending : nat)
  (out : text) (bs : bytes) : decoded :=
  match bs with
  | [] =>
      match st with
      | DStart => Decoded (rev out) done
      | DNeed _ _ _ _ => if final then DecodeError done else Decoded (rev out) done
      end
  | b :: bs' =>
      match utf8_step st b with
      | Emit c => utf8_scan final DStart (done + pending + 1) 0 (c :: out) bs'
      | Next st' => utf8_scan final st' done (pending + 1) out bs'
      | Bad =>
          match st, bs' with
          | DNeed 1%nat 13 0x80 0x9F, [] =>
              if negb final && (0xA0 <=? b) && (b <=? 0xBF)
              then Decoded (rev out) done else DecodeError done
          | _, _ => DecodeError done
          end
      end
  end.

Definition utf8_decode (final : bool) (data : bytes) : decoded :=
  utf8_scan final DStart 0 0 [] data.

(** [data.decode('utf-8')] *)
Definition bytes_decode {S} (data : bytes) : M S text :=
  match utf8_decode true data with
  | Decoded t _ => ret t
  | DecodeError start => raise (UnicodeDecodeError start)
  end.

(** [t.encode('utf-8')] *)
Definition str_encode {S} (t : text) : M S bytes :=
  match utf8_encode t with
  | Some b => ret b
  | None => raise UnicodeEncodeError
  end.

(** ** [codecs.EncodedFile]

    [EncodedFile(f, data_encoding='utf-8')] is a [StreamRecoder] around
    [f] made of the UTF-8 [StreamReader] and [StreamWriter].  Its reader
    keeps bytes of an unfinished character and characters decoded but not
    yet handed out; every method it does not define is the wrapped
    stream's. *)

Record StreamRecoder := mk_recoder {
  stream : flo;
  bytebuffer : bytes;
  charbuffer : text;
  linebuffer : option (list text)
}.

Definition EncodedFile (f : flo) : StreamRecoder := mk_recoder f [] [] None.

(** A call on the wrapped stream. *)
Definition on_stream {A} (m : M flo A) : M StreamRecoder A :=
  fun r => let (a, f) := m (stream r) in
           (a, mk_recoder f (bytebuffer r) (charbuffer r) (linebuffer r)).

Definition set_buffers (bb : bytes) (cb : text) (lb : option (list text))
  : M StreamRecoder unit :=
  fun r => (Ok tt, mk_recoder (stream r) bb cb lb).

(** Line ends of [str.splitlines] and of [bytes.splitlines]. *)
Definition is_str_linebreak (c : Z) : bool :=
  ((10 <=? c) && (c <=? 13)) || ((0x1C <=? c) && (c <=? 0x1E))
  || (c =? 0x85) || (c =? 0x2028) || (c =? 0x2029).
Definition is_bytes_linebreak (c : Z) : bool := (c =? 10) || (c =? 13).

Definition str_splitlines (keepends : bool) (t : text) : list text :=
  splitlines_from is_str_linebreak keepends [] t.
Definition bytes_splitlines (keepends : bool) (b : bytes) : list bytes :=
  splitlines_from is_bytes_linebreak keepends [] b.

(** The loop of [StreamReader.read]: read and decode until the character
    buffer holds [chars] characters or the stream gives nothing more.
    Every turn but the last takes at least one byte from the stream, which
    bounds the number of turns. *)
Fixpoint reader_fill (fuel : nat) (size chars : Z) (firstline : bool)
  : M StreamRecoder unit :=
  fun r =>
  if (0 <=? chars) && (chars <=? Z.of_nat (length (charbuffer r)))
  then (Ok tt, r)
  else
    (newdata <- on_stream (flo_read (if size <? 0 then -1 else size)) ;;
     r1 <- get ;;
     let data := bytebuffer r1 ++ newdata in
     match data with
     | [] => ret tt
     | _ =>
         decoded <-
           match utf8_decode false data with
           | Decoded newchars n => ret (newchars, n)
           | DecodeError start =>
               if firstline then
                 match utf8_decode false (firstn start data) with
                 | Decoded newchars n =>
                     if (length (str_splitlines true newchars) <=? 1)%nat
                     then raise (UnicodeDecodeError start)
                     else ret (newchars, n)
                 | DecodeError start' => raise (UnicodeDecodeError start')
                 end
               else raise (UnicodeDecodeError start)
           end ;;
         let '(newchars, decodedbytes) := decoded in
         set_buffers (skipn decodedbytes data) (charbuffer r1 ++ newchars)
                     (linebuffer r1) ;;;
         match newdata with
         | [] => ret tt
         | _ => match fuel with
                | O => raise OutOfFuel
                | S fuel' => reader_fill fuel' size chars firstline
                end
         end
     end) r.

(** [StreamReader.read(size, chars, firstline)] *)
Definition reader_read (size chars : Z) (firstline : bool)
  : M StreamRecoder text :=
  r <- get ;;
  match linebuffer r with
  | Some (l :: ls) => set_buffers (bytebuffer r) (concat (l :: ls)) None
  | _ => ret tt
  end ;;;
  let chars := if chars <? 0 then size else chars in
  reader_fill (length (flo_data (stream r))) size chars firstline ;;;
  r <- get ;;
  if chars <? 0 then
    set_buffers (bytebuffer r) [] (linebuffer r) ;;; ret (charbuffer r)
  else
    set_buffers (bytebuffer r) (skipn (Z.to_nat chars) (charbuffer r))
                (linebuffer r) ;;;
    ret (firstn (Z.to_nat chars) (charbuffer r)).

Definition ends_with_CR (t : text) : bool :=
  match rev t with c :: _ => c =? 13 | [] => false end.

Definition nonempty {A} (l : list A) : bool :=
  match l with [] => false | _ => true end.

Fixpoint append_to_last (ls : list text) (t : text) : list text :=
  match ls with
  | [] => []
  | [l] => [l ++ t]
  | l :: ls' => l :: append_to_last ls' t
  end.

Definition text_eqb (a b : text) : bool :=
  if list_eq_dec Z.eq_dec a b then true else false.

(** The loop of [StreamReader.readline] with [keepends=True]. *)
Fixpoint reader_readline_loop (fuel : nat) (size : option Z) (readsize : Z)
  (line : text) : M StreamRecoder text :=
  data <- reader_read readsize (-1) true ;;
  data <- (if nonempty data && ends_with_CR data
           then extra <- reader_read 1 1 false ;; ret (data ++ extra)
           else ret data) ;;
  let line := line ++ data in
  let again : M StreamRecoder text :=
    if negb (nonempty data) || (match size with Some _ => true | None => false end)
    then ret line
    else match fuel with
         | O => raise OutOfFuel
         | S fuel' =>
             reader_readline_loop fuel' size
               (if readsize <? 8000 then readsize * 2 else readsize) line
         end in
  match str_splitlines true line with
  | [] => again
  | [line0withend] =>
      let line0withoutend := hd [] (str_splitlines false line0withend) in
      if negb (text_eqb line0withend line0withoutend)
      then ret line0withend
      else again
  | line0 :: [rest] =>
      r <- get ;;
      set_buffers (bytebuffer r) (rest ++ charbuffer r) (linebuffer r) ;;;
      ret line0
  | line0 :: lines =>
      r <- get ;;
      set_buffers (bytebuffer r) [] (Some (append_to_last lines (charbuffer r))) ;;;
      ret line0
  end.

(** [StreamReader.readline(size)] *)
Definition reader_readline (size : option Z) : M StreamRecoder text :=
  r <- get ;;
  match linebuffer r with
  | Some (line :: ls) =>
      match ls with
      | [c] => set_buffers (bytebuffer r) c None
      | _ => set_buffers (bytebuffer r) (charbuffer r) (Some ls)
      end ;;;
      ret line
  | _ =>
      let readsize := match size with
                      | Some n => if n =? 0 then 72 else n
                      | None => 72
                      end in
      reader_readline_loop
        (length (charbuffer r) + length (bytebuffer r)
         + length (flo_data (stream r)))
        size readsize []
  end.

(** [StreamRecoder.read(size)] *)
Definition recoder_read (size : Z) : M StreamRecoder bytes :=
  data <- reader_read size (-1) false ;;
  str_encode data.

(** [StreamRecoder.readline(size)] *)
Definition recoder_readline (size : option Z) : M StreamRecoder bytes :=
  data <- reader_readline size ;;
  str_encode data.

(** [StreamRecoder.readlines(sizehint)]: the hint is not used. *)
Definition recoder_readlines (sizehint : Z) : M StreamRecoder (list bytes) :=
  data <- reader_read (-1) (-1) false ;;
  data <- str_encode data ;;
  ret (bytes_splitlines true data).

(** [StreamRecoder.write(data)] *)
Definition recoder_write (data : bytes) : M StreamRecoder unit :=
  data <- bytes_decode data ;;
  data <- str_encode data ;;
  on_stream (flo_write data) ;;;
  ret tt.

(** [StreamRecoder.seek(offset, whence)]: the reader seeks the stream and
    drops its buffers, then the writer seeks the stream again. *)
Definition recoder_seek (offset whence : Z) : M StreamRecoder unit :=
  on_stream (flo_seek offset whence) ;;;
  set_buffers [] [] None ;;;
  on_stream (flo_seek offset whence) ;;;
  ret tt.

(** ** File-like objects

    The methods that [SpooledIOBase] calls on [self.buffer], whatever its
    class. *)
Class FileLike (B : Type) := {
  fl_tell : M B nat;
  fl_seek : Z -> Z -> M B pyval;
  fl_truncate : option Z -> M B Z;
  fl_close : M B unit;
  fl_fileno : M B Z
}.

#[export] Instance flo_FileLike : FileLike flo := {
  fl_tell := flo_tell;
  fl_seek := fun offset whence => p <- flo_seek offset whence ;; ret (PyInt p);
  fl_truncate := flo_truncate;
  fl_close := flo_close;
  fl_fileno := flo_fileno
}.

#[export] Instance StreamRecoder_FileLike : FileLike StreamRecoder := {
  fl_tell := on_stream flo_tell;
  fl_seek := fun offset whence => recoder_seek offset whence ;;; ret PyNone;
  fl_truncate := fun size => on_stream (flo_truncate size);
  fl_close := on_stream flo_close;
  fl_fileno := on_stream flo_fileno
}.

(** ** [SpooledIOBase] *)

(** The abstract property [buffer]: it returns the file-like object of the
    stream and creates it on first use.  [store_buffer] puts back the
    object after a method has changed it. *)
Class HasBuffer (S : Type) := {
  buffer_type : Type;
  buffer_FileLike :: FileLike buffer_type;
  buffer : M S buffer_type;
  store_buffer : buffer_type -> M S unit
}.

(** [self.buffer.m(...)] *)
Definition on_buffer {S} `{HasBuffer S} {A} (m : M buffer_type A) : M S A :=
  b <- buffer ;;
  fun s => let (a, b') := m b in
           match store_buffer b' s with
           | (Ok _, s') => (a, s')
           | (Raise e, s') => (Raise e, s')
           end.

Section Base.
Context {T : Type} `{HasBuffer T}.

Definition tell : M T nat := on_buffer fl_tell.

Definition seek (pos mode : Z) : M T pyval := on_buffer (fl_seek pos mode).

Definition close : M T unit := on_buffer fl_close.
End Base.

(** The abstract methods. *)
Class SpooledIOBase (S : Type) := {
  Spooled_HasBuffer :: HasBuffer S;
  read : Z -> M S pyval;
  write : pyval -> M S unit;
  readline : option Z -> M S pyval;
  readlines : Z -> M S (list pyval);
  rollover : M S unit;
  _rolled : M S bool
}.

Definition pyval_eq_dec (a b : pyval) : {a = b} + {a <> b}.
Proof.
  decide equality; try apply Z.eq_dec; apply (list_eq_dec Z.eq_dec).
Defined.

(** [a == b] on values *)
Definition pyval_eqb (a b : pyval) : bool :=
  if pyval_eq_dec a b then true else false.

(** What a stream can be compared with: another stream, of either
    class, or a plain value. *)
Inductive pyobject :=
| Spooled {S : Type} `{SpooledIOBase S} (s : S)
| Value (v : pyval).

(** The generator made by [__iter__]: not started, suspended at its
    [yield], or finished. *)
Inductive generator := GenCreated | GenSuspended | GenFinished.

Section Methods.
Context {T : Type} `{SpooledIOBase T}.

Definition next : M T pyval := readline None.

Definition fileno : M T Z :=
  rollover ;;;
  on_buffer fl_fileno.

Definition truncate (size : option Z) : M T pyval :=
  match size with
  | None => n <- on_buffer (fl_truncate None) ;; ret (PyInt n)
  | Some size =>
      if size <? 0 then raise (IOError EINVAL "Negative size not allowed")
      else
        pos <- tell ;;
        seek size 0 ;;;
        on_buffer (fl_truncate (Some size)) ;;;
        (if Z.of_nat pos <? size then seek (Z.of_nat pos) 0 ;;; ret tt
         else ret tt) ;;;
        ret PyNone
  end.

Definition getvalue : M T pyval :=
  pos <- tell ;;
  seek 0 0 ;;;
  val <- read (-1) ;;
  seek (Z.of_nat pos) 0 ;;;
  ret val.

(** [next(g)] on the generator of [__iter__]: [None] stands for
    [StopIteration]. *)
Definition generator_next (g : generator) : M T (option pyval * generator) :=
  match g with
  | GenCreated => line <- readline None ;; ret (Some line, GenSuspended)
  | GenSuspended => ret (None, GenFinished)
  | GenFinished => ret (None, GenFinished)
  end.

Definition __iter__ : generator := GenCreated.

(** [list(g)]: the values of the generator until it stops. *)
Fixpoint generator_list (fuel : nat) (g : generator) : M T (list pyval) :=
  x <- generator_next g ;;
  match x with
  | (None, _) => ret []
  | (Some v, g') =>
      match fuel with
      | O => raise OutOfFuel
      | S fuel' => vs <- generator_list fuel' g' ;; ret (v :: vs)
      end
  end.
End Methods.

(** [self == other]; both objects may change (a buffer is created, a
    cursor moved and put back). *)
Definition __eq__ {T : Type} `{SpooledIOBase T} : M (T * pyobject) bool :=
  fun '(self, other) =>
    match other with
    | Spooled o =>
        match getvalue self with
        | (Ok v1, self') =>
            match getvalue o with
            | (Ok v2, o') => (Ok (pyval_eqb v1 v2), (self', Spooled o'))
            | (Raise e, o') => (Raise e, (self', Spooled o'))
            end
        | (Raise e, self') => (Raise e, (self', other))
        end
    | Value _ => (Ok false, (self, other))
    end.

Definition __ne__ {T : Type} `{SpooledIOBase T} : M (T * pyobject) bool :=
  b <- __eq__ ;; ret (negb b).

(** ** [SpooledBytesIO] *)

Module SpooledBytesIO.

(** The attributes of an instance.  [__buffer] is [None] until the
    [buffer] property sets it. *)
Record t := mk {
  _max_size : Z;
  __buffer : option flo
}.

(** [SpooledBytesIO(max_size)] *)
Definition new (max_size : Z) : t := mk max_size None.

Definition buffer : M t flo :=
  fun self =>
    match __buffer self with
    | Some b => (Ok b, self)
    | None => (Ok BytesIO, mk (_max_size self) (Some BytesIO))
    end.

Definition store_buffer (b : flo) : M t unit :=
  fun self => (Ok tt, mk (_max_size self) (Some b)).

#[global] Instance HasBuffer_t : HasBuffer t := {
  buffer_type := flo;
  buffer := buffer;
  store_buffer := store_buffer
}.

(** [self.__buffer.m(...)]: the attribute is read without going through
    the property. *)
Definition on___buffer {A} (m : M flo A) : M t A :=
  fun self =>
    match __buffer self with
    | Some b => let (a, b') := m b in (a, mk (_max_size self) (Some b'))
    | None => (Raise (AttributeError "__buffer"), self)
    end.

Definition _rolled : M t bool :=
  b <- buffer ;; ret (negb (isinstance_BytesIO b)).

Definition read (n : Z) : M t pyval :=
  b <- on_buffer (flo_read n) ;; ret (PyBytes b).

Definition rollover : M t unit :=
  rolled <- _rolled ;;
  if negb rolled then
    let tmp := TemporaryFile in
    pos <- on_buffer flo_tell ;;
    on___buffer (flo_seek 0 0) ;;;
    data <- on___buffer (flo_read (-1)) ;;
    x <- local (flo_write data) tmp ;;
    x <- local (flo_seek (Z.of_nat pos) 0) (snd x) ;;
    on___buffer flo_close ;;;
    store_buffer (snd x)
  else ret tt.

Definition write (s : pyval) : M t unit :=
  match s with
  | PyBytes s =>
      on_buffer (flo_write s) ;;;
      pos <- tell ;;
      self <- get ;;
      if _max_size self <=? Z.of_nat pos then rollover else ret tt
  | _ =>
      raise (TypeError (binary_type_name ++ " expected, got " ++ type_name s))
  end.

Definition readline (length : option Z) : M t pyval :=
  b <- on_buffer (flo_readline length) ;; ret (PyBytes b).

Definition readlines (sizehint : Z) : M t (list pyval) :=
  ls <- on_buffer (flo_readlines sizehint) ;; ret (map PyBytes ls).

#[global] Instance SpooledIOBase_t : SpooledIOBase t := {
  read := read;
  write := write;
  readline := readline;
  readlines := readlines;
  rollover := rollover;
  _rolled := _rolled
}.

End SpooledBytesIO.

(** ** [SpooledStringIO] *)

Module SpooledStringIO.

Record t := mk {
  _max_size : Z;
  __buffer : option StreamRecoder
}.

(** [SpooledStringIO(max_size)] *)
Definition new (max_size : Z) : t := mk max_size None.

Definition buffer : M t StreamRecoder :=
  fun self =>
    match __buffer self with
    | Some b => (Ok b, self)
    | None => (Ok (EncodedFile BytesIO),
               mk (_max_size self) (Some (EncodedFile BytesIO)))
    end.

Definition store_buffer (b : StreamRecoder) : M t unit :=
  fun self => (Ok tt, mk (_max_size self) (Some b)).

#[global] Instance HasBuffer_t : HasBuffer t := {
  buffer_type := StreamRecoder;
  buffer := buffer;
  store_buffer := store_buffer
}.

Definition read (n : Z) : M t pyval :=
  b <- on_buffer (recoder_read n) ;;
  t <- bytes_decode b ;;
  ret (PyStr t).

Definition _rolled : M t bool :=
  b <- buffer ;; ret (negb (isinstance_BytesIO (stream b))).

Definition rollover : M t unit :=
  rolled <- _rolled ;;
  if negb rolled then
    let tmp := EncodedFile TemporaryFile in
    pos <- on_buffer fl_tell ;;
    on_buffer (fl_seek 0 0) ;;;
    data <- on_buffer (recoder_read (-1)) ;;
    x <- local (recoder_write data) tmp ;;
    x <- local (fl_seek (Z.of_nat pos) 0) (snd x) ;;
    on_buffer fl_close ;;;
    store_buffer (snd x)
  else ret tt.

Definition write (s : pyval) : M t unit :=
  match s with
  | PyStr s =>
      buffer ;;;
      data <- str_encode s ;;
      on_buffer (recoder_write data) ;;;
      pos <- tell ;;
      self <- get ;;
      if _max_size self <=? Z.of_nat pos then rollover else ret tt
  | _ =>
      raise (TypeError (text_type_name ++ " expected, got " ++ type_name s))
  end.

Definition readline (length : option Z) : M t pyval :=
  b <- on_buffer (recoder_readline length) ;;
  t <- bytes_decode b ;;
  ret (PyStr t).

Fixpoint decode_all (ls : list bytes) : M t (list pyval) :=
  match ls with
  | [] => ret []
  | x :: ls' =>
      t <- bytes_decode x ;;
      ts <- decode_all ls' ;;
      ret (PyStr t :: ts)
  end.

Definition readlines (sizehint : Z) : M t (list pyval) :=
  ls <- on_buffer (recoder_readlines sizehint) ;;
  decode_all ls.

#[global] Instance SpooledIOBase_t : SpooledIOBase t := {
  read := read;
  write := write;
  readline := readline;
  readlines := readlines;
  rollover := rollover;
  _rolled := _rolled
}.

End SpooledStringIO.

(** ** The other members of [SpooledIOBase] *)

(** What they use of [self.buffer] besides the methods above: the
    attribute [closed] and the methods [flush] and [isatty].  A
    [StreamRecoder] hands all three to the wrapped stream. *)
Class FileState (B : Type) := {
  fl_closed : M B bool;
  fl_flush : M B unit;
  fl_isatty : M B bool
}.

#[export] Instance flo_FileState : FileState flo := {
  fl_closed := fun f => (Ok (flo_closed f), f);
  fl_flush := if_open (ret tt);
  fl_isatty := if_open (ret false)
}.

#[export] Instance StreamRecoder_FileState : FileState StreamRecoder := {
  fl_closed := on_stream fl_closed;
  fl_flush := on_stream fl_flush;
  fl_isatty := on_stream fl_isatty
}.

(** A class whose buffer has them. *)
Class SpooledState (T : Type) `{SpooledIOBase T} := {
  buffer_FileState :: FileState (buffer_type (S := T))
}.

#[export] Instance SpooledBytesIO_State
  : @SpooledState SpooledBytesIO.t SpooledBytesIO.SpooledIOBase_t :=
  Build_SpooledState SpooledBytesIO.t SpooledBytesIO.SpooledIOBase_t
                     flo_FileState.

#[export] Instance SpooledStringIO_State
  : @SpooledState SpooledStringIO.t SpooledStringIO.SpooledIOBase_t :=
  Build_SpooledState SpooledStringIO.t SpooledStringIO.SpooledIOBase_t
                     StreamRecoder_FileState.

Section Members.
Context {T : Type} `{SpooledState T}.

Definition flush : M T unit := on_buffer fl_flush.

Definition isatty : M T bool := on_buffer fl_isatty.

Definition closed : M T bool := on_buffer fl_closed.

Definition pos : M T nat := tell.

Definition buf : M T pyval := getvalue.

(** [len].  [st_size] is what [os.fstat] reports for the file of a
    stream on disk: the operating system's answer, which the model of a
    file does not determine. *)
Definition len (st_size : Z) : M T pyval :=
  rolled <- _rolled ;;
  if rolled then
    fileno ;;; ret (PyInt st_size)
  else
    pos <- tell ;;
    seek 0 2 ;;;
    val <- tell ;;
    seek (Z.of_nat pos) 0 ;;;
    ret (PyInt (Z.of_nat val)).

(** [__enter__] returns the stream itself. *)
Definition __enter__ : M T unit := ret tt.

Definition __exit__ : M T pyval := on_buffer fl_close ;;; ret PyNone.


(** A method call whose result is dropped ([call_iter] is
    [list(iter(stream))], [call_eq] and [call_ne] compare the stream with
    another object), and the state of a stream after a run of calls,
    each one made whether or not the one before raised. *)
Inductive call :=
| call_read (n : Z)
| call_write (v : pyval)
| call_readline (length : option Z)
| call_readlines (sizehint : Z)
| call_rollover
| call_tell
| call_seek (pos mode : Z)
| call_close
| call_flush
| call_isatty
| call_next
| call_closed
| call_pos
| call_buf
| call_len (st_size : Z)
| call_fileno
| call_truncate (size : option Z)
| call_getvalue
| call_iter
| call_enter
| call_exit
| call_eq (other : pyobject)
| call_ne (other : pyobject).

Definition do_call (c : call) : M T unit :=
  match c with
  | call_read n => read n ;;; ret tt
  | call_write v => write v
  | call_readline length => readline length ;;; ret tt
  | call_readlines sizehint => readlines sizehint ;;; ret tt
  | call_rollover => rollover
  | call_tell => tell ;;; ret tt
  | call_seek pos mode => seek pos mode ;;; ret tt
  | call_close => close
  | call_flush => flush
  | call_isatty => isatty ;;; ret tt
  | call_next => next ;;; ret tt
  | call_closed => closed ;;; ret tt
  | call_pos => pos ;;; ret tt
  | call_buf => buf ;;; ret tt
  | call_len st_size => len st_size ;;; ret tt
  | call_fileno => fileno ;;; ret tt
  | call_truncate size => truncate size ;;; ret tt
  | call_getvalue => getvalue ;;; ret tt
  | call_iter => generator_list 1 __iter__ ;;; ret tt
  | call_enter => __enter__
  | call_exit => __exit__ ;;; ret tt
  | call_eq other =>
      fun s => let '(r, (s', _)) := __eq__ (s, other) in
               (match r with Ok _ => Ok tt | Raise e => Raise e end, s')
  | call_ne other =>
      fun s => let '(r, (s', _)) := __ne__ (s, other) in
               (match r with Ok _ => Ok tt | Raise e => Raise e end, s')
  end.

Definition after_calls (cs : list call) (s : T) : T :=
  fold_left (fun s c => exec (do_call c) s) cs s.
End Members.

(** ** Observations used in the statements *)

(** [b"..."]: the bytes of an ASCII literal. *)
Definition bytes_of_string (s : string) : bytes :=
  map (fun c => Z.of_N (N_of_ascii c)) (list_ascii_of_string s).

(** A run of [write] calls, one per value. *)
Fixpoint write_all {T : Type} `{SpooledIOBase T} (vs : list pyval)
  : M T unit :=
  match vs with
  | [] => ret tt
  | v :: vs' => write v ;;; write_all vs'
  end.

(** Byte strings that are the UTF-8 encoding of some text. *)
Definition utf8_wellformed (b : bytes) : Prop :=
  exists t, utf8_encode t = Some b.

(** The bytes held by the backend of a stream (none before the backend
    exists), and whether the backend is still open. *)
Definition bytes_stored (s : SpooledBytesIO.t) : bytes :=
  match SpooledBytesIO.__buffer s with
  | Some f => flo_data f
  | None => []
  end.

Definition bytes_is_open (s : SpooledBytesIO.t) : bool :=
  match SpooledBytesIO.__buffer s with
  | Some f => negb (flo_closed f)
  | None => true
  end.

Definition text_stored (s : SpooledStringIO.t) : bytes :=
  match SpooledStringIO.__buffer s with
  | Some r => flo_data (stream r)
  | None => []
  end.

Definition text_is_open (s : SpooledStringIO.t) : bool :=
  match SpooledStringIO.__buffer s with
  | Some r => negb (flo_closed (stream r))
  | None => true
  end.

(** The cursor of the backend, and whether the backend is a file on
    disk. *)
Definition bytes_cursor (s : SpooledBytesIO.t) : nat :=
  match SpooledBytesIO.__buffer s with
  | Some f => flo_pos f
  | None => 0%nat
  end.

Definition bytes_on_disk (s : SpooledBytesIO.t) : bool :=
  match SpooledBytesIO.__buffer s with
  | Some f => negb (isinstance_BytesIO f)
  | None => false
  end.

Definition text_cursor (s : SpooledStringIO.t) : nat :=
  match SpooledStringIO.__buffer s with
  | Some r => flo_pos (stream r)
  | None => 0%nat
  end.

Definition text_on_disk (s : SpooledStringIO.t) : bool :=
  match SpooledStringIO.__buffer s with
  | Some r => negb (isinstance_BytesIO (stream r))
  | None => false
  end.

(** What is asked of [rollover] on a stream [s] that is still in memory:
    it returns, the stream is then on disk, the backend holds the same
    bytes, and [tell] reports the same offset as before. *)
Definition bytes_rollover_migrates (s : SpooledBytesIO.t) : Prop :=
  exists s',
    rollover s = (Ok tt, s') /\
    outcome _rolled s' = Ok true /\
    bytes_stored s' = bytes_stored s /\
    exists p, outcome tell s = Ok p /\ outcome tell s' = Ok p.

Definition text_rollover_migrates (s : SpooledStringIO.t) : Prop :=
  exists s',
    rollover s = (Ok tt, s') /\
    outcome _rolled s' = Ok true /\
    text_stored s' = text_stored s /\
    exists p, outcome tell s = Ok p /\ outcome tell s' = Ok p.

(** A text made of code points that UTF-8 encodes. *)
Definition valid_text (t : text) : Prop :=
  Forall (fun c => is_scalar c = true) t.

(** A value returned by a text stream: a text, and a valid one. *)
Definition is_valid_str (v : pyval) : Prop :=
  exists t, v = PyStr t /\ valid_text t.

(** Invariant of the decoder: from a state inside a character, every
    accepted continuation leads to a scalar value. *)
Fixpoint need_ok (more : nat) (acc lo hi : Z) : Prop :=
  forall b, lo <= b <= hi ->
    match more with
    | O => is_scalar (acc * 64 + (b - 0x80)) = true
    | S more' => need_ok more' (acc * 64 + (b - 0x80)) 0x80 0xBF
    end.

Definition state_ok (st : dec_state) : Prop :=
  match st with
  | DStart => True
  | DNeed more acc lo hi => need_ok more acc lo hi
  end.

(** The bytes of the wrapped stream that the reader has not read yet. *)
Definition unread (r : StreamRecoder) : bytes :=
  skipn (flo_pos (stream r)) (flo_data (stream r)).

(** The characters a reader keeps: the lines it has cut and put aside, or
    else the characters it has decoded and not handed out. *)
Definition kept_chars (r : StreamRecoder) : text :=
  match linebuffer r with
  | Some (l :: ls) => concat (l :: ls)
  | _ => charbuffer r
  end.

(** The list of lines a reader keeps: at least two lines, none of them
    empty, and then no characters besides. *)
Definition lines_kept (r : StreamRecoder) : Prop :=
  match linebuffer r with
  | None => True
  | Some ls =>
      (2 <= length ls)%nat /\ charbuffer r = [] /\
      Forall (fun l => l <> []) ls
  end.

(** The text [R] that an open reader still has to deliver: the characters
    it keeps, followed by the decoding of the bytes it has kept and of the
    unread bytes of the stream. *)
Definition reader_sound (r : StreamRecoder) (R : text) : Prop :=
  flo_closed (stream r) = false /\
  lines_kept r /\
  exists R2,
    R = kept_chars r ++ R2 /\
    utf8_encode R2 = Some (bytebuffer r ++ unread r).

(** The same for a reader that keeps no lines, as it is while [read]
    runs. *)
Definition reader_holds (r : StreamRecoder) (R : text) : Prop :=
  flo_closed (stream r) = false /\
  linebuffer r = None /\
  exists R2,
    R = charbuffer r ++ R2 /\
    utf8_encode R2 = Some (bytebuffer r ++ unread r).

(** The reader once [read] has put the kept lines back together. *)
Definition merged (r : StreamRecoder) : StreamRecoder :=
  match linebuffer r with
  | Some (l :: ls) =>
      mk_recoder (stream r) (bytebuffer r) (concat (l :: ls)) None
  | _ => r
  end.

(** A text stream that holds the text [R]: what is left to read, from
    its cursor on. *)
Definition text_holds (s : SpooledStringIO.t) (R : text) : Prop :=
  valid_text R /\
  exists r, SpooledStringIO.__buffer s = Some r /\ reader_sound r R.

(** A byte line and the text line it encodes. *)
Definition encodes (lb : bytes) (lt : text) : Prop :=
  utf8_encode lt = Some lb.

(** What one [read] call of the stream takes from the wrapped stream. *)
Definition chunk (n : Z) (rest : bytes) : bytes :=
  if n <? 0 then rest else firstn (Z.to_nat n) rest.

(** ** Bounds on the loops of the reader *)

(** The size of what a reader can still deliver. *)
Definition backlog (r : StreamRecoder) : nat :=
  length (kept_chars r) + length (bytebuffer r) + length (unread r).

(** The reader keeps no list of lines. *)
Definition no_lines (r : StreamRecoder) : Prop :=
  match linebuffer r with
  | Some (_ :: _) => False
  | _ => True
  end.

(** An outcome other than the bound of a loop being reached. *)
Definition not_out_of_fuel {A} (x : result A) : Prop :=
  match x with
  | Raise OutOfFuel => False
  | _ => True
  end.

(** The same count while the kept characters are in [charbuffer]. *)
Definition buffered (r : StreamRecoder) : nat :=
  length (charbuffer r) + length (bytebuffer r) + length (unread r).

(** What the loop of [read] and a [read] call do to these counts: the
    loop does not raise them, a call lowers the backlog by the number of
    characters it returns; neither stops for lack of fuel. *)
Definition fill_bounded (r : StreamRecoder)
  (x : result unit * StreamRecoder) : Prop :=
  match x with
  | (Ok _, r') =>
      linebuffer r' = linebuffer r /\ (buffered r' <= buffered r)%nat
  | (Raise e, _) => e <> OutOfFuel
  end.

Definition read_bounded (r : StreamRecoder)
  (x : result text * StreamRecoder) : Prop :=
  match x with
  | (Ok data, r') => no_lines r' /\ (length data + backlog r' <= backlog r)%nat
  | (Raise e, _) => e <> OutOfFuel
  end.

(** A method whose loops never reach the bound set by the model. *)
Definition never_out_of_fuel {S A} (m : M S A) : Prop :=
  forall s, not_out_of_fuel (outcome m s).

(** ** Observations on lines and on runs of calls *)

(** Bytes with no line feed but, possibly, the last one. *)
Definition one_line (x : bytes) : Prop :=
  forall a b, x = a ++ 10 :: b -> b = [].

(** Bytes that end with a line feed. *)
Definition ends_with_LF (x : bytes) : Prop := exists a, x = a ++ [10].

(** A method keeps a relation between the state it starts from and the
    state it leaves, whether it returns or raises. *)
Definition keeps {S A} (P : S -> S -> Prop) (m : M S A) : Prop :=
  forall s, P s (snd (m s)).

(** What one call may do to a file: the class stays, and a [BytesIO]
    gets no longer. *)
Definition flo_step (f f' : flo) : Prop :=
  flo_cls f' = flo_cls f /\
  (flo_cls f = cls_BytesIO ->
   (length (flo_data f') <= length (flo_data f))%nat).

(** What one call may do to a byte stream: the threshold stays, a
    stream on disk stays on disk, and a stream in memory afterwards holds
    no more than before or fewer bytes than the threshold. *)
Definition bytes_step (s s' : SpooledBytesIO.t) : Prop :=
  SpooledBytesIO._max_size s' = SpooledBytesIO._max_size s /\
  (bytes_on_disk s = true -> bytes_on_disk s' = true) /\
  (bytes_on_disk s' = false ->
   (length (bytes_stored s') <= length (bytes_stored s))%nat \/
   Z.of_nat (length (bytes_stored s')) < SpooledBytesIO._max_size s).

(** The same for a recoding wrapper and for a text stream: the class of
    the wrapped file stays, a stream on disk stays on disk. *)
Definition recoder_step (r r' : StreamRecoder) : Prop :=
  flo_cls (stream r') = flo_cls (stream r).

Definition text_step (s s' : SpooledStringIO.t) : Prop :=
  text_on_disk s = true -> text_on_disk s' = true.

(** * Properties *)

(** ** Stepping through method bodies *)

Ltac mred :=
  repeat (progress (
    unfold bind, ret, raise, get, local, on_buffer;
    cbn -[recoder_seek recoder_read recoder_write recoder_readline
          recoder_readlines flo_seek flo_write
          Z.of_nat reader_fill utf8_decode utf8_encode])).

Ltac div_mod_lia := Z.div_mod_to_equations; lia.

(** Settle the comparisons of a goal from the arithmetic context. *)
Ltac decide_tests :=
  repeat match goal with
  | |- context [?a <=? ?b] =>
      first [ replace (a <=? b) with true
                by (symmetry; apply Z.leb_le; div_mod_lia)
            | replace (a <=? b) with false
                by (symmetry; apply Z.leb_gt; div_mod_lia) ]
  | |- context [?a <? ?b] =>
      first [ replace (a <? b) with true
                by (symmetry; apply Z.ltb_lt; div_mod_lia)
            | replace (a <? b) with false
                by (symmetry; apply Z.ltb_ge; div_mod_lia) ]
  | |- context [?a =? ?b] =>
      first [ replace (a =? b) with true
                by (symmetry; apply Z.eqb_eq; div_mod_lia)
            | replace (a =? b) with false
                by (symmetry; apply Z.eqb_neq; div_mod_lia) ]
  end.

Ltac run_tests := repeat (progress (decide_tests; cbn [andb orb])).

Lemma Some_inj {A} (x y : A) : Some x = Some y -> x = y.
Proof. congruence. Qed.

(** Two ways of cutting the same list. *)
Lemma app_eq_app_split {A} (a b c d : list A) :
  a ++ b = c ++ d ->
  (exists x, c = a ++ x /\ b = x ++ d) \/
  (exists x, x <> [] /\ a = c ++ x /\ d = x ++ b).
Proof.
  revert c. induction a as [|h a IH]; intros c H.
  - left. exists c. now split.
  - destruct c as [|h' c].
    + right. exists (h :: a). repeat split; [discriminate | exact (eq_sym H)].
    + cbn [app] in H. injection H as -> H.
      destruct (IH c H) as [(x & -> & ->) | (x & Hx & -> & ->)].
      * left. now exists x.
      * right. now exists x.
Qed.

Lemma app_eq_self_l {A} (a b : list A) : a = a ++ b -> b = [].
Proof.
  intros H. apply (f_equal (@length A)) in H. rewrite length_app in H.
  destruct b; [reflexivity | cbn in H; lia].
Qed.

(** ** Raw files *)

Lemma of_nat_ltb_0 (p : nat) : (Z.of_nat p <? 0) = false.
Proof. apply Z.ltb_ge. lia. Qed.

Lemma overwrite_at_end (d s : bytes) : overwrite d (length d) s = d ++ s.
Proof.
  unfold overwrite.
  rewrite firstn_all, Nat.sub_diag, skipn_all2
    by (rewrite length_app || lia; lia).
  simpl. now rewrite app_nil_r.
Qed.

Lemma flo_seek_abs (f : flo) (q : nat) :
  flo_seek (Z.of_nat q) 0 f =
  if flo_closed f then (Raise ValueError, f)
  else (Ok (Z.of_nat q), set_pos q f).
Proof.
  unfold flo_seek, if_open; simpl. destruct (flo_closed f); [reflexivity|].
  rewrite of_nat_ltb_0. now rewrite Nat2Z.id.
Qed.

Lemma flo_seek_0 (f : flo) :
  flo_seek 0 0 f =
  if flo_closed f then (Raise ValueError, f) else (Ok 0, set_pos 0 f).
Proof. exact (flo_seek_abs f 0). Qed.

Lemma flo_write_at_end c d w :
  flo_write w (mk_flo c d (length d) false) =
  (Ok (Z.of_nat (length w)), mk_flo c (d ++ w) (length (d ++ w)) false).
Proof.
  unfold flo_write, if_open; simpl. destruct w as [|x w].
  - now rewrite app_nil_r.
  - rewrite overwrite_at_end, length_app. reflexivity.
Qed.

Lemma flo_write_fresh d :
  flo_write d TemporaryFile =
  (Ok (Z.of_nat (length d)), mk_flo cls_TemporaryFile d (length d) false).
Proof. exact (flo_write_at_end cls_TemporaryFile [] d). Qed.

(** Writing to and seeking in the wrapper leave the class of the wrapped
    stream alone. *)
Lemma flo_write_cls w f : flo_cls (snd (flo_write w f)) = flo_cls f.
Proof.
  unfold flo_write, if_open. destruct (flo_closed f), w; reflexivity.
Qed.

Lemma flo_seek_cls o w f : flo_cls (snd (flo_seek o w f)) = flo_cls f.
Proof.
  unfold flo_seek, if_open. destruct (flo_closed f); [reflexivity|].
  destruct f as [c d p cl]. cbn [flo_cls flo_pos flo_data].
  repeat match goal with
  | |- context [if ?b then _ else _] => destruct b
  end; try destruct c; reflexivity.
Qed.

Lemma flo_read_chunk n c E p :
  flo_read (if n <? 0 then -1 else n) (mk_flo c E p false) =
  (Ok (chunk n (skipn p E)),
   mk_flo c E (p + length (chunk n (skipn p E))) false).
Proof.
  unfold flo_read, if_open, chunk, set_pos. cbn [flo_closed flo_pos flo_data flo_cls].
  destruct (Z.ltb_spec n 0) as [Hn|Hn]; [reflexivity|].
  replace (n <? -1) with false by (symmetry; apply Z.ltb_ge; lia).
  replace (n <? 0) with false by (symmetry; apply Z.ltb_ge; lia).
  reflexivity.
Qed.

Lemma flo_read_closed n c E p :
  flo_read n (mk_flo c E p true) = (Raise ValueError, mk_flo c E p true).
Proof. reflexivity. Qed.

Lemma chunk_split n rest :
  rest = chunk n rest ++ skipn (length (chunk n rest)) rest.
Proof.
  unfold chunk. destruct (n <? 0).
  - now rewrite skipn_all, app_nil_r.
  - rewrite length_firstn.
    destruct (Nat.min_spec (Z.to_nat n) (length rest)) as [[_ ->]|[H ->]].
    + now rewrite firstn_skipn.
    + rewrite firstn_all2, skipn_all by lia. now rewrite app_nil_r.
Qed.

Lemma chunk_nil n rest :
  ~ (0 <= n <= 0) -> chunk n rest = [] -> rest = [].
Proof.
  unfold chunk. intros Hn. destruct (Z.ltb_spec n 0); [auto|].
  destruct rest as [|x rest]; [reflexivity|].
  destruct (Z.to_nat n) eqn:E; [lia|discriminate].
Qed.

(** ** The UTF-8 codec *)

Lemma is_scalar_spec c :
  is_scalar c = true <-> (0 <= c < 0xD800 \/ 0xDFFF < c <= 0x10FFFF).
Proof. unfold is_scalar. lia. Qed.

Section Scan.
Variables (final : bool) (done : nat) (out : text) (rest : bytes).

Lemma utf8_scan_1 b :
  0 <= b < 0x80 ->
  utf8_scan final DStart done 0 out (b :: rest) =
  utf8_scan final DStart (done + 1) 0 (b :: out) rest.
Proof.
  intros. cbn [utf8_scan]. unfold utf8_step. run_tests.
  f_equal; lia.
Qed.

Lemma utf8_scan_2 b1 b2 :
  0xC2 <= b1 <= 0xDF -> 0x80 <= b2 <= 0xBF ->
  utf8_scan final DStart done 0 out (b1 :: b2 :: rest) =
  utf8_scan final DStart (done + 2) 0
    (((b1 - 0xC0) * 64 + (b2 - 0x80)) :: out) rest.
Proof.
  intros. cbn [utf8_scan]. unfold utf8_step. run_tests. f_equal; lia.
Qed.

Lemma utf8_scan_3 b1 b2 b3 :
  0xE0 <= b1 <= 0xEF -> 0x80 <= b2 <= 0xBF -> 0x80 <= b3 <= 0xBF ->
  (b1 = 0xE0 -> 0xA0 <= b2) -> (b1 = 0xED -> b2 <= 0x9F) ->
  utf8_scan final DStart done 0 out (b1 :: b2 :: b3 :: rest) =
  utf8_scan final DStart (done + 3) 0
    ((((b1 - 0xE0) * 64 + (b2 - 0x80)) * 64 + (b3 - 0x80)) :: out) rest.
Proof.
  intros H1 H2 H3 HE0 HED. cbn [utf8_scan]. unfold utf8_step. run_tests.
  destruct (Z.eqb_spec b1 0xE0) as [->|N0].
  { specialize (HE0 eq_refl). run_tests. f_equal; lia. }
  destruct (Z.eqb_spec b1 0xED) as [->|ND].
  { specialize (HED eq_refl). run_tests. f_equal; lia. }
  run_tests. f_equal; lia.
Qed.

Lemma utf8_scan_4 b1 b2 b3 b4 :
  0xF0 <= b1 <= 0xF4 -> 0x80 <= b2 <= 0xBF -> 0x80 <= b3 <= 0xBF ->
  0x80 <= b4 <= 0xBF ->
  (b1 = 0xF0 -> 0x90 <= b2) -> (b1 = 0xF4 -> b2 <= 0x8F) ->
  utf8_scan final DStart done 0 out (b1 :: b2 :: b3 :: b4 :: rest) =
  utf8_scan final DStart (done + 4) 0
    (((((b1 - 0xF0) * 64 + (b2 - 0x80)) * 64 + (b3 - 0x80)) * 64
      + (b4 - 0x80)) :: out) rest.
Proof.
  intros H1 H2 H3 H4 HF0 HF4. cbn [utf8_scan]. unfold utf8_step. run_tests.
  destruct (Z.eqb_spec b1 0xF0) as [->|N0].
  { specialize (HF0 eq_refl). run_tests. f_equal; lia. }
  destruct (Z.eqb_spec b1 0xF4) as [->|N4].
  { specialize (HF4 eq_refl). run_tests. f_equal; lia. }
  run_tests. f_equal; lia.
Qed.
End Scan.

Lemma utf8_scan_encode_char c b :
  utf8_encode_char c = Some b ->
  forall final done out rest,
    utf8_scan final DStart done 0 out (b ++ rest) =
    utf8_scan final DStart (done + length b) 0 (c :: out) rest.
Proof.
  unfold utf8_encode_char.
  destruct (is_scalar c) eqn:Hs; [|discriminate]. apply is_scalar_spec in Hs.
  cbn [negb].
  destruct (Z.ltb_spec c 0x80).
  { intros Hb final done out rest. apply Some_inj in Hb. subst b.
    apply utf8_scan_1. lia. }
  destruct (Z.ltb_spec c 0x800).
  { intros Hb final done out rest. apply Some_inj in Hb. subst b. cbn [app length].
    rewrite utf8_scan_2 by div_mod_lia. do 2 f_equal. div_mod_lia. }
  destruct (Z.ltb_spec c 0x10000).
  { intros Hb final done out rest. apply Some_inj in Hb. subst b. cbn [app length].
    rewrite utf8_scan_3 by div_mod_lia. do 2 f_equal. div_mod_lia. }
  intros Hb final done out rest. apply Some_inj in Hb. subst b. cbn [app length].
  rewrite utf8_scan_4 by div_mod_lia. do 2 f_equal. div_mod_lia.
Qed.

Lemma utf8_scan_encode t : forall b,
  utf8_encode t = Some b ->
  forall final done out rest,
    utf8_scan final DStart done 0 out (b ++ rest) =
    utf8_scan final DStart (done + length b) 0 (rev t ++ out) rest.
Proof.
  induction t as [|c t IH]; simpl; intros b Hb final done out rest.
  - apply Some_inj in Hb. subst b. simpl. f_equal; lia.
  - destruct (utf8_encode_char c) as [bc|] eqn:Hc; [|discriminate].
    destruct (utf8_encode t) as [bt|] eqn:Ht; [|discriminate].
    apply Some_inj in Hb. subst b. rewrite <- app_assoc.
    rewrite (utf8_scan_encode_char _ _ Hc), (IH _ eq_refl).
    rewrite length_app, <- app_assoc. simpl. f_equal; lia.
Qed.

Lemma utf8_decode_encode t b final :
  utf8_encode t = Some b -> utf8_decode final b = Decoded t (length b).
Proof.
  intros Hb. unfold utf8_decode.
  rewrite <- (app_nil_r b) at 1. rewrite (utf8_scan_encode _ _ Hb).
  simpl. now rewrite app_nil_r, rev_involutive.
Qed.

(** Decoded characters are scalar values. *)
Lemma utf8_step_ok st b :
  state_ok st ->
  match utf8_step st b with
  | Emit c => is_scalar c = true
  | Next st' => state_ok st'
  | Bad => True
  end.
Proof.
  destruct st as [|more acc lo hi]; intros Hst.
  - unfold utf8_step.
    repeat match goal with
    | |- context [if ?t then _ else _] => destruct t eqn:?
    end; cbn [state_ok need_ok]; intros; try exact I;
    rewrite ?is_scalar_spec; lia.
  - cbn [utf8_step].
    destruct ((lo <=? b) && (b <=? hi)) eqn:Hb; [|exact I].
    assert (lo <= b <= hi) by lia.
    destruct more; cbn [state_ok need_ok] in *; now apply Hst.
Qed.

Lemma utf8_scan_scalar final bs : forall st done pending out t n,
  state_ok st -> Forall (fun c => is_scalar c = true) out ->
  utf8_scan final st done pending out bs = Decoded t n ->
  Forall (fun c => is_scalar c = true) t.
Proof.
  induction bs as [|b bs IH]; intros st done pending out t n Hst Hout; cbn [utf8_scan].
  - assert (Hr : Forall (fun c => is_scalar c = true) (rev out))
      by (apply Forall_forall; intros x Hx; apply in_rev in Hx;
          revert x Hx; now apply Forall_forall).
    destruct st; [|destruct final]; intros E; try discriminate;
      injection E as <- _; exact Hr.
  - pose proof (utf8_step_ok st b Hst) as Hstep.
    destruct (utf8_step st b) as [c|st'|].
    + apply IH; [exact I | now constructor].
    + now apply IH.
    + assert (Hr : Forall (fun c => is_scalar c = true) (rev out))
        by (apply Forall_forall; intros x Hx; apply in_rev in Hx;
            revert x Hx; now apply Forall_forall).
      intros E.
      repeat match type of E with
      | match ?x with _ => _ end = _ => destruct x; try discriminate
      | (if ?x then _ else _) = _ => destruct x; try discriminate
      end; injection E as <- _; exact Hr.
Qed.

Lemma utf8_decode_scalar final bs t n :
  utf8_decode final bs = Decoded t n -> Forall (fun c => is_scalar c = true) t.
Proof. apply utf8_scan_scalar; [exact I | constructor]. Qed.

Lemma utf8_encode_char_scalar c :
  is_scalar c = true -> exists b, utf8_encode_char c = Some b.
Proof.
  intros H. unfold utf8_encode_char. rewrite H. cbn [negb].
  repeat match goal with |- context [if ?t then _ else _] => destruct t end; eauto.
Qed.

Lemma utf8_encode_scalar t :
  Forall (fun c => is_scalar c = true) t -> exists b, utf8_encode t = Some b.
Proof.
  induction 1 as [|c t Hc _ [bt IH]]; cbn [utf8_encode]; [eauto|].
  destruct (utf8_encode_char_scalar c Hc) as [bc ->]. rewrite IH. eauto.
Qed.

Lemma utf8_encode_valid t e : utf8_encode t = Some e -> valid_text t.
Proof.
  revert e. induction t as [|c t IH]; intros e He; [constructor|].
  cbn [utf8_encode] in He.
  destruct (utf8_encode_char c) as [ec|] eqn:Hc; [|discriminate].
  destruct (utf8_encode t) as [et|]; [|discriminate].
  constructor; [|now apply (IH et)].
  unfold utf8_encode_char in Hc. now destruct (is_scalar c).
Qed.

Lemma valid_text_firstn k t : valid_text t -> valid_text (firstn k t).
Proof.
  intros H. rewrite <- (firstn_skipn k t) in H.
  now apply Forall_app in H.
Qed.

Lemma valid_text_skipn k t : valid_text t -> valid_text (skipn k t).
Proof.
  intros H. rewrite <- (firstn_skipn k t) in H.
  now apply Forall_app in H.
Qed.

Lemma utf8_encode_app a b :
  utf8_encode (a ++ b) =
  match utf8_encode a, utf8_encode b with
  | Some ea, Some eb => Some (ea ++ eb)
  | _, _ => None
  end.
Proof.
  induction a as [|c a IH]; cbn [app utf8_encode].
  - destruct (utf8_encode b); reflexivity.
  - rewrite IH. destruct (utf8_encode_char c), (utf8_encode a), (utf8_encode b);
      try reflexivity. now rewrite app_assoc.
Qed.

Lemma utf8_encode_nil_inv t : utf8_encode t = Some [] -> t = [].
Proof.
  destruct t as [|c0 t]; [reflexivity|]. cbn [utf8_encode].
  unfold utf8_encode_char. intros Ht.
  repeat match type of Ht with
  | context [if ?b then _ else _] => destruct b
  | context [match ?b with _ => _ end] => destruct b
  end; discriminate.
Qed.

Lemma utf8_scan_lengths final bs : forall st done pending out t n,
  utf8_scan final st done pending out bs = Decoded t n ->
  (length out <= done)%nat ->
  (length t <= n /\ n <= done + pending + length bs)%nat.
Proof.
  induction bs as [|b bs IH]; intros st done pending out t n; cbn [utf8_scan].
  - intros E Ho.
    assert (Decoded t n = Decoded (rev out) done) as [= -> ->]
      by (destruct st; [|destruct final]; congruence).
    rewrite length_rev. cbn [length]. lia.
  - destruct (utf8_step st b) as [c|st'|].
    + intros E Ho. apply IH in E; [|cbn [length]; lia]. cbn [length]. lia.
    + intros E Ho. apply IH in E; [|lia]. cbn [length]. lia.
    + intros E Ho.
      assert (Decoded t n = Decoded (rev out) done) as [= -> ->].
      { repeat match type of E with
        | match ?x with _ => _ end = _ => destruct x; try discriminate
        | (if ?x then _ else _) = _ => destruct x; try discriminate
        end; congruence. }
      rewrite length_rev. cbn [length]. lia.
Qed.

Lemma utf8_decode_lengths final data t n :
  utf8_decode final data = Decoded t n ->
  (length t <= n /\ n <= length data)%nat.
Proof.
  intros E. apply utf8_scan_lengths in E; cbn [length] in *; lia.
Qed.

(** ** Decoding a piece of well-formed data *)

Section Prefix.
Variables (done : nat) (out : text).

Lemma utf8_scan_prefix_1 b1 :
  0xC2 <= b1 <= 0xF4 ->
  utf8_scan false DStart done 0 out [b1] = Decoded (rev out) done.
Proof.
  intros H1. cbn [utf8_scan]. unfold utf8_step. run_tests.
  repeat match goal with
  | |- context [?a =? ?b] => destruct (Z.eqb_spec a b)
  | |- context [?a <=? ?b] => destruct (Z.leb_spec a b)
  | |- context [?a <? ?b] => destruct (Z.ltb_spec a b)
  end; cbn [andb orb]; try reflexivity; lia.
Qed.

Lemma utf8_scan_prefix_2 b1 b2 :
  0xE0 <= b1 <= 0xF4 -> 0x80 <= b2 <= 0xBF ->
  (b1 = 0xE0 -> 0xA0 <= b2) -> (b1 = 0xED -> b2 <= 0x9F) ->
  (b1 = 0xF0 -> 0x90 <= b2) -> (b1 = 0xF4 -> b2 <= 0x8F) ->
  utf8_scan false DStart done 0 out [b1; b2] = Decoded (rev out) done.
Proof.
  intros H1 H2 HE0 HED HF0 HF4. cbn [utf8_scan]. unfold utf8_step. run_tests.
  destruct (Z.eqb_spec b1 0xE0) as [->|N0].
  { specialize (HE0 eq_refl). run_tests. reflexivity. }
  destruct (Z.eqb_spec b1 0xED) as [->|ND].
  { specialize (HED eq_refl). run_tests. reflexivity. }
  destruct (Z.leb_spec b1 0xEF).
  { run_tests. reflexivity. }
  destruct (Z.eqb_spec b1 0xF0) as [->|NF0].
  { specialize (HF0 eq_refl). run_tests. reflexivity. }
  destruct (Z.eqb_spec b1 0xF4) as [->|NF4].
  { specialize (HF4 eq_refl). run_tests. reflexivity. }
  run_tests. reflexivity.
Qed.

Lemma utf8_scan_prefix_3 b1 b2 b3 :
  0xF0 <= b1 <= 0xF4 -> 0x80 <= b2 <= 0xBF -> 0x80 <= b3 <= 0xBF ->
  (b1 = 0xF0 -> 0x90 <= b2) -> (b1 = 0xF4 -> b2 <= 0x8F) ->
  utf8_scan false DStart done 0 out [b1; b2; b3] = Decoded (rev out) done.
Proof.
  intros H1 H2 H3 HF0 HF4. cbn [utf8_scan]. unfold utf8_step. run_tests.
  destruct (Z.eqb_spec b1 0xF0) as [->|NF0].
  { specialize (HF0 eq_refl). run_tests. reflexivity. }
  destruct (Z.eqb_spec b1 0xF4) as [->|NF4].
  { specialize (HF4 eq_refl). run_tests. reflexivity. }
  run_tests. reflexivity.
Qed.
End Prefix.

(** The shape of the encoding of one character. *)
Lemma utf8_encode_char_shape c e :
  utf8_encode_char c = Some e ->
  (exists b1, e = [b1] /\ 0 <= b1 < 0x80) \/
  (exists b1 b2, e = [b1; b2] /\ 0xC2 <= b1 <= 0xDF /\ 0x80 <= b2 <= 0xBF) \/
  (exists b1 b2 b3, e = [b1; b2; b3] /\
     0xE0 <= b1 <= 0xEF /\ 0x80 <= b2 <= 0xBF /\ 0x80 <= b3 <= 0xBF /\
     (b1 = 0xE0 -> 0xA0 <= b2) /\ (b1 = 0xED -> b2 <= 0x9F)) \/
  (exists b1 b2 b3 b4, e = [b1; b2; b3; b4] /\
     0xF0 <= b1 <= 0xF4 /\ 0x80 <= b2 <= 0xBF /\ 0x80 <= b3 <= 0xBF /\
     0x80 <= b4 <= 0xBF /\
     (b1 = 0xF0 -> 0x90 <= b2) /\ (b1 = 0xF4 -> b2 <= 0x8F)).
Proof.
  unfold utf8_encode_char.
  destruct (is_scalar c) eqn:Hs; [|discriminate]. apply is_scalar_spec in Hs.
  cbn [negb].
  destruct (Z.ltb_spec c 0x80).
  { intros He. apply Some_inj in He. subst e. left. eexists. split; [reflexivity|lia]. }
  destruct (Z.ltb_spec c 0x800).
  { intros He. apply Some_inj in He. subst e. right; left.
    do 2 eexists. split; [reflexivity|]. div_mod_lia. }
  destruct (Z.ltb_spec c 0x10000).
  { intros He. apply Some_inj in He. subst e. right; right; left.
    do 3 eexists. split; [reflexivity|]. div_mod_lia. }
  intros He. apply Some_inj in He. subst e. right; right; right.
  do 4 eexists. split; [reflexivity|]. div_mod_lia.
Qed.

Lemma utf8_scan_char_prefix c data x done out :
  utf8_encode_char c = Some (data ++ x) -> x <> [] ->
  utf8_scan false DStart done 0 out data = Decoded (rev out) done.
Proof.
  intros He Hx. apply utf8_encode_char_shape in He.
  destruct He as [(b1 & E & H1) | [(b1 & b2 & E & H1 & H2) |
    [(b1 & b2 & b3 & E & H1 & H2 & H3 & HE0 & HED) |
     (b1 & b2 & b3 & b4 & E & H1 & H2 & H3 & H4 & HF0 & HF4)]]].
  - destruct data as [|d1 data]; [reflexivity|].
    cbn [app] in E. injection E as -> E.
    apply app_eq_nil in E. destruct E as [_ ->]. congruence.
  - destruct data as [|d1 [|d2 data]]; [reflexivity| |];
      cbn [app] in E.
    + injection E as -> E. apply utf8_scan_prefix_1. lia.
    + injection E as -> -> E. apply app_eq_nil in E. destruct E as [_ ->]. congruence.
  - destruct data as [|d1 [|d2 [|d3 data]]]; [reflexivity| | |];
      cbn [app] in E.
    + injection E as -> E. apply utf8_scan_prefix_1. lia.
    + injection E as -> -> E. apply utf8_scan_prefix_2; lia.
    + injection E as -> -> -> E. apply app_eq_nil in E. destruct E as [_ ->]. congruence.
  - destruct data as [|d1 [|d2 [|d3 [|d4 data]]]]; [reflexivity| | | |];
      cbn [app] in E.
    + injection E as -> E. apply utf8_scan_prefix_1. lia.
    + injection E as -> -> E. apply utf8_scan_prefix_2; lia.
    + injection E as -> -> -> E. apply utf8_scan_prefix_3; lia.
    + injection E as -> -> -> -> E. apply app_eq_nil in E. destruct E as [_ ->]. congruence.
Qed.

Lemma utf8_encode_char_nonempty c e : utf8_encode_char c = Some e -> e <> [].
Proof.
  intros He. apply utf8_encode_char_shape in He.
  destruct He as [(? & -> & _) | [(? & ? & -> & _) |
    [(? & ? & ? & -> & _) | (? & ? & ? & ? & -> & _)]]]; discriminate.
Qed.

(** Decoding, without the final flag, a piece cut anywhere from
    well-formed data: the characters that are whole in the piece are
    decoded, the bytes of a character cut by the end of the piece are
    left. *)
Lemma utf8_scan_incremental R : forall data tail done out,
  utf8_encode R = Some (data ++ tail) ->
  exists A B eA rest,
    R = A ++ B /\
    utf8_encode A = Some eA /\
    data = eA ++ rest /\
    utf8_encode B = Some (rest ++ tail) /\
    utf8_scan false DStart done 0 out data =
      Decoded (rev out ++ A) (done + length eA) /\
    (tail = [] -> B = []).
Proof.
  induction R as [|c R IH]; intros data tail done out HR.
  - cbn [utf8_encode] in HR. apply Some_inj in HR. symmetry in HR.
    apply app_eq_nil in HR. destruct HR as [-> ->].
    exists [], [], [], []. cbn. rewrite app_nil_r, Nat.add_0_r. repeat split.
  - cbn [utf8_encode] in HR.
    destruct (utf8_encode_char c) as [ec|] eqn:Hc; [|discriminate].
    destruct (utf8_encode R) as [eR|] eqn:HeR; [|discriminate].
    apply Some_inj in HR.
    destruct (app_eq_app_split _ _ _ _ HR) as [(x & -> & ->) | (x & Hx & -> & ->)].
    + destruct (IH x tail (done + length ec)%nat (c :: out) eq_refl)
        as (A & B & eA & rest & -> & HA & -> & HB & Hscan & Hall).
      exists (c :: A), B, (ec ++ eA), rest.
      repeat split; try assumption.
      * cbn [utf8_encode]. now rewrite Hc, HA.
      * now rewrite app_assoc.
      * rewrite (utf8_scan_encode_char _ _ Hc), Hscan.
        cbn [rev]. rewrite <- app_assoc, length_app. cbn [app]. f_equal. lia.
    + exists [], (c :: R), [], data.
      repeat split.
      * cbn [utf8_encode]. rewrite Hc, HeR. now rewrite <- app_assoc.
      * rewrite (utf8_scan_char_prefix _ _ _ _ _ Hc Hx).
        cbn. now rewrite app_nil_r, Nat.add_0_r.
      * intros E. destruct x; [congruence | discriminate].
Qed.

(** ** The recoding wrapper *)

Lemma recoder_seek_abs c d p bb cb lb (q : nat) :
  recoder_seek (Z.of_nat q) 0 (mk_recoder (mk_flo c d p false) bb cb lb) =
  (Ok tt, mk_recoder (mk_flo c d q false) [] [] None).
Proof.
  unfold recoder_seek, bind, on_stream, set_buffers, ret. cbn [stream bytebuffer charbuffer linebuffer].
  rewrite flo_seek_abs. cbn -[flo_seek Z.of_nat]. rewrite flo_seek_abs. reflexivity.
Qed.

Lemma recoder_seek_0 c d p bb cb lb :
  recoder_seek 0 0 (mk_recoder (mk_flo c d p false) bb cb lb) =
  (Ok tt, mk_recoder (mk_flo c d 0 false) [] [] None).
Proof. exact (recoder_seek_abs c d p bb cb lb 0). Qed.

Lemma recoder_write_cls data r :
  flo_cls (stream (snd (recoder_write data r))) = flo_cls (stream r).
Proof.
  unfold recoder_write, bind, bytes_decode, str_encode.
  destruct (utf8_decode true data) as [t n|]; [|reflexivity].
  unfold ret at 1. destruct (utf8_encode t) as [e|]; [|reflexivity].
  unfold ret at 1. unfold on_stream.
  pose proof (flo_write_cls e (stream r)) as H.
  destruct (flo_write e (stream r)) as [[z|x] f]; exact H.
Qed.

Lemma recoder_seek_cls o w r :
  flo_cls (stream (snd (recoder_seek o w r))) = flo_cls (stream r).
Proof.
  unfold recoder_seek, bind, on_stream, set_buffers, ret.
  pose proof (flo_seek_cls o w (stream r)) as H1.
  destruct (flo_seek o w (stream r)) as [[z|x] f]; [|exact H1].
  cbn [stream bytebuffer charbuffer linebuffer snd] in *.
  pose proof (flo_seek_cls o w f) as H2.
  destruct (flo_seek o w f) as [[z'|x'] f']; cbn [stream snd] in *; congruence.
Qed.

Lemma reader_fill_eq fuel size chars firstline r :
  reader_fill fuel size chars firstline r =
  if (0 <=? chars) && (chars <=? Z.of_nat (length (charbuffer r)))
  then (Ok tt, r)
  else
    (newdata <- on_stream (flo_read (if size <? 0 then -1 else size)) ;;
     r1 <- get ;;
     let data := bytebuffer r1 ++ newdata in
     match data with
     | [] => ret tt
     | _ =>
         decoded <-
           match utf8_decode false data with
           | Decoded newchars n => ret (newchars, n)
           | DecodeError start =>
               if firstline then
                 match utf8_decode false (firstn start data) with
                 | Decoded newchars n =>
                     if (length (str_splitlines true newchars) <=? 1)%nat
                     then raise (UnicodeDecodeError start)
                     else ret (newchars, n)
                 | DecodeError start' => raise (UnicodeDecodeError start')
                 end
               else raise (UnicodeDecodeError start)
           end ;;
         let '(newchars, decodedbytes) := decoded in
         set_buffers (skipn decodedbytes data) (charbuffer r1 ++ newchars)
                     (linebuffer r1) ;;;
         match newdata with
         | [] => ret tt
         | _ => match fuel with
                | O => raise OutOfFuel
                | S fuel' => reader_fill fuel' size chars firstline
                end
         end
     end) r.
Proof. destruct fuel; reflexivity. Qed.

(** Reading everything from the start of a well-formed stream. *)
Lemma reader_read_all c d t :
  utf8_encode t = Some d ->
  reader_read (-1) (-1) false (mk_recoder (mk_flo c d 0 false) [] [] None) =
  (Ok t, mk_recoder (mk_flo c d (length d) false) [] [] None).
Proof.
  intros Ht. unfold reader_read, bind, get, ret.
  cbn [linebuffer stream flo_data Z.ltb Z.compare].
  rewrite reader_fill_eq.
  destruct d as [|x d'].
  - apply utf8_encode_nil_inv in Ht. subst t. reflexivity.
  - pose proof (utf8_decode_encode _ _ false Ht) as Hd.
    cbn -[utf8_decode Z.of_nat reader_fill length skipn].
    cbn [skipn]. unfold bind at 1. rewrite Hd.
    cbn -[utf8_decode Z.of_nat reader_fill skipn].
    rewrite reader_fill_eq.
    cbn -[utf8_decode Z.of_nat reader_fill length skipn].
    cbn [skipn]. rewrite !skipn_all.
    cbn. rewrite Nat.add_0_r. reflexivity.
Qed.

Lemma recoder_read_all c d t :
  utf8_encode t = Some d ->
  recoder_read (-1) (mk_recoder (mk_flo c d 0 false) [] [] None) =
  (Ok d, mk_recoder (mk_flo c d (length d) false) [] [] None).
Proof.
  intros Ht. unfold recoder_read, bind. rewrite (reader_read_all _ _ _ Ht).
  unfold str_encode. now rewrite Ht.
Qed.

Lemma recoder_write_at_end c d t e bb cb lb :
  utf8_encode t = Some e ->
  recoder_write e (mk_recoder (mk_flo c d (length d) false) bb cb lb) =
  (Ok tt, mk_recoder (mk_flo c (d ++ e) (length (d ++ e)) false) bb cb lb).
Proof.
  intros Ht. unfold recoder_write, bind, bytes_decode, str_encode.
  rewrite (utf8_decode_encode _ _ true Ht). unfold ret at 1. rewrite Ht. unfold ret at 1.
  unfold on_stream. cbn [stream bytebuffer charbuffer linebuffer].
  now rewrite flo_write_at_end.
Qed.

Lemma recoder_write_fresh t e :
  utf8_encode t = Some e ->
  recoder_write e (EncodedFile TemporaryFile) =
  (Ok tt, mk_recoder (mk_flo cls_TemporaryFile e (length e) false) [] [] None).
Proof. exact (recoder_write_at_end cls_TemporaryFile [] t e [] [] None). Qed.

(** ** A reader that holds a text *)

Lemma length_unread r : (length (unread r) <= length (flo_data (stream r)))%nat.
Proof. unfold unread. rewrite length_skipn. lia. Qed.

Lemma reader_fill_step fuel fl r R n :
  reader_holds r R ->
  (exists r',
     reader_fill fuel n n fl r = (Ok tt, r') /\
     reader_holds r' R /\
     flo_data (stream r') = flo_data (stream r) /\
     flo_cls (stream r') = flo_cls (stream r) /\
     ((0 <= n <= Z.of_nat (length (charbuffer r'))) \/ charbuffer r' = R)) \/
  (exists r2,
     reader_holds r2 R /\
     flo_data (stream r2) = flo_data (stream r) /\
     flo_cls (stream r2) = flo_cls (stream r) /\
     (length (unread r2) < length (unread r))%nat /\
     reader_fill fuel n n fl r =
     match fuel with
     | O => (Raise OutOfFuel, r2)
     | S fuel' => reader_fill fuel' n n fl r2
     end).
Proof.
  destruct r as [[c E p cl] bb cb lb]. intros (Hopen & Hlb & R2 & HR & HR2).
  unfold reader_holds, unread in *.
  cbn [stream flo_closed linebuffer charbuffer bytebuffer flo_pos flo_data flo_cls] in *.
  subst cl lb.
  remember (reader_fill fuel n n fl
              (mk_recoder (mk_flo c E p false) bb cb None)) as run eqn:Hrun.
  rewrite reader_fill_eq in Hrun. cbn [charbuffer] in Hrun.
  destruct ((0 <=? n) && (n <=? Z.of_nat (length cb))) eqn:Htop.
  { left. eexists. split; [exact Hrun|].
    split; [repeat split; exists R2; now split|].
    split; [reflexivity|]. split; [reflexivity|]. left. cbn [charbuffer].
    apply andb_true_iff in Htop. rewrite !Z.leb_le in Htop. exact Htop. }
  assert (Hn : ~ (0 <= n <= 0))
    by (apply andb_false_iff in Htop; rewrite Z.leb_gt, Z.leb_gt in Htop; lia).
  unfold bind at 1 in Hrun. unfold on_stream at 1 in Hrun. cbn [stream] in Hrun.
  rewrite flo_read_chunk in Hrun.
  cbn [stream bytebuffer charbuffer linebuffer] in Hrun.
  unfold bind at 1 in Hrun. unfold get at 1 in Hrun.
  cbn [stream bytebuffer charbuffer linebuffer] in Hrun.
  pose proof (chunk_split n (skipn p E)) as Hsplit.
  remember (chunk n (skipn p E)) as newdata eqn:Hnew.
  assert (Htail : skipn (p + length newdata) E
                  = skipn (length newdata) (skipn p E))
    by (rewrite skipn_skipn; f_equal; lia).
  rewrite Hsplit, app_assoc in HR2.
  destruct (utf8_scan_incremental R2 (bb ++ newdata) _ 0%nat [] HR2)
    as (A & B & eA & rest & -> & HA & Hdata & HB & Hscan & Hall).
  cbn [rev app Nat.add] in Hscan.
  destruct (bb ++ newdata) as [|x data] eqn:Edata.
  { left. apply app_eq_nil in Edata. destruct Edata as [-> ->].
    pose proof (chunk_nil n _ Hn (eq_sym Hnew)) as Hrest.
    symmetry in Hdata. apply app_eq_nil in Hdata. destruct Hdata as [-> ->].
    cbn [length skipn app] in *.
    rewrite Hrest in HB.
    pose proof (utf8_encode_nil_inv _ HA) as ->.
    pose proof (utf8_encode_nil_inv _ HB) as ->.
    eexists. split; [exact Hrun|].
    split. { repeat split. exists []. cbn [stream flo_closed linebuffer charbuffer bytebuffer flo_pos flo_data flo_cls].
             rewrite Nat.add_0_r, Hrest. now split. }
    split; [reflexivity|]. split; [reflexivity|]. right.
    cbn [stream flo_closed linebuffer charbuffer bytebuffer flo_pos flo_data flo_cls]. now rewrite !app_nil_r in HR. }
  unfold utf8_decode in Hrun. rewrite Hscan in Hrun.
  unfold bind at 1 in Hrun. unfold ret at 1 in Hrun.
  unfold bind at 1 in Hrun. unfold set_buffers at 1 in Hrun.
  cbn [stream bytebuffer charbuffer linebuffer] in Hrun.
  rewrite Hdata, skipn_app, skipn_all, Nat.sub_diag in Hrun.
  cbn [skipn app] in Hrun.
  destruct newdata as [|y newdata'] eqn:Enew.
  { left. pose proof (chunk_nil n _ Hn (eq_sym Hnew)) as Hrest.
    cbn [length skipn] in *. rewrite Hrest in *.
    specialize (Hall eq_refl). subst B.
    eexists. split; [exact Hrun|].
    split. { repeat split. exists []. cbn [stream flo_closed linebuffer charbuffer bytebuffer flo_pos flo_data flo_cls].
             rewrite Nat.add_0_r, Hrest. rewrite app_nil_r in HB.
             rewrite !app_nil_r in *. now split. }
    split; [reflexivity|]. split; [reflexivity|]. right.
    cbn [stream flo_closed linebuffer charbuffer bytebuffer flo_pos flo_data flo_cls]. now rewrite app_nil_r in HR. }
  right.
  exists (mk_recoder (mk_flo c E (p + length (y :: newdata')) false)
                     rest (cb ++ A) None).
  split; [|split; [|split; [|split; [|rewrite Hrun; destruct fuel; reflexivity]]]].
  - repeat split. exists B. cbn [stream flo_closed linebuffer charbuffer bytebuffer flo_pos flo_data flo_cls].
    split; [now rewrite <- app_assoc|]. now rewrite Htail.
  - reflexivity.
  - reflexivity.
  - cbn [stream flo_pos flo_data]. rewrite Htail.
    rewrite Hsplit at 2. rewrite length_app. cbn [length]. lia.
Qed.

Lemma reader_fill_holds fl : forall fuel r R n,
  reader_holds r R ->
  (length (unread r) <= fuel)%nat ->
  exists r',
    reader_fill fuel n n fl r = (Ok tt, r') /\
    reader_holds r' R /\
    flo_data (stream r') = flo_data (stream r) /\
    flo_cls (stream r') = flo_cls (stream r) /\
    ((0 <= n <= Z.of_nat (length (charbuffer r'))) \/ charbuffer r' = R).
Proof.
  induction fuel as [|fuel IH]; intros r R n Hr Hfuel.
  - destruct (reader_fill_step 0 fl r R n Hr)
      as [Hdone | (r2 & Hr2 & Hd & Hc & Hlt & Hrun)]; [exact Hdone | lia].
  - destruct (reader_fill_step (S fuel) fl r R n Hr)
      as [Hdone | (r2 & Hr2 & Hd & Hc & Hlt & Hrun)]; [exact Hdone |].
    destruct (IH r2 R n Hr2 ltac:(lia)) as (r' & Hrun' & Hh & Hd' & Hc' & Hdone).
    exists r'. split; [now rewrite Hrun|]. split; [exact Hh|].
    split; [congruence|]. split; [congruence | exact Hdone].
Qed.

(** [StreamReader.read(n)] on a reader that holds [R]: the next [n]
    characters of [R], all of [R] when [n] is negative. *)
Lemma reader_read_holds r R n c fl :
  c < 0 \/ c = n ->
  reader_holds r R ->
  exists r',
    reader_read n c fl r =
      (Ok (if n <? 0 then R else firstn (Z.to_nat n) R), r') /\
    reader_holds r' (if n <? 0 then [] else skipn (Z.to_nat n) R) /\
    flo_data (stream r') = flo_data (stream r) /\
    flo_cls (stream r') = flo_cls (stream r).
Proof.
  intros Hc Hr.
  destruct (reader_fill_holds fl (length (flo_data (stream r))) r R n Hr
              (length_unread r))
    as (r' & Hrun & (Hopen & Hlb & R2 & HR & HR2) & Hd & Hc' & Hdone).
  unfold reader_read. unfold bind at 1. unfold get at 1.
  destruct Hr as (_ & Hlb0 & _). rewrite Hlb0.
  unfold bind at 1. unfold ret at 1.
  replace (if c <? 0 then n else c) with n
    by (destruct (Z.ltb_spec c 0); [reflexivity | lia]).
  unfold bind at 1. rewrite Hrun.
  unfold bind at 1. unfold get at 1.
  destruct r' as [f' bb' cb' lb'].
  cbn [stream flo_closed linebuffer charbuffer bytebuffer] in *. subst lb'.
  destruct (Z.ltb_spec n 0) as [Hn|Hn].
  - destruct Hdone as [Hdone|Hdone]; [lia|]. subst cb'.
    apply app_eq_self_l in HR. subst R2.
    eexists. split; [reflexivity|].
    split; [|split; assumption].
    repeat split; try assumption. exists []. split; [reflexivity|].
    cbn [stream bytebuffer]. exact HR2.
  - eexists. split; [|split; [|split]].
    + unfold bind, set_buffers, ret. cbn [bytebuffer linebuffer charbuffer stream].
      f_equal. f_equal.
      destruct Hdone as [Hdone|Hdone].
      * subst R. rewrite firstn_app.
        replace (Z.to_nat n - length cb')%nat with 0%nat by lia.
        cbn [firstn]. now rewrite app_nil_r.
      * now subst cb'.
    + cbn [snd]. repeat split; try assumption.
      exists R2. cbn [charbuffer bytebuffer stream]. split; [|exact HR2].
      destruct Hdone as [Hdone|Hdone].
      * subst R. rewrite skipn_app.
        replace (Z.to_nat n - length cb')%nat with 0%nat by lia. reflexivity.
      * subst cb'. apply app_eq_self_l in HR. subst R2. now rewrite app_nil_r.
    + exact Hd.
    + exact Hc'.
Qed.

(** A reader that keeps lines puts them back together first. *)
Lemma reader_holds_sound r R : reader_holds r R -> reader_sound r R.
Proof.
  intros (Ho & Hl & R2 & HR & HR2). split; [exact Ho|]. split.
  - unfold lines_kept. now rewrite Hl.
  - exists R2. unfold kept_chars. rewrite Hl. now split.
Qed.

Lemma reader_read_merged size chars fl r :
  reader_read size chars fl r = reader_read size chars fl (merged r).
Proof.
  destruct r as [f bb cb [[|l ls]|]]; reflexivity.
Qed.

Lemma merged_holds r R : reader_sound r R -> reader_holds (merged r) R.
Proof.
  destruct r as [f bb cb [[|l ls]|]]; intros (Ho & Hl & R2 & HR & HR2);
    unfold merged, reader_holds, lines_kept, kept_chars, unread in *;
    cbn [stream bytebuffer charbuffer linebuffer length] in *.
  - destruct Hl as [Hl _]. lia.
  - repeat split; try assumption. exists R2. now split.
  - repeat split; try assumption. exists R2. now split.
Qed.

Lemma reader_read_sound r R n c fl :
  c < 0 \/ c = n ->
  reader_sound r R ->
  exists r',
    reader_read n c fl r =
      (Ok (if n <? 0 then R else firstn (Z.to_nat n) R), r') /\
    reader_holds r' (if n <? 0 then [] else skipn (Z.to_nat n) R) /\
    flo_data (stream r') = flo_data (stream r) /\
    flo_cls (stream r') = flo_cls (stream r).
Proof.
  intros Hc Hr. rewrite reader_read_merged.
  destruct (reader_read_holds _ R n c fl Hc (merged_holds r R Hr))
    as (r' & Hrun & Hh & Hd & Hcl).
  exists r'. split; [exact Hrun|]. split; [exact Hh|].
  destruct r as [f bb cb [[|l ls]|]]; now split.
Qed.

(** ** Termination of the reading loops *)

Lemma reader_fill_bounded : forall fuel size chars fl r,
  (length (unread r) <= fuel)%nat ->
  fill_bounded r (reader_fill fuel size chars fl r).
Proof.
  induction fuel as [|fuel IH]; intros size chars fl [[c E p cl] bb cb lb] Hfuel.
  all: unfold unread in Hfuel; cbn [stream flo_pos flo_data] in Hfuel.
  all: rewrite reader_fill_eq; cbn [charbuffer].
  all: destruct ((0 <=? chars) && (chars <=? Z.of_nat (length cb)));
    [split; [reflexivity | apply Nat.le_refl] |].
  all: unfold bind at 1; unfold on_stream at 1; cbn [stream].
  all: destruct cl; [rewrite flo_read_closed; cbn; discriminate |].
  all: rewrite flo_read_chunk;
    cbn [stream bytebuffer charbuffer linebuffer];
    unfold bind at 1; unfold get at 1;
    cbn [stream bytebuffer charbuffer linebuffer].
  all: pose proof (chunk_split size (skipn p E)) as Hsplit;
    remember (chunk size (skipn p E)) as newdata eqn:Hnew;
    assert (Htail : length (skipn (p + length newdata) E)
                    = (length (skipn p E) - length newdata)%nat)
      by (rewrite !length_skipn; lia);
    assert (Hle : (length newdata <= length (skipn p E))%nat)
      by (rewrite Hsplit, length_app; lia).
  all: destruct (bb ++ newdata) as [|x data] eqn:Edata;
    [ apply app_eq_nil in Edata; destruct Edata as [-> ->];
      unfold fill_bounded, buffered, unread, ret;
      cbn [stream flo_pos flo_data bytebuffer charbuffer linebuffer length] in *;
      split; [reflexivity | lia] |].
  all: assert (Hdata : length (x :: data) = (length bb + length newdata)%nat)
    by (rewrite <- Edata; apply length_app).
  all: unfold bind at 1.
  all: match goal with
    | |- context [match utf8_decode false ?d with _ => _ end ?s] =>
        assert (Hdec : match (match utf8_decode false d with
                       | Decoded newchars n => ret (newchars, n)
                       | DecodeError start =>
                           if fl
                           then match utf8_decode false (firstn start d) with
                                | Decoded newchars n =>
                                    if (length (str_splitlines true newchars) <=? 1)%nat
                                    then raise (UnicodeDecodeError start)
                                    else ret (newchars, n)
                                | DecodeError start' =>
                                    raise (UnicodeDecodeError start')
                                end
                           else raise (UnicodeDecodeError start)
                       end s) with
                 | (Ok (newchars, n), s') =>
                     s' = s /\ (length newchars <= n <= length d)%nat
                 | (Raise e, _) => e <> OutOfFuel
                 end)
    end.
  1,3: destruct (utf8_decode false (x :: data)) as [t n|start] eqn:E1;
    [ split; [reflexivity | exact (utf8_decode_lengths _ _ _ _ E1)] |];
    destruct fl; [|cbn; discriminate];
    destruct (utf8_decode false (firstn start (x :: data))) as [t n|start'] eqn:E2;
    [|cbn; discriminate];
    destruct (length (str_splitlines true t) <=? 1)%nat; [cbn; discriminate|];
    split; [reflexivity|];
    pose proof (utf8_decode_lengths _ _ _ _ E2) as H2;
    rewrite length_firstn in H2; cbn [length] in *; lia.
  all: match type of Hdec with
    | match ?m with _ => _ end => destruct m as [[[newchars n]|e] s']
    end; [destruct Hdec as [-> Hn] | exact Hdec].
  all: unfold bind at 1; unfold set_buffers at 1;
    cbn [stream bytebuffer charbuffer linebuffer].
  all: destruct newdata as [|y newdata'];
    [ unfold fill_bounded, buffered, unread, ret;
      cbn [stream flo_pos flo_data bytebuffer charbuffer linebuffer];
      split; [reflexivity|];
      rewrite !length_skipn, ?length_app in *; cbn [length] in *; lia |].
  - cbn [length] in *. lia.
  - match goal with
    | |- fill_bounded ?r0 (reader_fill fuel size chars fl ?r2) =>
        pose proof (IH size chars fl r2) as Hrec
    end.
    unfold unread in Hrec. cbn [stream flo_pos flo_data] in Hrec.
    assert (Hf : (length (skipn (p + length (y :: newdata')) E) <= fuel)%nat).
    { rewrite Htail. cbn [length] in *. lia. }
    specialize (Hrec Hf).
    destruct (reader_fill fuel size chars fl _) as [[u|e] r']; [|exact Hrec].
    destruct Hrec as [Hl Hb]. split; [exact Hl|].
    unfold buffered, unread in *.
    cbn [stream flo_pos flo_data bytebuffer charbuffer linebuffer] in *.
    rewrite !length_skipn, ?length_app in *. cbn [length] in *. lia.
Qed.

Lemma reader_read_bounded size chars fl r :
  read_bounded r (reader_read size chars fl r).
Proof.
  unfold reader_read. unfold bind at 1. unfold get at 1.
  set (r0 := match linebuffer r with
             | Some (l :: ls) =>
                 mk_recoder (stream r) (bytebuffer r) (concat (l :: ls)) None
             | _ => r
             end).
  assert (H0 : (match linebuffer r with
                | Some (l :: ls) =>
                    set_buffers (bytebuffer r) (concat (l :: ls)) None
                | _ => ret tt
                end) r = (Ok tt, r0))
    by (subst r0; destruct (linebuffer r) as [[|l ls]|]; reflexivity).
  assert (Hb0 : buffered r0 = backlog r /\ no_lines r0 /\
                stream r0 = stream r).
  { subst r0. unfold buffered, backlog, kept_chars, no_lines, unread.
    destruct r as [f bb cb [[|l ls]|]]; cbn; repeat split. }
  destruct Hb0 as (Hb0 & Hn0 & Hs0).
  unfold bind at 1. rewrite H0.
  unfold bind at 1.
  pose proof (reader_fill_bounded (length (flo_data (stream r))) size
                (if chars <? 0 then size else chars) fl r0) as Hfill.
  rewrite <- Hs0 in Hfill at 1. specialize (Hfill (length_unread r0)).
  destruct (reader_fill _ _ _ _ r0) as [[u|e] r1]; [|exact Hfill].
  destruct Hfill as [Hl Hb].
  unfold bind at 1. unfold get at 1.
  assert (Hn1 : no_lines r1) by (unfold no_lines in *; now rewrite Hl).
  assert (Hk : kept_chars r1 = charbuffer r1).
  { unfold kept_chars, no_lines in *. now destruct (linebuffer r1) as [[|? ?]|]. }
  destruct ((if chars <? 0 then size else chars) <? 0);
    unfold bind, set_buffers, ret, read_bounded, backlog, kept_chars,
      no_lines, buffered in *;
    change (unread (mk_recoder (stream r1) (bytebuffer r1) ?x (linebuffer r1)))
      with (unread r1);
    cbn [stream bytebuffer charbuffer linebuffer];
    (split; [exact Hn1|]);
    destruct (linebuffer r1) as [[|? ?]|]; try contradiction;
    cbn [length]; rewrite ?length_firstn, ?length_skipn; lia.
Qed.

Lemma reader_read_fuel size chars fl r :
  not_out_of_fuel (outcome (reader_read size chars fl) r).
Proof.
  pose proof (reader_read_bounded size chars fl r) as H. unfold outcome.
  destruct (reader_read size chars fl r) as [[data|e] r']; [exact I|].
  destruct e; cbn in *; first [exact I | congruence].
Qed.

Lemma reader_readline_loop_eq fuel size readsize line :
  reader_readline_loop fuel size readsize line =
  (data <- reader_read readsize (-1) true ;;
   data <- (if nonempty data && ends_with_CR data
            then extra <- reader_read 1 1 false ;; ret (data ++ extra)
            else ret data) ;;
   let line := line ++ data in
   let again : M StreamRecoder text :=
     if negb (nonempty data) || (match size with Some _ => true | None => false end)
     then ret line
     else match fuel with
          | O => raise OutOfFuel
          | S fuel' =>
              reader_readline_loop fuel' size
                (if readsize <? 8000 then readsize * 2 else readsize) line
          end in
   match str_splitlines true line with
   | [] => again
   | [line0withend] =>
       let line0withoutend := hd [] (str_splitlines false line0withend) in
       if negb (text_eqb line0withend line0withoutend)
       then ret line0withend
       else again
   | line0 :: [rest] =>
       r <- get ;;
       set_buffers (bytebuffer r) (rest ++ charbuffer r) (linebuffer r) ;;;
       ret line0
   | line0 :: lines =>
       r <- get ;;
       set_buffers (bytebuffer r) [] (Some (append_to_last lines (charbuffer r))) ;;;
       ret line0
   end).
Proof. destruct fuel; reflexivity. Qed.

Lemma reader_readline_loop_fuel : forall fuel size readsize line r,
  no_lines r -> (backlog r <= fuel)%nat ->
  not_out_of_fuel (outcome (reader_readline_loop fuel size readsize line) r).
Proof.
  induction fuel as [|fuel IH]; intros size readsize line r Hnl Hfuel.
  all: rewrite reader_readline_loop_eq; unfold outcome; unfold bind at 1.
  all: pose proof (reader_read_bounded readsize (-1) true r) as H1;
    destruct (reader_read readsize (-1) true r) as [[data|e] r1];
    [destruct H1 as [Hn1 Hb1] | destruct e; cbn in *; first [exact I | congruence]].
  all: unfold bind at 1.
  all: assert (H2 : match (if nonempty data && ends_with_CR data
                     then extra <- reader_read 1 1 false ;; ret (data ++ extra)
                     else ret data) r1 with
               | (Ok data', r2) =>
                   no_lines r2 /\ (length data' + backlog r2 <= backlog r)%nat /\
                   (nonempty data' = false -> data' = [])
               | (Raise e, _) => e <> OutOfFuel
               end).
  1,3: destruct (nonempty data && ends_with_CR data);
    [ unfold bind;
      pose proof (reader_read_bounded 1 1 false r1) as Hx;
      destruct (reader_read 1 1 false r1) as [[extra|e] r2]; [|exact Hx];
      destruct Hx as [Hn2 Hb2]; cbn [ret];
      split; [exact Hn2|]; split; [rewrite length_app; lia|];
      destruct (data ++ extra); [reflexivity | discriminate]
    | cbn [ret]; split; [exact Hn1|]; split; [lia|];
      destruct data; [reflexivity | discriminate] ].
  all: match type of H2 with
    | match ?m with _ => _ end => destruct m as [[data'|e] r2]
    end; [destruct H2 as (Hn2 & Hb2 & Hne) | destruct e; cbn in *; first [exact I | congruence]].
  all: cbv zeta.
  all: match goal with
    | |- context [match str_splitlines true ?l with _ => _ end] =>
        destruct (str_splitlines true l) as [|l0 [|l1 [|l2 ls]]]
    end.
  all: try (cbn; exact I).
  all: try match goal with
    | |- context [if negb (text_eqb ?a ?b) then _ else _] =>
        destruct (negb (text_eqb a b)); [cbn; exact I|]
    end.
  all: destruct (nonempty data') eqn:Ed; cbn [negb orb];
    [|cbn; exact I].
  all: destruct size as [sz|]; [cbn; exact I|].
  1,2: destruct data'; [discriminate | cbn [length] in *; lia].
  all: apply IH; [exact Hn2 | destruct data'; [discriminate | cbn [length] in *; lia]].
Qed.

Lemma reader_readline_fuel size r :
  not_out_of_fuel (outcome (reader_readline size) r).
Proof.
  unfold reader_readline, outcome. unfold bind at 1. unfold get at 1.
  destruct (linebuffer r) as [[|l ls]|] eqn:El.
  - apply reader_readline_loop_fuel.
    + unfold no_lines. now rewrite El.
    + unfold backlog, kept_chars. rewrite El.
      pose proof (length_unread r). lia.
  - unfold bind. destruct ls as [|c [|? ?]]; cbn; exact I.
  - apply reader_readline_loop_fuel.
    + unfold no_lines. now rewrite El.
    + unfold backlog, kept_chars. rewrite El.
      pose proof (length_unread r). lia.
Qed.

Lemma never_out_of_fuel_bind {S A B} (m : M S A) (k : A -> M S B) :
  never_out_of_fuel m -> (forall a, never_out_of_fuel (k a)) ->
  never_out_of_fuel (bind m k).
Proof.
  intros Hm Hk s. specialize (Hm s). unfold outcome, bind in *.
  destruct (m s) as [[a|e] s']; [apply Hk | exact Hm].
Qed.

Lemma never_out_of_fuel_ret {S A} (a : A) : never_out_of_fuel (@ret S A a).
Proof. intros s. exact I. Qed.

Lemma never_out_of_fuel_text_buffer {A} (m : M StreamRecoder A) :
  never_out_of_fuel m ->
  never_out_of_fuel (on_buffer (S := SpooledStringIO.t) m).
Proof.
  intros Hm [ms [r|]]; unfold outcome, on_buffer, bind; cbn.
  - specialize (Hm r). unfold outcome in Hm. now destruct (m r) as [[a|e] r'].
  - specialize (Hm (EncodedFile BytesIO)). unfold outcome in Hm.
    now destruct (m (EncodedFile BytesIO)) as [[a|e] r'].
Qed.

Lemma never_out_of_fuel_str_encode {S} t : never_out_of_fuel (@str_encode S t).
Proof. intros s. unfold outcome, str_encode. now destruct (utf8_encode t). Qed.

Lemma never_out_of_fuel_bytes_decode {S} b :
  never_out_of_fuel (@bytes_decode S b).
Proof. intros s. unfold outcome, bytes_decode. now destruct (utf8_decode true b). Qed.

Lemma never_out_of_fuel_decode_all ls :
  never_out_of_fuel (SpooledStringIO.decode_all ls).
Proof.
  induction ls as [|x ls IH]; cbn [SpooledStringIO.decode_all].
  - apply never_out_of_fuel_ret.
  - apply never_out_of_fuel_bind; [apply never_out_of_fuel_bytes_decode|].
    intros t. apply never_out_of_fuel_bind; [exact IH|].
    intros ts. apply never_out_of_fuel_ret.
Qed.

(** The reading methods of a text stream never stop for lack of fuel:
    where they fail, they fail with an exception of Python. *)
Lemma text_reads_never_out_of_fuel (n : Z) (length : option Z) (sizehint : Z) :
  never_out_of_fuel (S := SpooledStringIO.t) (read n) /\
  never_out_of_fuel (S := SpooledStringIO.t) (readline length) /\
  never_out_of_fuel (S := SpooledStringIO.t) (readlines sizehint).
Proof.
  repeat split;
    cbn [read readline readlines SpooledStringIO.SpooledIOBase_t];
    unfold SpooledStringIO.read, SpooledStringIO.readline,
      SpooledStringIO.readlines.
  - apply never_out_of_fuel_bind.
    + apply never_out_of_fuel_text_buffer. unfold recoder_read.
      apply never_out_of_fuel_bind; [intros r; apply reader_read_fuel|].
      intros t. apply never_out_of_fuel_str_encode.
    + intros b. apply never_out_of_fuel_bind;
        [apply never_out_of_fuel_bytes_decode|].
      intros t. apply never_out_of_fuel_ret.
  - apply never_out_of_fuel_bind.
    + apply never_out_of_fuel_text_buffer. unfold recoder_readline.
      apply never_out_of_fuel_bind; [intros r; apply reader_readline_fuel|].
      intros t. apply never_out_of_fuel_str_encode.
    + intros b. apply never_out_of_fuel_bind;
        [apply never_out_of_fuel_bytes_decode|].
      intros t. apply never_out_of_fuel_ret.
  - apply never_out_of_fuel_bind.
    + apply never_out_of_fuel_text_buffer. unfold recoder_readlines.
      apply never_out_of_fuel_bind; [intros r; apply reader_read_fuel|].
      intros t. apply never_out_of_fuel_bind;
        [apply never_out_of_fuel_str_encode|].
      intros b. apply never_out_of_fuel_ret.
    + intros ls. apply never_out_of_fuel_decode_all.
Qed.

(** ** Reading a line *)

Lemma concat_splitlines_from brk : forall k l cur,
  (length l <= k)%nat ->
  concat (splitlines_from brk true cur l) = rev cur ++ l.
Proof.
  induction k as [|k IH]; intros [|c l'] cur Hk; cbn [length] in Hk; try lia.
  - cbn [splitlines_from]. destruct cur; cbn [concat]; now rewrite ?app_nil_r.
  - cbn [splitlines_from]. destruct cur; cbn [concat]; now rewrite ?app_nil_r.
  - cbn [splitlines_from]. destruct (brk c).
    + destruct l' as [|d l''].
      * cbn [concat rev]. now rewrite app_nil_r.
      * destruct ((c =? 13) && (d =? 10) && brk d); cbn [concat].
        -- rewrite IH by (cbn [length] in Hk; lia). cbn [rev app].
           now rewrite <- !app_assoc.
        -- rewrite IH by lia. cbn [rev app]. now rewrite <- !app_assoc.
    + rewrite IH by lia. cbn [rev]. now rewrite <- app_assoc.
Qed.

Lemma concat_str_splitlines t : concat (str_splitlines true t) = t.
Proof. exact (concat_splitlines_from _ (length t) t [] (Nat.le_refl _)). Qed.

Lemma splitlines_from_nonempty brk : forall k l cur,
  (length l <= k)%nat ->
  Forall (fun x => x <> []) (splitlines_from brk true cur l).
Proof.
  assert (Hrev : forall (c : Z) cur, rev (c :: cur) <> []).
  { intros c cur H. apply (f_equal (@length Z)) in H.
    rewrite length_rev in H. discriminate. }
  induction k as [|k IH]; intros [|c l'] cur Hk; cbn [length] in Hk; try lia.
  - cbn [splitlines_from]. destruct cur; constructor; [apply Hrev | constructor].
  - cbn [splitlines_from]. destruct cur; constructor; [apply Hrev | constructor].
  - cbn [splitlines_from]. destruct (brk c).
    + destruct l' as [|d l''].
      * constructor; [apply Hrev | constructor].
      * destruct ((c =? 13) && (d =? 10) && brk d); constructor;
          try apply Hrev; apply IH; cbn [length] in *; lia.
    + apply IH. lia.
Qed.

Lemma str_splitlines_nonempty t :
  Forall (fun x => x <> []) (str_splitlines true t).
Proof. exact (splitlines_from_nonempty _ (length t) t [] (Nat.le_refl _)). Qed.

Lemma concat_append_to_last : forall ls t,
  ls <> [] -> concat (append_to_last ls t) = concat ls ++ t.
Proof.
  induction ls as [|l ls IH]; intros t Hne; [congruence|].
  destruct ls as [|l' ls'].
  - cbn. now rewrite !app_nil_r.
  - change (append_to_last (l :: l' :: ls') t)
      with (l :: append_to_last (l' :: ls') t).
    cbn [concat]. rewrite IH by discriminate. cbn [concat].
    now rewrite <- !app_assoc.
Qed.

Lemma length_append_to_last : forall ls t,
  length (append_to_last ls t) = length ls.
Proof.
  induction ls as [|l ls IH]; intros t; [reflexivity|].
  destruct ls as [|l' ls']; [reflexivity|].
  change (append_to_last (l :: l' :: ls') t)
    with (l :: append_to_last (l' :: ls') t).
  cbn [length]. now rewrite IH.
Qed.

Lemma append_to_last_nonempty : forall ls t,
  Forall (fun x => x <> []) ls ->
  Forall (fun x : text => x <> []) (append_to_last ls t).
Proof.
  induction ls as [|l ls IH]; intros t H; [constructor|].
  inversion H as [|? ? Hl Hls]; subst.
  destruct ls as [|l' ls'].
  - cbn. constructor; [|constructor]. destruct l; [congruence | discriminate].
  - change (append_to_last (l :: l' :: ls') t)
      with (l :: append_to_last (l' :: ls') t).
    constructor; [exact Hl | now apply IH].
Qed.

Lemma kept_chars_lines f bb a b ls t :
  kept_chars (mk_recoder f bb [] (Some (append_to_last (a :: b :: ls) t)))
  = concat (a :: b :: ls) ++ t.
Proof. rewrite <- concat_append_to_last by discriminate. reflexivity. Qed.

Lemma chunk_of_text_nil (n : Z) (R : text) :
  n <> 0 -> (if n <? 0 then R else firstn (Z.to_nat n) R) = [] -> R = [].
Proof.
  intros Hn. destruct (Z.ltb_spec n 0) as [H|H]; [trivial|].
  destruct R as [|x R']; [reflexivity|].
  destruct (Z.to_nat n) as [|k] eqn:E; [lia | discriminate].
Qed.

Lemma chunk_of_text_split (n : Z) (R : text) :
  (if n <? 0 then R else firstn (Z.to_nat n) R)
  ++ (if n <? 0 then [] else skipn (Z.to_nat n) R) = R.
Proof. destruct (n <? 0); [apply app_nil_r | apply firstn_skipn]. Qed.

Lemma nonempty_false {A} (l : list A) : nonempty l = false -> l = [].
Proof. destruct l; [reflexivity | discriminate]. Qed.

Lemma nonempty_true {A} (l : list A) : nonempty l = true -> l <> [].
Proof. destruct l; [discriminate | discriminate]. Qed.

Lemma reader_readline_loop_sound : forall fuel size readsize line r R,
  reader_holds r R -> (backlog r <= fuel)%nat ->
  exists L r' R',
    reader_readline_loop fuel size readsize line r = (Ok L, r') /\
    line ++ R = L ++ R' /\
    reader_sound r' R' /\
    (line <> [] \/ (readsize <> 0 /\ R <> []) -> L <> []) /\
    flo_data (stream r') = flo_data (stream r) /\
    flo_cls (stream r') = flo_cls (stream r).
Proof.
  induction fuel as [fuel IH] using lt_wf_ind.
  intros size readsize line r R Hr Hfuel.
  rewrite reader_readline_loop_eq. unfold bind at 1.
  destruct (reader_read_holds r R readsize (-1) true
              (or_introl eq_refl) Hr) as (r1 & Hrun1 & Hr1 & Hd1 & Hc1).
  pose proof (reader_read_bounded readsize (-1) true r) as Hb1.
  rewrite Hrun1 in Hb1. destruct Hb1 as [_ Hb1]. rewrite Hrun1.
  pose proof (chunk_of_text_split readsize R) as Hsplit1.
  pose proof (chunk_of_text_nil readsize R) as Hnil1.
  set (data := if readsize <? 0 then R else firstn (Z.to_nat readsize) R) in *.
  set (R1 := if readsize <? 0 then [] else skipn (Z.to_nat readsize) R) in *.
  unfold bind at 1.
  assert (H2 : exists data' r2 R2',
             (if nonempty data && ends_with_CR data
              then extra <- reader_read 1 1 false ;; ret (data ++ extra)
              else ret data) r1 = (Ok data', r2) /\
             reader_holds r2 R2' /\ data' ++ R2' = R /\
             (length data' + backlog r2 <= backlog r)%nat /\
             (data' = [] -> data = []) /\
             flo_data (stream r2) = flo_data (stream r) /\
             flo_cls (stream r2) = flo_cls (stream r)).
  { destruct (nonempty data && ends_with_CR data).
    - destruct (reader_read_holds r1 R1 1 1 false
                  (or_intror eq_refl) Hr1) as (r2 & Hrun2 & Hr2 & Hd2 & Hc2).
      pose proof (reader_read_bounded 1 1 false r1) as Hb2.
      rewrite Hrun2 in Hb2. destruct Hb2 as [_ Hb2].
      unfold bind. rewrite Hrun2. unfold ret.
      exists (data ++ firstn 1 R1), r2, (skipn 1 R1).
      split; [reflexivity|]. split; [exact Hr2|].
      split; [rewrite <- app_assoc, firstn_skipn; exact Hsplit1|].
      split; [rewrite length_app; cbn [Z.ltb Z.compare] in Hb2;
              change (Z.to_nat 1) with 1%nat in Hb2; lia|].
      split; [intros H; now apply app_eq_nil in H|].
      split; congruence.
    - exists data, r1, R1. unfold ret.
      split; [reflexivity|]. split; [exact Hr1|]. split; [exact Hsplit1|].
      split; [lia|]. split; [trivial|]. now split. }
  destruct H2 as (data' & r2 & R2' & Hrun2 & Hr2 & Hsplit2 & Hb2 & Hnil2 & Hd2 & Hc2).
  rewrite Hrun2. cbv zeta.
  pose proof (concat_str_splitlines (line ++ data')) as Hcat.
  pose proof (str_splitlines_nonempty (line ++ data')) as Hne.
  assert (Hwhole : line ++ R = (line ++ data') ++ R2')
    by (rewrite <- app_assoc; now rewrite Hsplit2).
  match goal with
  | |- context [if negb (nonempty data') || ?b then ?x else ?y] =>
      pose (again := if negb (nonempty data') || b then x else y)
  end.
  assert (Hagain : exists L r' R',
             again r2 = (Ok L, r') /\
             line ++ R = L ++ R' /\
             reader_sound r' R' /\
             (line <> [] \/ (readsize <> 0 /\ R <> []) -> L <> []) /\
             flo_data (stream r') = flo_data (stream r) /\
             flo_cls (stream r') = flo_cls (stream r)).
  { subst again. destruct (nonempty data') eqn:En; cbn [negb orb].
    - apply nonempty_true in En.
      assert (Hline : line ++ data' <> [])
        by (intros H; apply app_eq_nil in H; tauto).
      destruct size as [sz|].
      + exists (line ++ data'), r2, R2'. unfold ret.
        split; [reflexivity|]. split; [exact Hwhole|].
        split; [now apply reader_holds_sound|]. split; [now intros _|].
        now split.
      + destruct fuel as [|fuel'].
        { destruct data'; [congruence | cbn [length] in Hb2; lia]. }
        destruct (IH fuel' ltac:(lia) None
                    (if readsize <? 8000 then readsize * 2 else readsize)
                    (line ++ data') r2 R2' Hr2)
          as (L & r' & R' & Hrun & Hw & Hs & Hp & Hd & Hc).
        { destruct data'; [congruence | cbn [length] in Hb2; lia]. }
        exists L, r', R'. split; [exact Hrun|].
        split; [now rewrite Hwhole|]. split; [exact Hs|].
        split; [intros _; apply Hp; now left|]. split; congruence.
    - apply nonempty_false in En. subst data'.
      exists (line ++ []), r2, R2'. unfold ret.
      split; [reflexivity|]. split; [exact Hwhole|].
      split; [now apply reader_holds_sound|].
      split; [|now split].
      intros [Hl | [Hrs HR]].
      + rewrite app_nil_r. exact Hl.
      + exfalso. apply HR. apply Hnil1; [exact Hrs | now apply Hnil2]. }
  destruct (str_splitlines true (line ++ data')) as [|l0 [|l1 [|l2 ls]]];
    cbv beta iota.
  - exact Hagain.
  - match goal with
    | |- context [if negb (text_eqb ?a ?b) then _ else _] =>
        destruct (negb (text_eqb a b)); [|exact Hagain]
    end.
    cbn [concat] in Hcat. rewrite app_nil_r in Hcat.
    exists l0, r2, R2'. unfold ret. split; [reflexivity|].
    split; [now rewrite Hwhole, Hcat|].
    split; [now apply reader_holds_sound|].
    split; [intros _; now inversion Hne|]. now split.
  - cbn [concat] in Hcat. rewrite app_nil_r in Hcat.
    destruct Hr2 as (Ho2 & Hl2 & X & HX & HX2).
    exists l0,
      (mk_recoder (stream r2) (bytebuffer r2) (l1 ++ charbuffer r2)
                  (linebuffer r2)),
      (l1 ++ R2').
    unfold bind, get, set_buffers, ret. split; [reflexivity|].
    split; [rewrite Hwhole, <- Hcat; now rewrite <- app_assoc|].
    split.
    { split; [exact Ho2|]. split.
      - unfold lines_kept. cbn [linebuffer]. now rewrite Hl2.
      - exists X. unfold kept_chars, unread. cbn [linebuffer charbuffer bytebuffer stream].
        rewrite Hl2. split; [rewrite HX; now rewrite <- app_assoc | exact HX2]. }
    split; [intros _; now inversion Hne|]. now split.
  - destruct Hr2 as (Ho2 & Hl2 & X & HX & HX2).
    exists l0,
      (mk_recoder (stream r2) (bytebuffer r2) []
         (Some (append_to_last (l1 :: l2 :: ls) (charbuffer r2)))),
      (concat (l1 :: l2 :: ls) ++ R2').
    unfold bind, get, set_buffers, ret. split; [reflexivity|].
    split.
    { rewrite Hwhole, <- Hcat.
      change (concat (l0 :: l1 :: l2 :: ls))
        with (l0 ++ concat (l1 :: l2 :: ls)).
      now rewrite <- app_assoc. }
    split.
    { split; [exact Ho2|]. split.
      - unfold lines_kept. cbn [linebuffer charbuffer].
        split; [rewrite length_append_to_last; cbn [length]; lia|].
        split; [reflexivity|].
        apply append_to_last_nonempty. now inversion Hne.
      - exists X. rewrite kept_chars_lines.
        unfold unread. cbn [bytebuffer stream].
        split; [rewrite HX; now rewrite <- app_assoc | exact HX2]. }
    split; [intros _; now inversion Hne|]. now split.
Qed.

(** [StreamReader.readline] on a sound reader: it returns a piece [L] of
    the text held, not empty unless the text is, and the reader then
    holds the rest. *)
Lemma reader_readline_sound size r R :
  reader_sound r R ->
  exists L r' R',
    reader_readline size r = (Ok L, r') /\
    R = L ++ R' /\
    reader_sound r' R' /\
    (R <> [] -> L <> []) /\
    flo_data (stream r') = flo_data (stream r) /\
    flo_cls (stream r') = flo_cls (stream r).
Proof.
  intros Hs. unfold reader_readline. unfold bind at 1. unfold get at 1.
  destruct (linebuffer r) as [ls|] eqn:El.
  - destruct Hs as (Ho & Hk & R2 & HR & HR2).
    unfold lines_kept in Hk. rewrite El in Hk. destruct Hk as (Hlen & Hcb & Hne).
    unfold kept_chars in HR. rewrite El in HR.
    destruct ls as [|line [|c rest]]; cbn [length] in Hlen; try lia.
    pose proof (Forall_inv Hne) as Hline.
    pose proof (Forall_inv_tail Hne) as Hne'.
    cbn [concat] in HR. rewrite <- app_assoc in HR.
    destruct rest as [|d rest'].
    + exists line, (mk_recoder (stream r) (bytebuffer r) c None), (c ++ R2).
      unfold bind, set_buffers, ret. split; [reflexivity|].
      split; [now rewrite HR, app_nil_r|]. split.
      { split; [exact Ho|]. split; [exact I|]. exists R2. now split. }
      split; [now intros _|]. now split.
    + exists line,
        (mk_recoder (stream r) (bytebuffer r) (charbuffer r)
                    (Some (c :: d :: rest'))),
        (concat (c :: d :: rest') ++ R2).
      unfold bind, set_buffers, ret. split; [reflexivity|].
      split; [exact HR|]. split.
      { split; [exact Ho|]. split.
        - unfold lines_kept. cbn [linebuffer charbuffer length].
          split; [lia|]. now split.
        - exists R2. now split. }
      split; [now intros _|]. now split.
  - assert (Hh : reader_holds r R).
    { destruct Hs as (Ho & _ & R2 & HR & HR2). unfold kept_chars in HR.
      rewrite El in HR. split; [exact Ho|]. split; [exact El|].
      exists R2. now split. }
    set (readsize := match size with
                     | Some n => if n =? 0 then 72 else n
                     | None => 72
                     end).
    assert (Hrs : readsize <> 0).
    { subst readsize. destruct size as [n|]; [|lia].
      destruct (Z.eqb_spec n 0); lia. }
    destruct (reader_readline_loop_sound
                (length (charbuffer r) + length (bytebuffer r)
                 + length (flo_data (stream r)))
                size readsize [] r R Hh)
      as (L & r' & R' & Hrun & Hw & Hs' & Hp & Hd & Hc).
    { unfold backlog, kept_chars. rewrite El.
      pose proof (length_unread r). lia. }
    exists L, r', R'. split; [exact Hrun|]. split; [exact Hw|].
    split; [exact Hs'|]. split; [|now split].
    intros HR. apply Hp. right. now split.
Qed.

(** ** Lines of bytes and lines of text *)

Lemma utf8_encode_char_ascii c e :
  utf8_encode_char c = Some e ->
  (c < 0x80 /\ e = [c]) \/
  (0x80 <= c /\ e <> [] /\ Forall (fun b => 0x80 <= b) e).
Proof.
  unfold utf8_encode_char. destruct (negb (is_scalar c)); [discriminate|].
  destruct (Z.ltb_spec c 0x80) as [H1|H1].
  { intros H. apply Some_inj in H. now left. }
  right. split; [exact H1|].
  destruct (c <? 0x800); [|destruct (c <? 0x10000)];
    apply Some_inj in H; subst e; (split; [discriminate|]);
    repeat constructor; div_mod_lia.
Qed.

Lemma utf8_encode_cons c R e :
  utf8_encode (c :: R) = Some e ->
  exists ec e', utf8_encode_char c = Some ec /\ utf8_encode R = Some e' /\
                e = ec ++ e'.
Proof.
  cbn [utf8_encode].
  destruct (utf8_encode_char c) as [ec|]; [|discriminate].
  destruct (utf8_encode R) as [e'|]; [|discriminate].
  intros H. apply Some_inj in H. now exists ec, e'.
Qed.

Lemma utf8_encode_snoc t c e ec :
  utf8_encode (rev t) = Some (rev e) -> utf8_encode_char c = Some ec ->
  utf8_encode (rev (c :: t)) = Some (rev (rev ec ++ e)).
Proof.
  intros Ht Hc. cbn [rev]. rewrite utf8_encode_app, Ht. cbn [utf8_encode].
  rewrite Hc, app_nil_r, rev_app_distr, rev_involutive. reflexivity.
Qed.

Lemma splitlines_from_run brk keepends : forall run cur l,
  Forall (fun b => brk b = false) run ->
  splitlines_from brk keepends cur (run ++ l)
  = splitlines_from brk keepends (rev run ++ cur) l.
Proof.
  induction run as [|b run IH]; intros cur l H; [reflexivity|].
  pose proof (Forall_inv H) as Hb. pose proof (Forall_inv_tail H) as Hrun.
  cbn [app splitlines_from]. rewrite Hb, IH by exact Hrun.
  cbn [rev]. now rewrite <- app_assoc.
Qed.

Lemma is_bytes_linebreak_high b : 0x80 <= b -> is_bytes_linebreak b = false.
Proof. intros H. unfold is_bytes_linebreak. run_tests. reflexivity. Qed.

(** The first byte of an encoded text is a line feed exactly when its
    first character is. *)
Lemma utf8_encode_head d R e :
  utf8_encode (d :: R) = Some e ->
  exists x e', e = x :: e' /\ (x =? 10) = (d =? 10) /\
    is_bytes_linebreak x = is_bytes_linebreak d /\
    ((d =? 10) = true -> utf8_encode R = Some e').
Proof.
  intros H. destruct (utf8_encode_cons _ _ _ H) as (ec & e' & Hc & HR & ->).
  destruct (utf8_encode_char_ascii _ _ Hc) as [[Hd ->] | (Hd & Hne & Hall)].
  - exists d, e'. now repeat split.
  - destruct ec as [|x ec']; [congruence|]. pose proof (Forall_inv Hall) as Hx.
    exists x, (ec' ++ e'). cbn beta in Hx. split; [reflexivity|].
    split; [run_tests; reflexivity|].
    split; [now rewrite !is_bytes_linebreak_high|].
    intros H10. apply Z.eqb_eq in H10. lia.
Qed.

Lemma splitlines_encode : forall k R e curb curt,
  (length R <= k)%nat ->
  utf8_encode R = Some e ->
  utf8_encode (rev curt) = Some (rev curb) ->
  Forall2 encodes
    (splitlines_from is_bytes_linebreak true curb e)
    (splitlines_from is_bytes_linebreak true curt R).
Proof.
  induction k as [|k IH]; intros [|c R'] e curb curt Hk HR Hcur;
    cbn [length] in Hk; try lia.
  1,2: cbn [utf8_encode] in HR; apply Some_inj in HR; subst e;
    cbn [splitlines_from];
    destruct curb as [|b curb], curt as [|a curt];
    [ constructor
    | apply utf8_encode_nil_inv in Hcur;
      apply (f_equal (@length Z)) in Hcur; rewrite length_rev in Hcur;
      discriminate
    | cbn [rev utf8_encode] in Hcur; apply Some_inj in Hcur;
      apply (f_equal (@length Z)) in Hcur;
      rewrite length_app in Hcur; cbn [length] in Hcur; lia
    | constructor; [exact Hcur | constructor] ].
  destruct (utf8_encode_cons _ _ _ HR) as (ec & e' & Hc & HR' & ->).
  assert (Hnil : utf8_encode (rev (@nil Z)) = Some (rev [])) by reflexivity.
  destruct (utf8_encode_char_ascii _ _ Hc) as [[Hlow ->] | (Hhigh & Hne & Hall)].
  - cbn [app splitlines_from].
    pose proof (utf8_encode_snoc curt c curb [c] Hcur Hc) as Hline.
    cbn [rev app] in Hline.
    destruct (is_bytes_linebreak c) eqn:Eb.
    + destruct R' as [|d R''].
      * cbn [utf8_encode] in HR'. apply Some_inj in HR'. subst e'.
        constructor; [exact Hline | constructor].
      * destruct (utf8_encode_head _ _ _ HR') as (x & e'' & -> & H10 & Hbx & Hrest).
        rewrite H10, Hbx.
        destruct ((c =? 13) && (d =? 10) && is_bytes_linebreak d) eqn:Ecr.
        -- apply andb_true_iff in Ecr. destruct Ecr as [Ecr _].
           apply andb_true_iff in Ecr. destruct Ecr as [_ Ed].
           pose proof (Hrest Ed) as HR''.
           assert (x = d)
             by (rewrite Ed in H10; apply Z.eqb_eq in H10, Ed; lia).
           subst x.
           assert (Hd : utf8_encode_char d = Some [d]).
           { apply Z.eqb_eq in Ed. subst d. reflexivity. }
           pose proof (utf8_encode_snoc (c :: curt) d (c :: curb) [d]
                         Hline Hd) as Hline2.
           constructor; [exact Hline2|].
           apply (IH R'' e'' [] []); [cbn [length] in Hk; lia | exact HR'' | exact Hnil].
        -- constructor; [exact Hline|].
           apply (IH (d :: R'') (x :: e'') [] []); [lia | exact HR' | exact Hnil].
    + apply (IH R' e' (c :: curb) (c :: curt)); [lia | exact HR' | exact Hline].
  - cbn [splitlines_from]. rewrite (is_bytes_linebreak_high c Hhigh).
    rewrite splitlines_from_run
      by (eapply Forall_impl; [|exact Hall]; intros b Hb;
          now apply is_bytes_linebreak_high).
    apply (IH R' e' (rev ec ++ curb) (c :: curt)); [lia | exact HR'|].
    exact (utf8_encode_snoc curt c curb ec Hcur Hc).
Qed.

Lemma bytes_splitlines_encode R e :
  utf8_encode R = Some e ->
  Forall2 encodes (bytes_splitlines true e)
          (splitlines_from is_bytes_linebreak true [] R).
Proof.
  intros H. exact (splitlines_encode (length R) R e [] [] (Nat.le_refl _) H eq_refl).
Qed.

Lemma decode_all_encodes bls tls :
  Forall2 encodes bls tls ->
  forall s : SpooledStringIO.t,
    SpooledStringIO.decode_all bls s = (Ok (map PyStr tls), s).
Proof.
  induction 1 as [|lb lt bls tls Hl _ IH]; intros s; [reflexivity|].
  cbn [SpooledStringIO.decode_all map]. unfold bind at 1.
  unfold bytes_decode. rewrite (utf8_decode_encode _ _ true Hl).
  unfold ret at 1. unfold bind at 1. rewrite IH. reflexivity.
Qed.

(** ** [SpooledStringIO]: rollover, getvalue and write *)

Lemma rollover_text_in_memory m d p bb cb lb :
  utf8_wellformed d ->
  rollover (SpooledStringIO.mk m (Some (mk_recoder (mk_flo cls_BytesIO d p false) bb cb lb))) =
  (Ok tt, SpooledStringIO.mk m (Some (mk_recoder (mk_flo cls_TemporaryFile d p false) [] [] None))).
Proof.
  intros [t Ht]. cbn [rollover SpooledStringIO.SpooledIOBase_t].
  unfold SpooledStringIO.rollover, SpooledStringIO._rolled. mred.
  rewrite recoder_seek_0. mred.
  rewrite (recoder_read_all _ _ _ Ht). mred.
  rewrite (recoder_write_fresh _ _ Ht). mred.
  rewrite recoder_seek_abs. reflexivity.
Qed.

Lemma getvalue_text_open m c d p bb cb lb t :
  utf8_encode t = Some d ->
  getvalue (SpooledStringIO.mk m (Some (mk_recoder (mk_flo c d p false) bb cb lb))) =
  (Ok (PyStr t), SpooledStringIO.mk m (Some (mk_recoder (mk_flo c d p false) [] [] None))).
Proof.
  intros Ht. unfold getvalue, tell, seek. mred.
  rewrite recoder_seek_0. mred.
  unfold SpooledStringIO.read. mred.
  rewrite (recoder_read_all _ _ _ Ht). mred.
  unfold bytes_decode. rewrite (utf8_decode_encode _ _ true Ht). mred.
  rewrite recoder_seek_abs. reflexivity.
Qed.

Lemma write_text_step m c d t e :
  utf8_wellformed d -> utf8_encode t = Some e ->
  write (PyStr t) (SpooledStringIO.mk m (Some (mk_recoder (mk_flo c d (length d) false) [] [] None))) =
  (Ok tt, SpooledStringIO.mk m (Some (mk_recoder (mk_flo
     (if m <=? Z.of_nat (length (d ++ e)) then cls_TemporaryFile else c)
     (d ++ e) (length (d ++ e)) false) [] [] None))).
Proof.
  intros [td Hd] He. cbn [write SpooledStringIO.SpooledIOBase_t].
  unfold SpooledStringIO.write, tell, str_encode. mred. rewrite He. mred.
  rewrite (recoder_write_at_end _ _ _ _ _ _ _ He). mred.
  destruct (m <=? _); [|reflexivity].
  destruct c; [|reflexivity].
  apply rollover_text_in_memory. exists (td ++ t).
  now rewrite utf8_encode_app, Hd, He.
Qed.

Lemma write_text_fresh m v :
  write v (SpooledStringIO.new m) =
  match v with
  | PyStr _ => write v (SpooledStringIO.mk m (Some (EncodedFile BytesIO)))
  | _ => write v (SpooledStringIO.new m)
  end.
Proof. destruct v; reflexivity. Qed.

Lemma seek_0_text_fresh m :
  seek 0 0 (SpooledStringIO.new m) =
  (Ok PyNone, SpooledStringIO.mk m (Some (EncodedFile BytesIO))).
Proof. reflexivity. Qed.

(** ** [SpooledBytesIO]: rollover, getvalue and write *)

Lemma rollover_bytes_in_memory m d p :
  rollover (SpooledBytesIO.mk m (Some (mk_flo cls_BytesIO d p false))) =
  (Ok tt, SpooledBytesIO.mk m (Some (mk_flo cls_TemporaryFile d p false))).
Proof.
  cbn [rollover SpooledBytesIO.SpooledIOBase_t].
  unfold SpooledBytesIO.rollover, SpooledBytesIO._rolled,
    SpooledBytesIO.on___buffer. mred.
  rewrite flo_seek_0. mred.
  rewrite flo_write_fresh. mred.
  rewrite flo_seek_abs. reflexivity.
Qed.

Lemma getvalue_bytes_open m c d p :
  getvalue (SpooledBytesIO.mk m (Some (mk_flo c d p false))) =
  (Ok (PyBytes d), SpooledBytesIO.mk m (Some (mk_flo c d p false))).
Proof.
  unfold getvalue, tell, seek. mred.
  rewrite flo_seek_0. mred.
  unfold SpooledBytesIO.read. mred.
  rewrite flo_seek_abs. reflexivity.
Qed.

Lemma write_bytes_step m c d w :
  write (PyBytes w)
    (SpooledBytesIO.mk m (Some (mk_flo c d (length d) false))) =
  (Ok tt, SpooledBytesIO.mk m (Some (mk_flo
     (if m <=? Z.of_nat (length (d ++ w)) then cls_TemporaryFile else c)
     (d ++ w) (length (d ++ w)) false))).
Proof.
  cbn [write SpooledBytesIO.SpooledIOBase_t].
  unfold SpooledBytesIO.write, tell. mred.
  rewrite flo_write_at_end. mred.
  destruct (m <=? _); [|reflexivity].
  destruct c; [apply rollover_bytes_in_memory | reflexivity].
Qed.

(** The first access creates the in-memory buffer, so a method sees a
    fresh stream as a stream with an empty [BytesIO]. *)
Lemma write_bytes_fresh m v :
  write v (SpooledBytesIO.new m) =
  match v with
  | PyBytes _ => write v (SpooledBytesIO.mk m (Some BytesIO))
  | _ => write v (SpooledBytesIO.new m)
  end.
Proof. destruct v; reflexivity. Qed.

(** ** Rollover *)

Lemma rollover_bytes_rolled m d p cl :
  rollover (SpooledBytesIO.mk m (Some (mk_flo cls_TemporaryFile d p cl))) =
  (Ok tt, SpooledBytesIO.mk m (Some (mk_flo cls_TemporaryFile d p cl))).
Proof. reflexivity. Qed.

Lemma rollover_text_rolled m d p cl bb cb lb :
  rollover (SpooledStringIO.mk m
              (Some (mk_recoder (mk_flo cls_TemporaryFile d p cl) bb cb lb))) =
  (Ok tt, SpooledStringIO.mk m
            (Some (mk_recoder (mk_flo cls_TemporaryFile d p cl) bb cb lb))).
Proof. reflexivity. Qed.

(** The shape of a stream on disk. *)
Lemma bytes_rolled_inv (s : SpooledBytesIO.t) :
  outcome _rolled s = Ok true ->
  exists m d p cl,
    s = SpooledBytesIO.mk m (Some (mk_flo cls_TemporaryFile d p cl)).
Proof.
  destruct s as [m [[[] d p cl]|]]; cbn; try discriminate. eauto.
Qed.

Lemma text_rolled_inv (s : SpooledStringIO.t) :
  outcome _rolled s = Ok true ->
  exists m d p cl bb cb lb,
    s = SpooledStringIO.mk m
          (Some (mk_recoder (mk_flo cls_TemporaryFile d p cl) bb cb lb)).
Proof.
  destruct s as [m [[[[] d p cl] bb cb lb]|]]; cbn; try discriminate.
  eauto 8.
Qed.

Lemma rollover_bytes_ok_rolled (s s' : SpooledBytesIO.t) :
  rollover s = (Ok tt, s') -> outcome _rolled s' = Ok true.
Proof.
  destruct s as [m [[[] d p []]|]]; try (intros [= <-]; reflexivity).
  rewrite rollover_bytes_in_memory. intros [= <-]. reflexivity.
Qed.

Lemma rollover_text_ok_rolled (s s' : SpooledStringIO.t) :
  rollover s = (Ok tt, s') -> outcome _rolled s' = Ok true.
Proof.
  destruct s as [m [[[[] d p []] bb cb lb]|]];
    try (intros [= <-]; reflexivity).
  cbn [rollover SpooledStringIO.SpooledIOBase_t].
  unfold SpooledStringIO.rollover, SpooledStringIO._rolled. mred.
  rewrite recoder_seek_0. mred.
  match goal with
  | |- context [recoder_read ?a ?b] =>
      destruct (recoder_read a b) as [[data|e] r1]
  end; mred; [|discriminate].
  match goal with
  | |- context [recoder_write ?a ?b] =>
      pose proof (recoder_write_cls a b) as Hw;
      destruct (recoder_write a b) as [[u|e] t1]
  end; mred; [|discriminate].
  match goal with
  | |- context [recoder_seek ?a ?b ?c] =>
      pose proof (recoder_seek_cls a b c) as Hs;
      destruct (recoder_seek a b c) as [[u'|e] t2]
  end; mred; [|discriminate].
  intros [= <-]. unfold outcome. mred.
  cbn [snd EncodedFile TemporaryFile stream flo_cls] in *.
  unfold isinstance_BytesIO. rewrite Hs, Hw. reflexivity.
Qed.

(** C1 (as amended).  For every open byte stream still in memory, and for
    every open text stream still in memory whose stored bytes are
    well-formed UTF-8, [rollover] returns, the stream is then on disk, the
    new backend holds the same bytes in the same order, and [tell] reports
    the same offset after the call as before it. *)
Theorem rollover_migrates_open_stream :
  (forall s : SpooledBytesIO.t,
     bytes_is_open s = true ->
     outcome _rolled s = Ok false ->
     bytes_rollover_migrates s) /\
  (forall s : SpooledStringIO.t,
     text_is_open s = true ->
     outcome _rolled s = Ok false ->
     utf8_wellformed (text_stored s) ->
     text_rollover_migrates s).
Proof.
  split.
  - intros [m [[[] d p []]|]] Hopen Hmem;
      try discriminate Hopen; try discriminate Hmem.
    + eexists. split; [apply rollover_bytes_in_memory|].
      repeat split. exists p. split; reflexivity.
    + exists (SpooledBytesIO.mk m (Some TemporaryFile)).
      repeat split. exists 0%nat. split; reflexivity.
  - intros [m [[[[] d p []] bb cb lb]|]] Hopen Hmem Hd;
      try discriminate Hopen; try discriminate Hmem.
    + eexists. split; [apply (rollover_text_in_memory _ _ _ _ _ _ Hd)|].
      repeat split. exists p. split; reflexivity.
    + exists (SpooledStringIO.mk m (Some (EncodedFile TemporaryFile))).
      repeat split. exists 0%nat. split; reflexivity.
Qed.

Lemma rollover_migrates_open_stream_witness :
  bytes_rollover_migrates
    (exec (write (PyBytes [1; 2; 3]) ;;; seek 1 0) (SpooledBytesIO.new 10)) /\
  text_rollover_migrates
    (exec (write (PyStr [104; 233]) ;;; seek 1 0) (SpooledStringIO.new 10)).
Proof.
  split.
  - apply (proj1 rollover_migrates_open_stream); reflexivity.
  - apply (proj2 rollover_migrates_open_stream); try reflexivity.
    exists [104; 233]. reflexivity.
Defined.

(** The claim fails on a text stream whose stored bytes end inside a
    character: after writing "é" (bytes C3 A9) and truncating to one
    byte, the stream is open and in memory and holds the byte C3;
    [rollover] returns, and the new backend holds no byte at all. *)
Lemma rollover_text_cut_character_lost :
  let s := exec (write (PyStr [233]) ;;; truncate (Some 1))
                (SpooledStringIO.new 1000) in
  text_is_open s = true /\
  outcome _rolled s = Ok false /\
  text_stored s = [195] /\
  outcome rollover s = Ok tt /\
  text_stored (exec rollover s) = [] /\
  ~ text_rollover_migrates s.
Proof.
  cbv zeta. repeat split.
  intros (s' & Hr & _ & Hst & _).
  vm_compute in Hr. injection Hr as <-.
  vm_compute in Hst. discriminate.
Qed.

(** ** Writes and the threshold *)

(** A run of writes at the end of an open stream: the bytes are appended,
    and the stream is on disk as soon as one write leaves the cursor at
    or past the threshold. *)
Lemma write_all_bytes m ws : forall c d,
  exists c',
    write_all (map PyBytes ws)
      (SpooledBytesIO.mk m (Some (mk_flo c d (length d) false))) =
    (Ok tt, SpooledBytesIO.mk m (Some (mk_flo c' (d ++ concat ws)
                                   (length (d ++ concat ws)) false))) /\
    (c = cls_TemporaryFile -> c' = cls_TemporaryFile) /\
    (ws <> [] -> m <= Z.of_nat (length (d ++ concat ws)) ->
     c' = cls_TemporaryFile) /\
    (Z.of_nat (length (d ++ concat ws)) < m -> c' = c).
Proof.
  induction ws as [|w ws IH]; intros c d.
  - exists c. cbn [map write_all concat]. rewrite app_nil_r.
    repeat split; auto. congruence.
  - cbn [map write_all concat]. unfold bind. rewrite write_bytes_step.
    destruct (IH (if m <=? Z.of_nat (length (d ++ w))
                  then cls_TemporaryFile else c) (d ++ w))
      as (c' & Hrun & Hkeep & Hroll & Hstay).
    rewrite <- app_assoc in Hrun, Hroll, Hstay.
    exists c'. split; [exact Hrun|]. repeat split.
    + intros ->. apply Hkeep. now destruct (m <=? _).
    + intros _ Hm. destruct ws as [|w' ws'].
      * cbn [concat] in *. rewrite app_nil_r in *.
        apply Hkeep. apply Z.leb_le in Hm. now rewrite Hm.
      * apply Hroll; [discriminate | exact Hm].
    + intros Hm. rewrite (Hstay Hm).
      rewrite !length_app in *.
      destruct (Z.leb_spec m (Z.of_nat (length d + length w))); [lia|reflexivity].
Qed.

Lemma write_all_text m ts : forall c d e,
  utf8_wellformed d -> utf8_encode (concat ts) = Some e ->
  exists c',
    write_all (map PyStr ts)
      (SpooledStringIO.mk m
         (Some (mk_recoder (mk_flo c d (length d) false) [] [] None))) =
    (Ok tt, SpooledStringIO.mk m
       (Some (mk_recoder (mk_flo c' (d ++ e) (length (d ++ e)) false)
                         [] [] None))) /\
    (c = cls_TemporaryFile -> c' = cls_TemporaryFile) /\
    (ts <> [] -> m <= Z.of_nat (length (d ++ e)) -> c' = cls_TemporaryFile) /\
    (Z.of_nat (length (d ++ e)) < m -> c' = c).
Proof.
  induction ts as [|t ts IH]; intros c d e Hd He.
  - cbn [concat utf8_encode] in He. apply Some_inj in He. subst e.
    exists c. cbn [map write_all]. rewrite app_nil_r.
    repeat split; auto. congruence.
  - cbn [concat] in He. rewrite utf8_encode_app in He.
    destruct (utf8_encode t) as [et|] eqn:Het; [|discriminate].
    destruct (utf8_encode (concat ts)) as [es|] eqn:Hes; [|discriminate].
    apply Some_inj in He. subst e.
    cbn [map write_all]. unfold bind. rewrite (write_text_step _ _ _ _ _ Hd Het).
    assert (Hd' : utf8_wellformed (d ++ et)).
    { destruct Hd as [td Htd]. exists (td ++ t).
      now rewrite utf8_encode_app, Htd, Het. }
    destruct (IH (if m <=? Z.of_nat (length (d ++ et))
                  then cls_TemporaryFile else c) (d ++ et) es Hd' eq_refl)
      as (c' & Hrun & Hkeep & Hroll & Hstay).
    rewrite <- app_assoc in Hrun, Hroll, Hstay.
    exists c'. split; [exact Hrun|]. repeat split.
    + intros ->. apply Hkeep. now destruct (m <=? _).
    + intros _ Hm. destruct ts as [|t' ts'].
      * cbn [concat utf8_encode] in Hes. apply Some_inj in Hes. subst es.
        rewrite app_nil_r in *.
        apply Hkeep. apply Z.leb_le in Hm. now rewrite Hm.
      * apply Hroll; [discriminate | exact Hm].
    + intros Hm. rewrite (Hstay Hm).
      rewrite !length_app in *.
      destruct (Z.leb_spec m (Z.of_nat (length d + length et))); [lia|reflexivity].
Qed.

Lemma write_all_bytes_new m ws :
  ws <> [] ->
  write_all (map PyBytes ws) (SpooledBytesIO.new m) =
  write_all (map PyBytes ws) (SpooledBytesIO.mk m (Some BytesIO)).
Proof.
  destruct ws as [|w ws]; [congruence|]. intros _.
  cbn [map write_all]. unfold bind. now rewrite write_bytes_fresh.
Qed.

Lemma write_all_text_new m ts :
  ts <> [] ->
  write_all (map PyStr ts) (SpooledStringIO.new m) =
  write_all (map PyStr ts) (SpooledStringIO.mk m (Some (EncodedFile BytesIO))).
Proof.
  destruct ts as [|t ts]; [congruence|]. intros _.
  cbn [map write_all]. unfold bind. now rewrite write_text_fresh.
Qed.

Lemma utf8_wellformed_nil : utf8_wellformed [].
Proof. now exists []. Qed.

(** Writes to a new byte stream that reach the threshold. *)
Lemma bytes_writes_reaching_threshold (max_size : Z) (ws : list bytes) :
  ws <> [] ->
  max_size <= Z.of_nat (length (concat ws)) ->
  let s := exec (write_all (map PyBytes ws)) (SpooledBytesIO.new max_size) in
  outcome (write_all (map PyBytes ws)) (SpooledBytesIO.new max_size) = Ok tt /\
  outcome _rolled s = Ok true /\
  outcome getvalue s = Ok (PyBytes (concat ws)).
Proof.
  intros Hne Hm. unfold exec, outcome.
  rewrite (write_all_bytes_new _ _ Hne).
  destruct (write_all_bytes max_size ws cls_BytesIO [])
    as (c' & Hrun & _ & Hroll & _).
  cbn [app length] in *. unfold BytesIO. rewrite Hrun.
  rewrite (Hroll Hne Hm). cbn [fst snd]. rewrite getvalue_bytes_open.
  repeat split.
Qed.

(** Writes to a new text stream that reach the threshold, which counts
    the bytes of the UTF-8 encoding. *)
Lemma text_writes_reaching_threshold (max_size : Z) (ts : list text) e :
  ts <> [] ->
  utf8_encode (concat ts) = Some e ->
  max_size <= Z.of_nat (length e) ->
  let s := exec (write_all (map PyStr ts)) (SpooledStringIO.new max_size) in
  outcome (write_all (map PyStr ts)) (SpooledStringIO.new max_size) = Ok tt /\
  outcome _rolled s = Ok true /\
  outcome getvalue s = Ok (PyStr (concat ts)).
Proof.
  intros Hne He Hm. unfold exec, outcome.
  rewrite (write_all_text_new _ _ Hne).
  destruct (write_all_text max_size ts cls_BytesIO [] e utf8_wellformed_nil He)
    as (c' & Hrun & _ & Hroll & _).
  cbn [app length] in *. unfold EncodedFile, BytesIO. rewrite Hrun.
  rewrite (Hroll Hne Hm). cbn [fst snd].
  rewrite (getvalue_text_open _ _ _ _ _ _ _ _ He).
  repeat split.
Qed.

(** C2.  For every run of writes to a new stream whose cumulative length
    reaches or exceeds the threshold, the stream is on disk when the last
    write returns and [getvalue] returns all that was written; this holds
    for both classes.  With threshold 10, after writing [b"12345"] the
    stream is not rolled and holds [b"12345"]; after then writing
    [b"67890X"] it is rolled and holds [b"1234567890X"]. *)
Theorem writes_reaching_threshold_roll_over :
  (forall (max_size : Z) (ws : list bytes),
     ws <> [] ->
     max_size <= Z.of_nat (length (concat ws)) ->
     let s := exec (write_all (map PyBytes ws)) (SpooledBytesIO.new max_size) in
     outcome (write_all (map PyBytes ws)) (SpooledBytesIO.new max_size) = Ok tt /\
     outcome _rolled s = Ok true /\
     outcome getvalue s = Ok (PyBytes (concat ws))) /\
  (forall (max_size : Z) (ts : list text) (e : bytes),
     ts <> [] ->
     utf8_encode (concat ts) = Some e ->
     max_size <= Z.of_nat (length e) ->
     let s := exec (write_all (map PyStr ts)) (SpooledStringIO.new max_size) in
     outcome (write_all (map PyStr ts)) (SpooledStringIO.new max_size) = Ok tt /\
     outcome _rolled s = Ok true /\
     outcome getvalue s = Ok (PyStr (concat ts))) /\
  outcome
    (write (PyBytes (bytes_of_string "12345")) ;;;
     rolled1 <- _rolled ;;
     value1 <- getvalue ;;
     write (PyBytes (bytes_of_string "67890X")) ;;;
     rolled2 <- _rolled ;;
     value2 <- getvalue ;;
     ret (rolled1, value1, rolled2, value2))
    (SpooledBytesIO.new 10) =
  Ok (false, PyBytes (bytes_of_string "12345"),
      true, PyBytes (bytes_of_string "1234567890X")).
Proof.
  split; [exact bytes_writes_reaching_threshold|].
  split; [exact text_writes_reaching_threshold|].
  reflexivity.
Qed.

Lemma writes_reaching_threshold_roll_over_witness :
  (let s := exec (write_all (map PyBytes [[1; 2]; [3; 4; 5]]))
                 (SpooledBytesIO.new 4) in
   outcome (write_all (map PyBytes [[1; 2]; [3; 4; 5]]))
           (SpooledBytesIO.new 4) = Ok tt /\
   outcome _rolled s = Ok true /\
   outcome getvalue s = Ok (PyBytes [1; 2; 3; 4; 5])) /\
  (let s := exec (write_all (map PyStr [[104; 233]; [108]]))
                 (SpooledStringIO.new 4) in
   outcome (write_all (map PyStr [[104; 233]; [108]]))
           (SpooledStringIO.new 4) = Ok tt /\
   outcome _rolled s = Ok true /\
   outcome getvalue s = Ok (PyStr [104; 233; 108])).
Proof.
  split.
  - apply (proj1 writes_reaching_threshold_roll_over 4 [[1; 2]; [3; 4; 5]]).
    + discriminate.
    + simpl. lia.
  - apply (proj1 (proj2 writes_reaching_threshold_roll_over) 4
             [[104; 233]; [108]] [104; 195; 169; 108]).
    + discriminate.
    + reflexivity.
    + simpl. lia.
Defined.

Lemma length_concat_firstn (k : nat) (ws : list bytes) :
  (length (concat (firstn k ws)) <= length (concat ws))%nat.
Proof.
  revert k. induction ws as [|w ws IH]; intros [|k]; cbn [firstn concat];
    rewrite ?length_app; cbn [length]; try lia.
  specialize (IH k). lia.
Qed.

(** C3.  When the bytes written to a new byte stream are, in total,
    fewer than the threshold, then after each of the writes the stream is
    still in memory, [getvalue] returns exactly the bytes written so far,
    and the stream is still in memory after [getvalue]. *)
Theorem writes_below_threshold_stay_in_memory :
  forall (max_size : Z) (ws : list bytes),
    Z.of_nat (length (concat ws)) < max_size ->
    forall k : nat,
      let written := firstn k ws in
      let s := exec (write_all (map PyBytes written))
                    (SpooledBytesIO.new max_size) in
      outcome (write_all (map PyBytes written))
              (SpooledBytesIO.new max_size) = Ok tt /\
      outcome _rolled s = Ok false /\
      outcome getvalue s = Ok (PyBytes (concat written)) /\
      outcome _rolled (exec getvalue s) = Ok false.
Proof.
  intros max_size ws Hlt k written s. subst s.
  assert (Hk : Z.of_nat (length (concat written)) < max_size)
    by (pose proof (length_concat_firstn k ws); subst written; lia).
  clearbody written. unfold exec, outcome.
  destruct written as [|w ws'].
  - repeat split.
  - rewrite write_all_bytes_new by discriminate.
    destruct (write_all_bytes max_size (w :: ws') cls_BytesIO [])
      as (c' & Hrun & _ & _ & Hstay).
    cbn [app length] in Hrun, Hstay. unfold BytesIO. rewrite Hrun.
    rewrite (Hstay Hk). cbn [fst snd]. rewrite getvalue_bytes_open.
    repeat split.
Qed.

Lemma writes_below_threshold_stay_in_memory_witness :
  let s := exec (write_all (map PyBytes [[1; 2]]))
                (SpooledBytesIO.new 10) in
  outcome (write_all (map PyBytes [[1; 2]])) (SpooledBytesIO.new 10) = Ok tt /\
  outcome _rolled s = Ok false /\
  outcome getvalue s = Ok (PyBytes [1; 2]) /\
  outcome _rolled (exec getvalue s) = Ok false.
Proof.
  apply (writes_below_threshold_stay_in_memory 10 [[1; 2]; [3; 4; 5]]
           ltac:(simpl; lia) 1%nat).
Defined.

(** ** What a text stream returns *)

Lemma bytes_decode_valid {S} (b : bytes) (s s' : S) t :
  bytes_decode b s = (Ok t, s') -> valid_text t.
Proof.
  unfold bytes_decode.
  destruct (utf8_decode true b) as [t' n|] eqn:E; [|discriminate].
  intros [= <- _]. exact (utf8_decode_scalar _ _ _ _ E).
Qed.

Lemma read_text_valid (s s' : SpooledStringIO.t) n v :
  read n s = (Ok v, s') -> is_valid_str v.
Proof.
  cbn [read SpooledStringIO.SpooledIOBase_t]. unfold SpooledStringIO.read.
  unfold bind at 1.
  destruct (on_buffer _ s) as [[b|e] s1]; [|discriminate].
  unfold bind at 1.
  destruct (bytes_decode b s1) as [[t|e] s2] eqn:E; [|discriminate].
  intros [= <- _]. exists t. split; [reflexivity|].
  exact (bytes_decode_valid _ _ _ _ E).
Qed.

Lemma readline_text_valid (s s' : SpooledStringIO.t) length v :
  readline length s = (Ok v, s') -> is_valid_str v.
Proof.
  cbn [readline SpooledStringIO.SpooledIOBase_t]. unfold SpooledStringIO.readline.
  unfold bind at 1.
  destruct (on_buffer _ s) as [[b|e] s1]; [|discriminate].
  unfold bind at 1.
  destruct (bytes_decode b s1) as [[t|e] s2] eqn:E; [|discriminate].
  intros [= <- _]. exists t. split; [reflexivity|].
  exact (bytes_decode_valid _ _ _ _ E).
Qed.

Lemma decode_all_valid ls : forall (s s' : SpooledStringIO.t) vs,
  SpooledStringIO.decode_all ls s = (Ok vs, s') -> Forall is_valid_str vs.
Proof.
  induction ls as [|x ls IH]; intros s s' vs; cbn [SpooledStringIO.decode_all].
  - intros [= <- _]. constructor.
  - unfold bind at 1.
    destruct (bytes_decode x s) as [[t|e] s1] eqn:E; [|discriminate].
    unfold bind at 1.
    destruct (SpooledStringIO.decode_all ls s1) as [[ts|e] s2] eqn:E2;
      [|discriminate].
    intros [= <- _]. constructor.
    + exists t. split; [reflexivity | exact (bytes_decode_valid _ _ _ _ E)].
    + exact (IH _ _ _ E2).
Qed.

Lemma readlines_text_valid (s s' : SpooledStringIO.t) sizehint vs :
  readlines sizehint s = (Ok vs, s') -> Forall is_valid_str vs.
Proof.
  cbn [readlines SpooledStringIO.SpooledIOBase_t].
  unfold SpooledStringIO.readlines. unfold bind at 1.
  destruct (on_buffer _ s) as [[ls|e] s1]; [|discriminate].
  apply decode_all_valid.
Qed.

Lemma valid_text_app a b : valid_text (a ++ b) <-> valid_text a /\ valid_text b.
Proof. apply Forall_app. Qed.

Lemma read_text_holds (s : SpooledStringIO.t) (R : text) (n : Z) :
  text_holds s R ->
  exists s',
    read n s = (Ok (PyStr (if n <? 0 then R else firstn (Z.to_nat n) R)), s') /\
    text_holds s' (if n <? 0 then [] else skipn (Z.to_nat n) R).
Proof.
  intros (HR & r & Hs & Hr). destruct s as [m buf]. cbn in Hs. subst buf.
  destruct (reader_read_sound r R n (-1) false (or_introl eq_refl) Hr)
    as (r' & Hrun & Hr' & _ & _).
  set (t := if n <? 0 then R else firstn (Z.to_nat n) R) in *.
  assert (Ht : valid_text t)
    by (subst t; destruct (n <? 0); [exact HR | now apply valid_text_firstn]).
  destruct (utf8_encode_scalar t Ht) as [e He].
  exists (SpooledStringIO.mk m (Some r')). split.
  - cbn [read SpooledStringIO.SpooledIOBase_t]. unfold SpooledStringIO.read.
    mred. unfold recoder_read, bind. rewrite Hrun.
    unfold str_encode. rewrite He. mred.
    unfold bytes_decode. rewrite (utf8_decode_encode _ _ true He). reflexivity.
  - split.
    + destruct (n <? 0); [constructor | now apply valid_text_skipn].
    + exists r'. split; [reflexivity | now apply reader_holds_sound].
Qed.

Lemma readline_text_holds (s : SpooledStringIO.t) (R : text) (length : option Z) :
  text_holds s R ->
  exists L R' s',
    readline length s = (Ok (PyStr L), s') /\
    R = L ++ R' /\ (R <> [] -> L <> []) /\
    text_holds s' R'.
Proof.
  intros (HR & r & Hs & Hr). destruct s as [m buf]. cbn in Hs. subst buf.
  destruct (reader_readline_sound length r R Hr)
    as (L & r' & R' & Hrun & Hw & Hr' & Hp & _ & _).
  subst R. apply valid_text_app in HR. destruct HR as [HL HR'].
  destruct (utf8_encode_scalar L HL) as [e He].
  exists L, R', (SpooledStringIO.mk m (Some r')). split; [|split; [reflexivity|split]].
  - cbn [readline SpooledStringIO.SpooledIOBase_t].
    unfold SpooledStringIO.readline.
    mred. unfold recoder_readline, bind. rewrite Hrun.
    unfold str_encode. rewrite He. mred.
    unfold bytes_decode. rewrite (utf8_decode_encode _ _ true He). reflexivity.
  - exact Hp.
  - split; [exact HR'|]. exists r'. now split.
Qed.

Lemma readlines_text_holds (s : SpooledStringIO.t) (R : text) (sizehint : Z) :
  text_holds s R ->
  exists s',
    readlines sizehint s =
      (Ok (map PyStr (splitlines_from is_bytes_linebreak true [] R)), s') /\
    text_holds s' [].
Proof.
  intros (HR & r & Hs & Hr). destruct s as [m buf]. cbn in Hs. subst buf.
  destruct (reader_read_sound r R (-1) (-1) false (or_introl eq_refl) Hr)
    as (r' & Hrun & Hr' & _ & _).
  cbn [Z.ltb Z.compare] in Hrun, Hr'.
  destruct (utf8_encode_scalar R HR) as [e He].
  exists (SpooledStringIO.mk m (Some r')). split.
  - cbn [readlines SpooledStringIO.SpooledIOBase_t].
    unfold SpooledStringIO.readlines.
    mred. unfold recoder_readlines, bind. rewrite Hrun.
    unfold str_encode. rewrite He. mred.
    apply decode_all_encodes. now apply bytes_splitlines_encode.
  - split; [constructor|]. exists r'. split; [reflexivity|].
    now apply reader_holds_sound.
Qed.

(** After writing texts to a new stream and seeking to the start, the
    stream holds their concatenation. *)
Lemma written_text_holds m ts e :
  utf8_encode (concat ts) = Some e ->
  outcome (write_all (map PyStr ts) ;;; seek 0 0) (SpooledStringIO.new m)
    = Ok PyNone /\
  text_holds (exec (write_all (map PyStr ts) ;;; seek 0 0)
                   (SpooledStringIO.new m)) (concat ts).
Proof.
  intros He. pose proof (utf8_encode_valid _ _ He) as Hv.
  unfold exec, outcome, bind.
  destruct ts as [|t ts'].
  - cbn [map write_all concat]. unfold ret. rewrite seek_0_text_fresh.
    split; [reflexivity|]. split; [constructor|].
    eexists. split; [reflexivity|]. repeat split. exists []. now split.
  - rewrite write_all_text_new by discriminate.
    destruct (write_all_text m (t :: ts') cls_BytesIO [] e utf8_wellformed_nil He)
      as (c' & Hrun & _).
    cbn [app length] in Hrun. unfold EncodedFile, BytesIO. rewrite Hrun.
    unfold seek. mred. rewrite recoder_seek_0. mred.
    split; [reflexivity|]. split; [exact Hv|].
    eexists. split; [reflexivity|]. repeat split.
    exists (concat (t :: ts')). split; [reflexivity|]. exact He.
Qed.

(** C4.  Whatever [read(n)], [readline] and [readlines] of a text stream
    return is text made of Unicode scalar values, decoded from complete
    UTF-8 sequences, for every stream and every argument.  On a stream
    that holds a text (for instance after that text was written to a new
    stream and the cursor put back to the start), each of them returns:
    [read(n)] the next [n] code points, never a part of one, or all the
    text left when [n] is negative; [readline] a piece from the start of
    the text left, empty only when none is left; [readlines] the lines
    of all the text left; and the stream then holds the rest.  After
    writing "héllo" with threshold 1000 and seeking to 0, [read()]
    returns "héllo". *)
Theorem text_reads_return_whole_characters :
  (forall (s s' : SpooledStringIO.t) (n : Z) (v : pyval),
     read n s = (Ok v, s') -> is_valid_str v) /\
  (forall (s s' : SpooledStringIO.t) (length : option Z) (v : pyval),
     readline length s = (Ok v, s') -> is_valid_str v) /\
  (forall (s s' : SpooledStringIO.t) (sizehint : Z) (vs : list pyval),
     readlines sizehint s = (Ok vs, s') -> Forall is_valid_str vs) /\
  (forall (s : SpooledStringIO.t) (R : text) (n : Z),
     text_holds s R ->
     exists s',
       read n s =
         (Ok (PyStr (if n <? 0 then R else firstn (Z.to_nat n) R)), s') /\
       text_holds s' (if n <? 0 then [] else skipn (Z.to_nat n) R)) /\
  (forall (s : SpooledStringIO.t) (R : text) (length : option Z),
     text_holds s R ->
     exists L R' s',
       readline length s = (Ok (PyStr L), s') /\
       R = L ++ R' /\ (R <> [] -> L <> []) /\
       text_holds s' R') /\
  (forall (s : SpooledStringIO.t) (R : text) (sizehint : Z),
     text_holds s R ->
     exists s',
       readlines sizehint s =
         (Ok (map PyStr (splitlines_from is_bytes_linebreak true [] R)), s') /\
       text_holds s' []) /\
  (forall (max_size : Z) (ts : list text) (e : bytes),
     utf8_encode (concat ts) = Some e ->
     outcome (write_all (map PyStr ts) ;;; seek 0 0)
             (SpooledStringIO.new max_size) = Ok PyNone /\
     text_holds (exec (write_all (map PyStr ts) ;;; seek 0 0)
                      (SpooledStringIO.new max_size)) (concat ts)) /\
  outcome (write (PyStr [104; 233; 108; 108; 111]) ;;; seek 0 0 ;;; read (-1))
          (SpooledStringIO.new 1000)
    = Ok (PyStr [104; 233; 108; 108; 111]).
Proof.
  split; [exact read_text_valid|].
  split; [exact readline_text_valid|].
  split; [exact readlines_text_valid|].
  split; [exact read_text_holds|].
  split; [exact readline_text_holds|].
  split; [exact readlines_text_holds|].
  split; [exact written_text_holds|].
  reflexivity.
Qed.

Lemma text_reads_return_whole_characters_witness :
  let s := exec (write (PyStr [104; 233; 108; 108; 111]) ;;; seek 0 0)
                (SpooledStringIO.new 1000) in
  is_valid_str (PyStr [104; 233]) /\
  is_valid_str (PyStr [104; 233; 108; 108; 111]) /\
  Forall is_valid_str [PyStr [104; 233; 108; 108; 111]] /\
  (exists s',
     read 2 s = (Ok (PyStr [104; 233]), s') /\
     text_holds s' [108; 108; 111]) /\
  (exists L R' s',
     readline None s = (Ok (PyStr L), s') /\
     [104; 233; 108; 108; 111] = L ++ R' /\
     ([104; 233; 108; 108; 111] <> [] -> L <> []) /\
     text_holds s' R') /\
  (exists s',
     readlines 0 s = (Ok [PyStr [104; 233; 108; 108; 111]], s') /\
     text_holds s' []).
Proof.
  intros s.
  pose proof text_reads_return_whole_characters
    as (Hread & Hline & Hlines & Hholds & Hholds1 & Hholds2 & Hwritten & _).
  assert (Hs : text_holds s [104; 233; 108; 108; 111]).
  { apply (Hwritten 1000 [[104; 233; 108; 108; 111]]
             [104; 195; 169; 108; 108; 111]).
    reflexivity. }
  split; [|split; [|split; [|split; [|split]]]].
  - apply (Hread s (exec (read 2) s) 2). reflexivity.
  - apply (Hline s (exec (readline None) s) None). reflexivity.
  - apply (Hlines s (exec (readlines 0) s) 0). reflexivity.
  - exact (Hholds s [104; 233; 108; 108; 111] 2 Hs).
  - exact (Hholds1 s [104; 233; 108; 108; 111] None Hs).
  - exact (Hholds2 s [104; 233; 108; 108; 111] 0 Hs).
Defined.

(** ** Idempotence of rollover *)

(** C5.  On a stream that is already on disk [rollover] changes nothing,
    and two calls in a row have the same outcome and leave the stream in
    the same state (same content on disk, same cursor) as one call; this
    holds for both classes and every stream. *)
Theorem rollover_idempotent :
  (forall s : SpooledBytesIO.t,
     outcome _rolled s = Ok true -> rollover s = (Ok tt, s)) /\
  (forall s : SpooledBytesIO.t,
     (rollover ;;; rollover) s = rollover s) /\
  (forall s : SpooledStringIO.t,
     outcome _rolled s = Ok true -> rollover s = (Ok tt, s)) /\
  (forall s : SpooledStringIO.t,
     (rollover ;;; rollover) s = rollover s).
Proof.
  assert (Hb : forall s : SpooledBytesIO.t,
             outcome _rolled s = Ok true -> rollover s = (Ok tt, s)).
  { intros s Hs. destruct (bytes_rolled_inv s Hs) as (m & d & p & cl & ->).
    reflexivity. }
  assert (Ht : forall s : SpooledStringIO.t,
             outcome _rolled s = Ok true -> rollover s = (Ok tt, s)).
  { intros s Hs.
    destruct (text_rolled_inv s Hs) as (m & d & p & cl & bb & cb & lb & ->).
    reflexivity. }
  repeat split; auto.
  - intros s. unfold bind.
    destruct (rollover s) as [[[]|e] s'] eqn:E; [|reflexivity].
    apply Hb. exact (rollover_bytes_ok_rolled _ _ E).
  - intros s. unfold bind.
    destruct (rollover s) as [[[]|e] s'] eqn:E; [|reflexivity].
    apply Ht. exact (rollover_text_ok_rolled _ _ E).
Qed.

Lemma rollover_idempotent_witness :
  (let s := exec (write (PyBytes [1; 2; 3])) (SpooledBytesIO.new 2) in
   rollover s = (Ok tt, s)) /\
  (let s := exec (write (PyStr [104; 233])) (SpooledStringIO.new 2) in
   rollover s = (Ok tt, s)).
Proof.
  split.
  - apply (proj1 rollover_idempotent). reflexivity.
  - apply (proj1 (proj2 (proj2 rollover_idempotent))). reflexivity.
Defined.

(** ** Iteration *)

(** C6.  Iterating a stream does not yield each remaining line: the
    generator made by [__iter__] yields the result of one [readline] call
    and then stops.  On a stream holding the two lines "a" and "b", read
    from the start, iteration yields the first line only, where
    [readlines] returns both; on an empty stream it yields one empty
    line. *)
Theorem iteration_yields_one_readline :
  (forall (T : Type) (inst : SpooledIOBase T) (s : T) (fuel : nat),
     generator_list (S fuel) __iter__ s =
     (line <- readline None ;; ret [line]) s) /\
  (let s := exec (write (PyBytes [97; 10; 98; 10]) ;;; seek 0 0)
                 (SpooledBytesIO.new 100) in
   outcome (generator_list 5 __iter__) s = Ok [PyBytes [97; 10]] /\
   outcome (readlines 0) s = Ok [PyBytes [97; 10]; PyBytes [98; 10]]) /\
  (let s := exec (write (PyStr [97; 10; 98; 10]) ;;; seek 0 0)
                 (SpooledStringIO.new 100) in
   outcome (generator_list 5 __iter__) s = Ok [PyStr [97; 10]] /\
   outcome (readlines 0) s = Ok [PyStr [97; 10]; PyStr [98; 10]]) /\
  outcome (generator_list 5 __iter__) (SpooledBytesIO.new 100)
    = Ok [PyBytes []].
Proof.
  split; [|repeat split].
  intros T inst s fuel. cbn [generator_list __iter__ generator_next].
  unfold bind, ret. destruct (readline None s) as [[line|e] s']; [|reflexivity].
  destruct fuel; reflexivity.
Qed.

(** ** Equality *)

Lemma pyval_eqb_eq (a b : pyval) : pyval_eqb a b = true <-> a = b.
Proof.
  unfold pyval_eqb. destruct (pyval_eq_dec a b); split; congruence.
Qed.

Lemma getvalue_after_writes_bytes (m : Z) (ws : list bytes) :
  exists s',
    getvalue (exec (write_all (map PyBytes ws)) (SpooledBytesIO.new m)) =
    (Ok (PyBytes (concat ws)), s').
Proof.
  destruct ws as [|w ws'].
  - eexists. reflexivity.
  - unfold exec. rewrite write_all_bytes_new by discriminate.
    destruct (write_all_bytes m (w :: ws') cls_BytesIO []) as (c' & Hrun & _).
    cbn [app length] in Hrun. unfold BytesIO. rewrite Hrun. cbn [snd].
    rewrite getvalue_bytes_open. eauto.
Qed.

(** C7.  For two streams, of either class, on which [getvalue] returns:
    [==] is true exactly when the two values are equal and false exactly
    when they differ.  [!=] always is the negation of [==].  Comparing a
    stream with a value that is not a stream gives false and touches
    nothing.  In particular two byte streams built independently, with
    any thresholds, are equal exactly when the bytes written to one are
    the bytes written to the other. *)
Theorem stream_equality :
  (forall (T1 T2 : Type) (inst1 : SpooledIOBase T1) (inst2 : SpooledIOBase T2)
          (a a' : T1) (b b' : T2) (va vb : pyval),
     getvalue a = (Ok va, a') ->
     getvalue b = (Ok vb, b') ->
     (outcome __eq__ (a, Spooled b) = Ok true <-> va = vb) /\
     (outcome __eq__ (a, Spooled b) = Ok false <-> va <> vb) /\
     (outcome __ne__ (a, Spooled b) = Ok true <-> va <> vb)) /\
  (forall (T : Type) (inst : SpooledIOBase T) (x : T * pyobject),
     outcome __ne__ x =
     match outcome __eq__ x with
     | Ok r => Ok (negb r)
     | Raise e => Raise e
     end) /\
  (forall (T : Type) (inst : SpooledIOBase T) (a : T) (v : pyval),
     __eq__ (a, Value v) = (Ok false, (a, Value v))) /\
  (forall (m1 m2 : Z) (ws1 ws2 : list bytes),
     outcome __eq__
       (exec (write_all (map PyBytes ws1)) (SpooledBytesIO.new m1),
        Spooled (exec (write_all (map PyBytes ws2)) (SpooledBytesIO.new m2)))
     = Ok true <-> concat ws1 = concat ws2).
Proof.
  assert (Hgen : forall (T1 T2 : Type) (inst1 : SpooledIOBase T1)
                   (inst2 : SpooledIOBase T2) (a a' : T1) (b b' : T2) va vb,
             getvalue a = (Ok va, a') -> getvalue b = (Ok vb, b') ->
             outcome __eq__ (a, Spooled b) = Ok (pyval_eqb va vb)).
  { intros T1 T2 inst1 inst2 a a' b b' va vb Ha Hb.
    unfold outcome, __eq__. now rewrite Ha, Hb. }
  assert (Hne : forall (T : Type) (inst : SpooledIOBase T) (x : T * pyobject),
             outcome __ne__ x =
             match outcome __eq__ x with
             | Ok r => Ok (negb r)
             | Raise e => Raise e
             end).
  { intros T inst x. unfold outcome, __ne__, bind, ret.
    destruct (__eq__ x) as [[r|e] s']; reflexivity. }
  split; [|split; [exact Hne | split; [reflexivity|]]].
  - intros T1 T2 inst1 inst2 a a' b b' va vb Ha Hb.
    rewrite Hne, (Hgen _ _ _ _ _ _ _ _ _ _ Ha Hb).
    unfold pyval_eqb. destruct (pyval_eq_dec va vb) as [E|N]; cbn [negb].
    + repeat split; intros H; try discriminate; try congruence.
    + repeat split; intros H; try discriminate; try congruence.
  - intros m1 m2 ws1 ws2.
    destruct (getvalue_after_writes_bytes m1 ws1) as [s1 H1].
    destruct (getvalue_after_writes_bytes m2 ws2) as [s2 H2].
    rewrite (Hgen _ _ _ _ _ _ _ _ _ _ H1 H2).
    split.
    + intros [= E]. apply pyval_eqb_eq in E. congruence.
    + intros E. f_equal. apply pyval_eqb_eq. congruence.
Qed.

Lemma stream_equality_witness :
  let a := exec (write (PyBytes [1; 2])) (SpooledBytesIO.new 10) in
  let b := exec (write (PyBytes [1]) ;;; write (PyBytes [2]))
                (SpooledBytesIO.new 1) in
  (outcome __eq__ (a, Spooled b) = Ok true <-> PyBytes [1; 2] = PyBytes [1; 2]) /\
  (outcome __eq__ (a, Spooled b) = Ok false <-> PyBytes [1; 2] <> PyBytes [1; 2]) /\
  (outcome __ne__ (a, Spooled b) = Ok true <-> PyBytes [1; 2] <> PyBytes [1; 2]).
Proof.
  intros a b.
  apply (proj1 stream_equality _ _ _ _ a (exec getvalue a) b (exec getvalue b));
    reflexivity.
Defined.

(** ** Errors *)

(** C8.  Writing to a byte stream a value that is not a byte string, or
    to a text stream a value that is not a text (a byte string included),
    raises [TypeError] at once: the message names the expected type and
    the type of the value, and the stream is left as it was. *)
Theorem write_rejects_wrong_type :
  (forall (s : SpooledBytesIO.t) (v : pyval),
     (forall b, v <> PyBytes b) ->
     write v s =
     (Raise (TypeError ("bytes expected, got " ++ type_name v)), s)) /\
  (forall (s : SpooledStringIO.t) (v : pyval),
     (forall t, v <> PyStr t) ->
     write v s =
     (Raise (TypeError ("str expected, got " ++ type_name v)), s)).
Proof.
  split; intros s [| n | b | t] Hv; try reflexivity;
    exfalso; eapply Hv; reflexivity.
Qed.

Lemma write_rejects_wrong_type_witness :
  write (PyStr [104; 233]) (SpooledBytesIO.new 10) =
    (Raise (TypeError "bytes expected, got str"), SpooledBytesIO.new 10) /\
  write (PyBytes [104]) (SpooledStringIO.new 10) =
    (Raise (TypeError "str expected, got bytes"), SpooledStringIO.new 10).
Proof.
  split.
  - apply (proj1 write_rejects_wrong_type). discriminate.
  - apply (proj2 write_rejects_wrong_type). discriminate.
Defined.

(** C9.  On every stream of either class, [truncate] with a negative
    size raises [IOError] with [EINVAL] at once and leaves the stream as
    it was. *)
Theorem truncate_negative_size_fails :
  forall (T : Type) (inst : SpooledIOBase T) (s : T) (size : Z),
    size < 0 ->
    truncate (Some size) s =
    (Raise (IOError EINVAL "Negative size not allowed"), s).
Proof.
  intros T inst s size Hs. unfold truncate.
  apply Z.ltb_lt in Hs. now rewrite Hs.
Qed.

Lemma truncate_negative_size_fails_witness :
  truncate (Some (-1)) (SpooledBytesIO.new 10) =
    (Raise (IOError EINVAL "Negative size not allowed"),
     SpooledBytesIO.new 10) /\
  truncate (Some (-1)) (SpooledStringIO.new 10) =
    (Raise (IOError EINVAL "Negative size not allowed"),
     SpooledStringIO.new 10).
Proof.
  split; apply truncate_negative_size_fails; reflexivity.
Defined.

(** ** [fileno] *)

Lemma fileno_bytes_ok (s s' : SpooledBytesIO.t) fd :
  fileno s = (Ok fd, s') -> rollover s = (Ok tt, s').
Proof.
  unfold fileno, bind.
  destruct (rollover s) as [[[]|e] s1] eqn:E; [|discriminate].
  destruct (bytes_rolled_inv s1 (rollover_bytes_ok_rolled _ _ E))
    as (m & d & p & cl & ->).
  destruct cl; cbn; [discriminate|]. now intros [= _ <-].
Qed.

Lemma fileno_text_ok (s s' : SpooledStringIO.t) fd :
  fileno s = (Ok fd, s') -> rollover s = (Ok tt, s').
Proof.
  unfold fileno, bind.
  destruct (rollover s) as [[[]|e] s1] eqn:E; [|discriminate].
  destruct (text_rolled_inv s1 (rollover_text_ok_rolled _ _ E))
    as (m & d & p & cl & bb & cb & lb & ->).
  destruct cl; cbn; [discriminate|]. now intros [= _ <-].
Qed.

(** C10.  Whenever [fileno] returns, the stream is on disk and is in
    exactly the state [rollover] leaves it in.  [fileno] does return on
    every open byte stream and on every open text stream whose stored
    bytes are well-formed UTF-8, whatever the threshold and the size of
    the content, and then the stored bytes and the offset reported by
    [tell] are those from before the call. *)
Theorem fileno_forces_rollover :
  (forall (s s' : SpooledBytesIO.t) (fd : Z),
     fileno s = (Ok fd, s') ->
     rollover s = (Ok tt, s') /\ outcome _rolled s' = Ok true) /\
  (forall (s s' : SpooledStringIO.t) (fd : Z),
     fileno s = (Ok fd, s') ->
     rollover s = (Ok tt, s') /\ outcome _rolled s' = Ok true) /\
  (forall s : SpooledBytesIO.t,
     bytes_is_open s = true ->
     exists fd s',
       fileno s = (Ok fd, s') /\
       outcome _rolled s' = Ok true /\
       bytes_stored s' = bytes_stored s /\
       outcome tell s' = outcome tell s) /\
  (forall s : SpooledStringIO.t,
     text_is_open s = true ->
     utf8_wellformed (text_stored s) ->
     exists fd s',
       fileno s = (Ok fd, s') /\
       outcome _rolled s' = Ok true /\
       text_stored s' = text_stored s /\
       outcome tell s' = outcome tell s).
Proof.
  split; [|split; [|split]].
  - intros s s' fd H. pose proof (fileno_bytes_ok _ _ _ H) as E.
    split; [exact E | exact (rollover_bytes_ok_rolled _ _ E)].
  - intros s s' fd H. pose proof (fileno_text_ok _ _ _ H) as E.
    split; [exact E | exact (rollover_text_ok_rolled _ _ E)].
  - intros [m [[[] d p []]|]] Hopen; try discriminate Hopen.
    + exists tmpfile_fd, (SpooledBytesIO.mk m
                (Some (mk_flo cls_TemporaryFile d p false))).
      split; [|repeat split].
      unfold fileno, bind. rewrite rollover_bytes_in_memory. reflexivity.
    + exists tmpfile_fd, (SpooledBytesIO.mk m
                (Some (mk_flo cls_TemporaryFile d p false))).
      repeat split.
    + exists tmpfile_fd, (SpooledBytesIO.mk m (Some TemporaryFile)).
      repeat split.
  - intros [m [[[[] d p []] bb cb lb]|]] Hopen Hd; try discriminate Hopen.
    + exists tmpfile_fd, (SpooledStringIO.mk m
                (Some (mk_recoder (mk_flo cls_TemporaryFile d p false)
                                  [] [] None))).
      split; [|repeat split].
      unfold fileno, bind. rewrite (rollover_text_in_memory _ _ _ _ _ _ Hd).
      reflexivity.
    + exists tmpfile_fd, (SpooledStringIO.mk m
                (Some (mk_recoder (mk_flo cls_TemporaryFile d p false)
                                  bb cb lb))).
      repeat split.
    + exists tmpfile_fd, (SpooledStringIO.mk m (Some (EncodedFile TemporaryFile))).
      repeat split.
Qed.

Lemma fileno_forces_rollover_witness :
  (let s := exec (write (PyBytes [1; 2; 3])) (SpooledBytesIO.new 100) in
   exists fd s',
     fileno s = (Ok fd, s') /\
     outcome _rolled s' = Ok true /\
     bytes_stored s' = bytes_stored s /\
     outcome tell s' = outcome tell s) /\
  (let s := exec (write (PyStr [104; 233])) (SpooledStringIO.new 100) in
   exists fd s',
     fileno s = (Ok fd, s') /\
     outcome _rolled s' = Ok true /\
     text_stored s' = text_stored s /\
     outcome tell s' = outcome tell s).
Proof.
  split.
  - apply (proj1 (proj2 (proj2 fileno_forces_rollover))). reflexivity.
  - apply (proj2 (proj2 (proj2 fileno_forces_rollover))).
    + reflexivity.
    + exists [104; 233]. reflexivity.
Defined.

(** * The other methods *)

(** Stepping through a method body while the calls on the backend stay
    folded. *)
Ltac mstep :=
  repeat (progress (
    unfold bind, ret, raise, get, local, on_buffer;
    cbn -[recoder_seek recoder_read recoder_write recoder_readline
          recoder_readlines flo_seek flo_write flo_truncate flo_read
          flo_readline flo_readlines Z.of_nat Z.to_nat Nat.min Nat.sub
          reader_fill utf8_decode utf8_encode firstn skipn repeat
          length app])).

(** ** [seek] and [tell] *)


Lemma recoder_seek_nonneg n c d p bb cb lb :
  0 <= n ->
  recoder_seek n 0 (mk_recoder (mk_flo c d p false) bb cb lb) =
  (Ok tt, mk_recoder (mk_flo c d (Z.to_nat n) false) [] [] None).
Proof.
  intros Hn. rewrite <- (Z2Nat.id n Hn) at 1. now rewrite recoder_seek_abs.
Qed.

(** The shape of an open stream. *)
Lemma bytes_open_inv (s : SpooledBytesIO.t) :
  bytes_is_open s = true ->
  s = SpooledBytesIO.new (SpooledBytesIO._max_size s) \/
  exists c d p, s = SpooledBytesIO.mk (SpooledBytesIO._max_size s)
                      (Some (mk_flo c d p false)).
Proof.
  destruct s as [m [[c d p []]|]]; cbn; intros H; try discriminate.
  - right. now exists c, d, p.
  - now left.
Qed.

Lemma text_open_inv (s : SpooledStringIO.t) :
  text_is_open s = true ->
  s = SpooledStringIO.new (SpooledStringIO._max_size s) \/
  exists c d p bb cb lb,
    s = SpooledStringIO.mk (SpooledStringIO._max_size s)
          (Some (mk_recoder (mk_flo c d p false) bb cb lb)).
Proof.
  destruct s as [m [[[c d p []] bb cb lb]|]]; cbn; intros H; try discriminate.
  - right. now exists c, d, p, bb, cb, lb.
  - now left.
Qed.



(** ** [getvalue] *)

(** X2.  [getvalue] of an open byte stream returns all the stored bytes
    wherever the cursor is, and leaves the bytes, the cursor and the
    backend as they were.  On an open text stream whose stored bytes
    encode the text [t] it returns [t], with the same bytes, cursor and
    backend afterwards. *)
Theorem getvalue_reads_all_and_restores :
  (forall s : SpooledBytesIO.t,
     bytes_is_open s = true ->
     outcome getvalue s = Ok (PyBytes (bytes_stored s)) /\
     bytes_stored (exec getvalue s) = bytes_stored s /\
     bytes_cursor (exec getvalue s) = bytes_cursor s /\
     bytes_on_disk (exec getvalue s) = bytes_on_disk s) /\
  (forall (s : SpooledStringIO.t) (t : text),
     text_is_open s = true ->
     utf8_encode t = Some (text_stored s) ->
     outcome getvalue s = Ok (PyStr t) /\
     text_stored (exec getvalue s) = text_stored s /\
     text_cursor (exec getvalue s) = text_cursor s /\
     text_on_disk (exec getvalue s) = text_on_disk s).
Proof.
  split.
  - intros s Hopen.
    destruct (bytes_open_inv s Hopen) as [-> | (c & d & p & ->)].
    + repeat split.
    + unfold outcome, exec. rewrite getvalue_bytes_open. repeat split.
  - intros s t Hopen Ht.
    destruct (text_open_inv s Hopen)
      as [Hs | (c & d & p & bb & cb & lb & Hs)]; rewrite Hs in Ht |- *.
    + cbn in Ht. apply utf8_encode_nil_inv in Ht. subst t. repeat split.
    + cbn in Ht. unfold outcome, exec.
      rewrite (getvalue_text_open _ _ _ _ _ _ _ _ Ht). repeat split.
Qed.

Lemma getvalue_reads_all_and_restores_witness :
  let b := exec (write (PyBytes [1; 2; 3]) ;;; seek 1 0) (SpooledBytesIO.new 2) in
  let t := exec (write (PyStr [104; 233]) ;;; seek 1 0) (SpooledStringIO.new 10) in
  (outcome getvalue b = Ok (PyBytes [1; 2; 3]) /\
   bytes_stored (exec getvalue b) = [1; 2; 3] /\
   bytes_cursor (exec getvalue b) = 1%nat /\
   bytes_on_disk (exec getvalue b) = true) /\
  (outcome getvalue t = Ok (PyStr [104; 233]) /\
   text_stored (exec getvalue t) = [104; 195; 169] /\
   text_cursor (exec getvalue t) = 1%nat /\
   text_on_disk (exec getvalue t) = false).
Proof.
  intros b t. split.
  - apply (proj1 getvalue_reads_all_and_restores b). reflexivity.
  - apply (proj2 getvalue_reads_all_and_restores t [104; 233]); reflexivity.
Defined.

(** ** [truncate] *)


Lemma flo_truncate_here c d p :
  flo_truncate None (mk_flo c d p false) =
  (Ok (Z.of_nat p),
   mk_flo c (firstn p d ++
             match c with
             | cls_BytesIO => []
             | cls_TemporaryFile => repeat 0 (p - length d)
             end) p false).
Proof.
  unfold flo_truncate, if_open, set_data.
  cbn [flo_closed flo_cls flo_data flo_pos].
  rewrite of_nat_ltb_0, Nat2Z.id.
  destruct c; [now rewrite app_nil_r | reflexivity].
Qed.






Lemma on_stream_flo_truncate_here c d p bb cb lb :
  on_stream (flo_truncate None) (mk_recoder (mk_flo c d p false) bb cb lb) =
  (Ok (Z.of_nat p),
   mk_recoder (mk_flo c (firstn p d ++
                         match c with
                         | cls_BytesIO => []
                         | cls_TemporaryFile => repeat 0 (p - length d)
                         end) p false) bb cb lb).
Proof. unfold on_stream. cbn [stream]. now rewrite flo_truncate_here. Qed.

(** X4.  [truncate()] without a size cuts an open stream at its cursor
    and returns the new size; the cursor stays.  A stream in memory
    whose cursor is past the end is left as it is, a stream on disk is
    extended with zero bytes up to the cursor. *)
Theorem truncate_cuts_at_cursor :
  (forall s : SpooledBytesIO.t,
     bytes_is_open s = true ->
     let s' := exec (truncate None) s in
     outcome (truncate None) s = Ok (PyInt (Z.of_nat (bytes_cursor s))) /\
     bytes_stored s' =
       firstn (bytes_cursor s) (bytes_stored s) ++
       (if bytes_on_disk s
        then repeat 0 (bytes_cursor s - length (bytes_stored s)) else []) /\
     bytes_cursor s' = bytes_cursor s /\
     bytes_on_disk s' = bytes_on_disk s) /\
  (forall s : SpooledStringIO.t,
     text_is_open s = true ->
     let s' := exec (truncate None) s in
     outcome (truncate None) s = Ok (PyInt (Z.of_nat (text_cursor s))) /\
     text_stored s' =
       firstn (text_cursor s) (text_stored s) ++
       (if text_on_disk s
        then repeat 0 (text_cursor s - length (text_stored s)) else []) /\
     text_cursor s' = text_cursor s /\
     text_on_disk s' = text_on_disk s).
Proof.
  split; intros s Hopen; cbv zeta.
  - destruct (bytes_open_inv s Hopen) as [-> | (c & d & p & ->)].
    + repeat split.
    + unfold outcome, exec, truncate. mstep. rewrite flo_truncate_here.
      destruct c; repeat split.
  - destruct (text_open_inv s Hopen)
      as [-> | (c & d & p & bb & cb & lb & ->)].
    + repeat split.
    + unfold outcome, exec, truncate. mstep.
      rewrite on_stream_flo_truncate_here. destruct c; repeat split.
Qed.

Lemma truncate_cuts_at_cursor_witness :
  let b := exec (write (PyBytes [1; 2; 3; 4]) ;;; seek 1 0) (SpooledBytesIO.new 9) in
  let t := exec (write (PyStr [104; 233]) ;;; seek 5 0) (SpooledStringIO.new 2) in
  (outcome (truncate None) b = Ok (PyInt 1) /\
   bytes_stored (exec (truncate None) b) = [1] /\
   bytes_cursor (exec (truncate None) b) = 1%nat /\
   bytes_on_disk (exec (truncate None) b) = false) /\
  (outcome (truncate None) t = Ok (PyInt 5) /\
   text_stored (exec (truncate None) t) = [104; 195; 169; 0; 0] /\
   text_cursor (exec (truncate None) t) = 5%nat /\
   text_on_disk (exec (truncate None) t) = true).
Proof.
  intros b t. split.
  - apply (proj1 truncate_cuts_at_cursor b). reflexivity.
  - apply (proj2 truncate_cuts_at_cursor t). reflexivity.
Defined.

(** ** [len] *)

Lemma flo_seek_end c d p :
  flo_seek 0 2 (mk_flo c d p false) =
  (Ok (Z.of_nat (length d)), mk_flo c d (length d) false).
Proof.
  unfold flo_seek, if_open, set_pos. cbn [flo_closed flo_cls flo_data flo_pos].
  change (2 =? 0) with false. change (2 =? 1) with false.
  change (2 =? 2) with true. cbv iota.
  rewrite Z.add_0_r, of_nat_ltb_0, Nat2Z.id. reflexivity.
Qed.

Lemma recoder_seek_end c d p bb cb lb :
  recoder_seek 0 2 (mk_recoder (mk_flo c d p false) bb cb lb) =
  (Ok tt, mk_recoder (mk_flo c d (length d) false) [] [] None).
Proof.
  unfold recoder_seek, bind, on_stream, set_buffers, ret.
  cbn [stream bytebuffer charbuffer linebuffer].
  rewrite flo_seek_end. cbn [stream bytebuffer charbuffer linebuffer].
  rewrite flo_seek_end. reflexivity.
Qed.

(** X5.  [len] of an open stream in memory is the number of stored
    bytes, for a text stream too (the bytes of its UTF-8 form, not its
    characters); it leaves the bytes and the cursor as they were and the
    stream in memory, and does not depend on what [os.fstat] would say.
    On an open stream on disk it is what [os.fstat] reports. *)
Theorem len_counts_stored_bytes :
  (forall (s : SpooledBytesIO.t) (st_size : Z),
     bytes_is_open s = true ->
     let s' := exec (len st_size) s in
     outcome (len st_size) s =
       Ok (PyInt (if bytes_on_disk s then st_size
                  else Z.of_nat (length (bytes_stored s)))) /\
     bytes_stored s' = bytes_stored s /\
     bytes_cursor s' = bytes_cursor s /\
     bytes_on_disk s' = bytes_on_disk s) /\
  (forall (s : SpooledStringIO.t) (st_size : Z),
     text_is_open s = true ->
     let s' := exec (len st_size) s in
     outcome (len st_size) s =
       Ok (PyInt (if text_on_disk s then st_size
                  else Z.of_nat (length (text_stored s)))) /\
     text_stored s' = text_stored s /\
     text_cursor s' = text_cursor s /\
     text_on_disk s' = text_on_disk s).
Proof.
  split; intros s st_size Hopen; cbv zeta.
  - destruct (bytes_open_inv s Hopen) as [-> | (c & d & p & ->)].
    + repeat split.
    + unfold outcome, exec, len, tell, seek. destruct c.
      * mstep. rewrite flo_seek_end. mstep. rewrite flo_seek_abs.
        repeat split.
      * repeat split.
  - destruct (text_open_inv s Hopen)
      as [-> | (c & d & p & bb & cb & lb & ->)].
    + repeat split.
    + unfold outcome, exec, len, tell, seek. destruct c.
      * mstep. rewrite recoder_seek_end. mstep. rewrite recoder_seek_abs.
        repeat split.
      * repeat split.
Qed.

Lemma len_counts_stored_bytes_witness :
  let b := exec (write (PyBytes [1; 2; 3; 4]) ;;; seek 1 0) (SpooledBytesIO.new 9) in
  let t := exec (write (PyStr [104; 233]) ;;; seek 1 0) (SpooledStringIO.new 9) in
  (outcome (len 0) b = Ok (PyInt 4) /\
   bytes_stored (exec (len 0) b) = [1; 2; 3; 4] /\
   bytes_cursor (exec (len 0) b) = 1%nat /\
   bytes_on_disk (exec (len 0) b) = false) /\
  (outcome (len 0) t = Ok (PyInt 3) /\
   text_stored (exec (len 0) t) = [104; 195; 169] /\
   text_cursor (exec (len 0) t) = 1%nat /\
   text_on_disk (exec (len 0) t) = false).
Proof.
  intros b t. split.
  - apply (proj1 len_counts_stored_bytes b 0). reflexivity.
  - apply (proj2 len_counts_stored_bytes t 0). reflexivity.
Defined.

(** ** Text streams: offsets are byte offsets *)

(** X6.  Writing a text that UTF-8 cannot encode (one with a lone
    surrogate or a number outside the code space) raises
    [UnicodeEncodeError] and changes neither the stored bytes nor the
    cursor nor the backend, whatever the state of the stream. *)
Theorem write_unencodable_text_changes_nothing
  (s : SpooledStringIO.t) (t : text) :
  utf8_encode t = None ->
  outcome (write (PyStr t)) s = Raise UnicodeEncodeError /\
  text_stored (exec (write (PyStr t)) s) = text_stored s /\
  text_cursor (exec (write (PyStr t)) s) = text_cursor s /\
  text_on_disk (exec (write (PyStr t)) s) = text_on_disk s /\
  text_is_open (exec (write (PyStr t)) s) = text_is_open s.
Proof.
  intros Ht. unfold outcome, exec.
  cbn [write SpooledStringIO.SpooledIOBase_t].
  unfold SpooledStringIO.write, str_encode.
  destruct s as [m [r|]]; mstep; rewrite Ht; repeat split.
Qed.

Lemma write_unencodable_text_changes_nothing_witness :
  let s := exec (write (PyStr [104; 233])) (SpooledStringIO.new 10) in
  outcome (write (PyStr [104; 0xD800])) s = Raise UnicodeEncodeError /\
  text_stored (exec (write (PyStr [104; 0xD800])) s) = text_stored s /\
  text_cursor (exec (write (PyStr [104; 0xD800])) s) = text_cursor s /\
  text_on_disk (exec (write (PyStr [104; 0xD800])) s) = text_on_disk s /\
  text_is_open (exec (write (PyStr [104; 0xD800])) s) = text_is_open s.
Proof.
  intros s.
  apply (write_unencodable_text_changes_nothing s [104; 0xD800]).
  reflexivity.
Defined.

(** X7.  On a text stream [tell] counts bytes: after texts are written
    to a new stream it reports the length of their UTF-8 form, not the
    number of characters. *)
Theorem text_tell_counts_bytes (max_size : Z) (ts : list text) (e : bytes) :
  utf8_encode (concat ts) = Some e ->
  outcome (write_all (map PyStr ts) ;;; tell) (SpooledStringIO.new max_size)
  = Ok (length e).
Proof.
  intros He. unfold outcome, bind. destruct ts as [|t ts'].
  - cbn in He. apply Some_inj in He. subst e. reflexivity.
  - rewrite write_all_text_new by discriminate.
    destruct (write_all_text max_size (t :: ts') cls_BytesIO [] e
                utf8_wellformed_nil He) as (c' & Hrun & _).
    unfold EncodedFile, BytesIO. cbn [length] in Hrun. rewrite Hrun.
    reflexivity.
Qed.

Lemma text_tell_counts_bytes_witness :
  outcome (write_all (map PyStr [[104; 233]; [8364]]) ;;; tell)
          (SpooledStringIO.new 100) = Ok 6%nat.
Proof.
  apply (text_tell_counts_bytes 100 [[104; 233]; [8364]]
           [104; 195; 169; 226; 130; 172]).
  reflexivity.
Defined.

(** X8.  [seek(p)] on an open text stream drops whatever the reader had
    read ahead: if the stored bytes from offset [p] on are the UTF-8
    form of a text, the stream then holds that text, and [read()]
    returns it. *)
Theorem text_seek_resynchronises (s : SpooledStringIO.t) (p : Z) (R : text) :
  text_is_open s = true -> 0 <= p ->
  utf8_encode R = Some (skipn (Z.to_nat p) (text_stored s)) ->
  text_holds (exec (seek p 0) s) R /\
  outcome (seek p 0 ;;; read (-1)) s = Ok (PyStr R).
Proof.
  intros Hopen Hp HR.
  assert (Hseek : exists s1, seek p 0 s = (Ok PyNone, s1) /\ text_holds s1 R).
  { destruct (text_open_inv s Hopen)
      as [Hs | (c & d & q & bb & cb & lb & Hs)]; rewrite Hs in HR |- *;
      unfold seek, SpooledStringIO.new; mstep;
      unfold EncodedFile, BytesIO;
      rewrite recoder_seek_nonneg by exact Hp; mstep;
      (eexists; split; [reflexivity|]);
      (split; [exact (utf8_encode_valid _ _ HR)|]);
      (eexists; split; [reflexivity|]);
      (split; [reflexivity|]); (split; [exact I|]);
      exists R; (split; [reflexivity|]); exact HR. }
  destruct Hseek as (s1 & Hseek & Hh).
  destruct (read_text_holds _ R (-1) Hh) as (s' & Hrun & _).
  unfold outcome, exec, bind. rewrite Hseek. cbn [snd].
  split; [exact Hh | now rewrite Hrun].
Qed.

Lemma text_seek_resynchronises_witness :
  let s := exec (write (PyStr [104; 233; 108]) ;;; seek 0 0 ;;; read 2)
                (SpooledStringIO.new 10) in
  text_holds (exec (seek 1 0) s) [233; 108] /\
  outcome (seek 1 0 ;;; read (-1)) s = Ok (PyStr [233; 108]).
Proof.
  intros s.
  apply (text_seek_resynchronises s 1 [233; 108]);
    [reflexivity | lia | reflexivity].
Defined.

Lemma utf8_decode_continuation b rest :
  0x80 <= b <= 0xBF -> utf8_decode false (b :: rest) = DecodeError 0.
Proof.
  intros Hb. unfold utf8_decode. cbn [utf8_scan]. unfold utf8_step.
  run_tests. reflexivity.
Qed.

Lemma utf8_encode_char_tail c ec k :
  utf8_encode_char c = Some ec -> (0 < k < length ec)%nat ->
  exists b rest, skipn k ec = b :: rest /\ 0x80 <= b <= 0xBF.
Proof.
  intros Hc Hk.
  destruct (utf8_encode_char_shape _ _ Hc)
    as [(b1 & -> & H1)
       | [(b1 & b2 & -> & H1 & H2)
         | [(b1 & b2 & b3 & -> & H1 & H2 & H3 & _)
           | (b1 & b2 & b3 & b4 & -> & H1 & H2 & H3 & H4 & _)]]];
    cbn [length] in Hk.
  - lia.
  - destruct k as [|[|k]]; try lia. now exists b2, [].
  - destruct k as [|[|[|k]]]; try lia; [now exists b2, [b3] | now exists b3, []].
  - destruct k as [|[|[|[|k]]]]; try lia;
      [now exists b2, [b3; b4] | now exists b3, [b4] | now exists b4, []].
Qed.

Lemma chunk_cons n b rest :
  n <> 0 -> exists tl, chunk n (b :: rest) = b :: tl.
Proof.
  intros Hn. unfold chunk. destruct (Z.ltb_spec n 0); [now exists rest|].
  destruct (Z.to_nat n) as [|j] eqn:E; [lia|]. now exists (firstn j rest).
Qed.

(** Reading from a cursor that stands on a continuation byte. *)
Lemma reader_read_continuation c d p b rest n :
  skipn p d = b :: rest -> 0x80 <= b <= 0xBF -> n <> 0 ->
  outcome (reader_read n (-1) false)
          (mk_recoder (mk_flo c d p false) [] [] None)
  = Raise (UnicodeDecodeError 0).
Proof.
  intros Hp Hb Hn. unfold outcome, reader_read.
  unfold bind at 1. unfold get at 1. cbn [linebuffer].
  unfold bind at 1. unfold ret at 1. cbn [Z.ltb Z.compare].
  unfold bind at 1. rewrite reader_fill_eq. cbn [charbuffer length].
  replace ((0 <=? n) && (n <=? Z.of_nat 0)) with false
    by (symmetry; apply andb_false_iff; rewrite Z.leb_gt, Z.leb_gt; lia).
  unfold bind at 1. unfold on_stream at 1. cbn [stream].
  rewrite flo_read_chunk, Hp.
  destruct (chunk_cons n b rest Hn) as [tl ->].
  cbn [bytebuffer charbuffer linebuffer stream].
  unfold bind at 1. unfold get at 1. cbn [bytebuffer app].
  rewrite utf8_decode_continuation by exact Hb.
  reflexivity.
Qed.

(** X9.  [seek] and [tell] of a text stream work on bytes, so a cursor
    can be put inside a character: if the stored bytes are [e1], then
    the two to four bytes of one character, then [e2], and the cursor is
    put [k] bytes into that character, then [read(n)] raises
    [UnicodeDecodeError] at once for every [n] other than 0. *)
Theorem text_read_inside_character_fails
  (s : SpooledStringIO.t) (e1 ec e2 : bytes) (c : Z) (k : nat) (n : Z) :
  text_is_open s = true ->
  text_stored s = e1 ++ ec ++ e2 ->
  utf8_encode_char c = Some ec ->
  (0 < k < length ec)%nat ->
  n <> 0 ->
  outcome (seek (Z.of_nat (length e1 + k)) 0 ;;; read n) s
  = Raise (UnicodeDecodeError 0).
Proof.
  intros Hopen Hst Hc Hk Hn.
  destruct (utf8_encode_char_tail _ _ _ Hc Hk) as (b & rest & Htail & Hb).
  destruct (text_open_inv s Hopen)
    as [Hs | (cl & d & q & bb & cb & lb & Hs)]; rewrite Hs in Hst |- *.
  { cbn in Hst. symmetry in Hst. apply app_eq_nil in Hst.
    destruct Hst as [_ Hst]. apply app_eq_nil in Hst. destruct Hst as [-> _].
    cbn [length] in Hk. lia. }
  cbn in Hst. subst d.
  assert (Hskip : skipn (length e1 + k) (e1 ++ ec ++ e2) = b :: rest ++ e2).
  { rewrite skipn_app, skipn_all2 by lia.
    replace (length e1 + k - length e1)%nat with k by lia.
    rewrite skipn_app, Htail.
    replace (k - length ec)%nat with 0%nat by lia. reflexivity. }
  pose proof (reader_read_continuation cl (e1 ++ ec ++ e2) (length e1 + k)
                b (rest ++ e2) n Hskip Hb Hn) as Hread.
  unfold outcome in *. unfold seek. mstep. rewrite recoder_seek_abs. mstep.
  unfold SpooledStringIO.read. mstep. unfold recoder_read. unfold bind at 1.
  destruct (reader_read n (-1) false _) as [[data|e] r']; cbn [fst] in Hread;
    [discriminate|].
  apply (f_equal (fun x => match x with Raise e => e | Ok _ => OutOfFuel end)) in Hread.
  cbn in Hread. subst e. reflexivity.
Qed.

Lemma text_read_inside_character_fails_witness :
  outcome (seek (Z.of_nat (1 + 1)) 0 ;;; read (-1))
          (exec (write (PyStr [104; 233; 108])) (SpooledStringIO.new 10))
  = Raise (UnicodeDecodeError 0).
Proof.
  apply (text_read_inside_character_fails _ [104] [195; 169] [108] 233 1 (-1));
    [reflexivity | reflexivity | reflexivity | simpl; lia | lia].
Defined.

(** ** [SpooledBytesIO.write] *)

Lemma flo_write_open c d p w :
  flo_write w (mk_flo c d p false) =
  (Ok (Z.of_nat (length w)),
   mk_flo c (match w with [] => d | _ => overwrite d p w end)
          (p + length w) false).
Proof.
  unfold flo_write, if_open. cbn [flo_closed flo_cls flo_data flo_pos].
  destruct w; [now rewrite Nat.add_0_r | reflexivity].
Qed.

Lemma write_bytes_open m c d p w :
  write (PyBytes w) (SpooledBytesIO.mk m (Some (mk_flo c d p false))) =
  (Ok tt,
   SpooledBytesIO.mk m
     (Some (mk_flo (if m <=? Z.of_nat (p + length w)
                    then cls_TemporaryFile else c)
                   (match w with [] => d | _ => overwrite d p w end)
                   (p + length w) false))).
Proof.
  cbn [write SpooledBytesIO.SpooledIOBase_t].
  unfold SpooledBytesIO.write, tell. mstep.
  rewrite flo_write_open. mstep.
  destruct (m <=? _); [|reflexivity].
  destruct c; [apply rollover_bytes_in_memory | reflexivity].
Qed.



(** ** Reading before and after [rollover] *)

Lemma rollover_bytes_new m :
  rollover (SpooledBytesIO.new m) =
  (Ok tt, SpooledBytesIO.mk m (Some TemporaryFile)).
Proof. reflexivity. Qed.

Lemma flo_read_cls_free n c c' d p :
  -1 <= n ->
  fst (flo_read n (mk_flo c d p false)) = fst (flo_read n (mk_flo c' d p false)) /\
  flo_data (snd (flo_read n (mk_flo c d p false)))
  = flo_data (snd (flo_read n (mk_flo c' d p false))) /\
  flo_pos (snd (flo_read n (mk_flo c d p false)))
  = flo_pos (snd (flo_read n (mk_flo c' d p false))).
Proof.
  intros Hn. unfold flo_read, if_open. cbn [flo_closed].
  replace (n <? -1) with false by (symmetry; apply Z.ltb_ge; lia).
  repeat split.
Qed.

(** X11.  Going to disk does not show in what an open byte stream
    returns: [read(n)] for [n >= -1], [readline], [tell] and [getvalue]
    return the same after [rollover] as without it, and leave the same
    bytes and the same cursor. *)
Theorem rollover_transparent_to_byte_reads (s : SpooledBytesIO.t) :
  bytes_is_open s = true ->
  (forall n, -1 <= n ->
     outcome (rollover ;;; read n) s = outcome (read n) s /\
     bytes_stored (exec (rollover ;;; read n) s) = bytes_stored (exec (read n) s) /\
     bytes_cursor (exec (rollover ;;; read n) s) = bytes_cursor (exec (read n) s)) /\
  (forall length,
     outcome (rollover ;;; readline length) s = outcome (readline length) s /\
     bytes_stored (exec (rollover ;;; readline length) s)
     = bytes_stored (exec (readline length) s) /\
     bytes_cursor (exec (rollover ;;; readline length) s)
     = bytes_cursor (exec (readline length) s)) /\
  outcome (rollover ;;; tell) s = outcome tell s /\
  outcome (rollover ;;; getvalue) s = outcome getvalue s.
Proof.
  intros Hopen.
  assert (Hrun : exists c d p,
             (forall A (m : M SpooledBytesIO.t A),
                (rollover ;;; m) s =
                m (SpooledBytesIO.mk (SpooledBytesIO._max_size s)
                     (Some (mk_flo cls_TemporaryFile d p false)))) /\
             (forall n, read n s =
                read n (SpooledBytesIO.mk (SpooledBytesIO._max_size s)
                          (Some (mk_flo c d p false)))) /\
             (forall l, readline l s =
                readline l (SpooledBytesIO.mk (SpooledBytesIO._max_size s)
                              (Some (mk_flo c d p false)))) /\
             tell s = tell (SpooledBytesIO.mk (SpooledBytesIO._max_size s)
                              (Some (mk_flo c d p false))) /\
             getvalue s =
               getvalue (SpooledBytesIO.mk (SpooledBytesIO._max_size s)
                           (Some (mk_flo c d p false)))).
  { destruct (bytes_open_inv s Hopen) as [Hs | (c & d & p & Hs)]; rewrite Hs.
    - exists cls_BytesIO, [], 0%nat. repeat split.
    - exists c, d, p. cbn [SpooledBytesIO._max_size]. split; [|repeat split].
      intros A m. unfold bind. destruct c.
      + now rewrite rollover_bytes_in_memory.
      + now rewrite rollover_bytes_rolled. }
  destruct Hrun as (c & d & p & Hroll & Hread & Hline & Htell & Hget).
  unfold outcome, exec. rewrite !Hroll, Htell, Hget.
  split; [|split; [|split]].
  - intros n Hn. rewrite Hroll, Hread.
    cbn [read SpooledBytesIO.SpooledIOBase_t]. unfold SpooledBytesIO.read.
    mstep.
    destruct (flo_read_cls_free n cls_TemporaryFile c d p Hn) as (H1 & H2 & H3).
    destruct (flo_read n (mk_flo cls_TemporaryFile d p false)) as [[x|e] f1],
             (flo_read n (mk_flo c d p false)) as [[y|e'] f2];
      cbn [fst snd] in *; try discriminate;
      mstep; repeat split; congruence.
  - intros l. rewrite Hroll, Hline. repeat split.
  - reflexivity.
  - now rewrite !getvalue_bytes_open.
Qed.

Lemma rollover_transparent_to_byte_reads_witness :
  let s := exec (write (PyBytes [1; 10; 3; 4; 5]) ;;; seek 1 0)
                (SpooledBytesIO.new 10) in
  outcome (rollover ;;; read 2) s = Ok (PyBytes [10; 3]) /\
  outcome (rollover ;;; readline None) s = Ok (PyBytes [10]) /\
  outcome (rollover ;;; tell) s = Ok 1%nat /\
  outcome (rollover ;;; getvalue) s = Ok (PyBytes [1; 10; 3; 4; 5]).
Proof.
  intros s.
  destruct (rollover_transparent_to_byte_reads s eq_refl)
    as (Hread & Hline & Htell & Hget).
  split; [|split; [|split]].
  - rewrite (proj1 (Hread 2 ltac:(lia))). reflexivity.
  - rewrite (proj1 (Hline None)). reflexivity.
  - rewrite Htell. reflexivity.
  - rewrite Hget. reflexivity.
Defined.

(** ** Closed streams *)

(** X12.  Once a byte stream is closed, every method that reaches the
    backend raises [ValueError] and leaves the stream as it is: [read],
    [readline], [readlines], [tell], [seek], [write] of bytes,
    [truncate] (without a size or with one that is not negative),
    [getvalue], [flush], [isatty], [fileno], [len] and [next].  [close]
    can be called again, and [closed] reports [True]. *)
Theorem closed_byte_stream_raises (s : SpooledBytesIO.t) :
  bytes_is_open s = false ->
  (forall n, read n s = (Raise ValueError, s)) /\
  (forall length, readline length s = (Raise ValueError, s)) /\
  (forall sizehint, readlines sizehint s = (Raise ValueError, s)) /\
  tell s = (Raise ValueError, s) /\
  (forall pos mode, seek pos mode s = (Raise ValueError, s)) /\
  (forall w, write (PyBytes w) s = (Raise ValueError, s)) /\
  truncate None s = (Raise ValueError, s) /\
  (forall size, 0 <= size -> truncate (Some size) s = (Raise ValueError, s)) /\
  getvalue s = (Raise ValueError, s) /\
  flush s = (Raise ValueError, s) /\
  isatty s = (Raise ValueError, s) /\
  fileno s = (Raise ValueError, s) /\
  (forall st_size, len st_size s = (Raise ValueError, s)) /\
  next s = (Raise ValueError, s) /\
  close s = (Ok tt, s) /\
  closed s = (Ok true, s).
Proof.
  destruct s as [m [[c d p []]|]]; cbn [bytes_is_open SpooledBytesIO.__buffer
    flo_closed negb]; intros Hc; try discriminate.
  repeat split; try reflexivity.
  - intros size Hsize. unfold truncate.
    replace (size <? 0) with false by (symmetry; apply Z.ltb_ge; lia).
    reflexivity.
  - destruct c; reflexivity.
  - intros st_size. destruct c; reflexivity.
Qed.

Lemma closed_byte_stream_raises_witness :
  let s := exec (write (PyBytes [1; 2; 3]) ;;; close) (SpooledBytesIO.new 10) in
  read (-1) s = (Raise ValueError, s) /\
  write (PyBytes [4]) s = (Raise ValueError, s) /\
  getvalue s = (Raise ValueError, s) /\
  closed s = (Ok true, s).
Proof.
  intros s.
  pose proof (closed_byte_stream_raises s eq_refl) as H.
  split; [exact (proj1 H (-1))|].
  split; [exact (proj1 (proj2 (proj2 (proj2 (proj2 (proj2 H))))) [4])|].
  split; [exact (proj1 (proj2 (proj2 (proj2 (proj2 (proj2 (proj2 (proj2 (proj2 H)))))))))|].
  exact (proj2 (proj2 (proj2 (proj2 (proj2 (proj2 (proj2 (proj2 (proj2 (proj2
           (proj2 (proj2 (proj2 (proj2 (proj2 H))))))))))))))).
Defined.

(** X13.  On a closed text stream the methods that go to the wrapped
    stream first raise [ValueError] and leave the stream as it is:
    [tell], [seek], [write] of a text that UTF-8 encodes, [truncate],
    [getvalue], [flush], [isatty], [fileno] and [len].  [close] can be
    called again, and [closed] reports [True]. *)
Theorem closed_text_stream_raises (s : SpooledStringIO.t) :
  text_is_open s = false ->
  tell s = (Raise ValueError, s) /\
  (forall pos mode, seek pos mode s = (Raise ValueError, s)) /\
  (forall t e, utf8_encode t = Some e ->
     write (PyStr t) s = (Raise ValueError, s)) /\
  truncate None s = (Raise ValueError, s) /\
  (forall size, 0 <= size -> truncate (Some size) s = (Raise ValueError, s)) /\
  getvalue s = (Raise ValueError, s) /\
  flush s = (Raise ValueError, s) /\
  isatty s = (Raise ValueError, s) /\
  fileno s = (Raise ValueError, s) /\
  (forall st_size, len st_size s = (Raise ValueError, s)) /\
  close s = (Ok tt, s) /\
  closed s = (Ok true, s).
Proof.
  destruct s as [m [[[c d p []] bb cb lb]|]];
    cbn [text_is_open SpooledStringIO.__buffer stream flo_closed negb];
    intros Hc; try discriminate.
  repeat split; try reflexivity.
  - intros t e He. cbn [write SpooledStringIO.SpooledIOBase_t].
    unfold SpooledStringIO.write, str_encode. mstep. rewrite He. mstep.
    unfold recoder_write, bytes_decode, str_encode, bind.
    rewrite (utf8_decode_encode _ _ true He). unfold ret at 1.
    rewrite He. reflexivity.
  - intros size Hsize. unfold truncate.
    replace (size <? 0) with false by (symmetry; apply Z.ltb_ge; lia).
    reflexivity.
  - destruct c; reflexivity.
  - intros st_size. destruct c; reflexivity.
Qed.

Lemma closed_text_stream_raises_witness :
  let s := exec (write (PyStr [104; 233]) ;;; close) (SpooledStringIO.new 10) in
  tell s = (Raise ValueError, s) /\
  write (PyStr [108]) s = (Raise ValueError, s) /\
  closed s = (Ok true, s).
Proof.
  intros s.
  pose proof (closed_text_stream_raises s eq_refl) as H.
  split; [exact (proj1 H)|].
  split; [exact (proj1 (proj2 (proj2 H)) [108] [108] eq_refl)|].
  exact (proj2 (proj2 (proj2 (proj2 (proj2 (proj2 (proj2 (proj2 (proj2 (proj2
           (proj2 H))))))))))).
Defined.

(** ** [with] blocks *)


(** ** Lines of a byte stream *)

Lemma splitlines_LF_at_lf cur l :
  splitlines_from is_LF true cur (10 :: l)
  = rev (10 :: cur) :: splitlines_from is_LF true [] l.
Proof. destruct l; reflexivity. Qed.

Lemma splitlines_LF_at_other c cur l :
  c <> 10 ->
  splitlines_from is_LF true cur (c :: l)
  = splitlines_from is_LF true (c :: cur) l.
Proof.
  intros Hc. cbn [splitlines_from]. unfold is_LF.
  now replace (c =? 10) with false by (symmetry; now apply Z.eqb_neq).
Qed.

Lemma one_line_closed u : ~ In 10 u -> one_line (u ++ [10]).
Proof.
  induction u as [|h u IH]; intros Hu a b Hab.
  - destruct a as [|x a]; cbn in Hab; [congruence|].
    injection Hab as _ Hab. destruct a; discriminate.
  - destruct a as [|x a]; cbn in Hab.
    + injection Hab as Hh _. exfalso. apply Hu. now left.
    + injection Hab as _ Hab. apply (IH (fun H => Hu (or_intror H)) a b Hab).
Qed.

Lemma one_line_open u : ~ In 10 u -> one_line u.
Proof.
  intros Hu a b Hab. exfalso. apply Hu. rewrite Hab.
  apply in_or_app. right. now left.
Qed.

Lemma splitlines_LF_lines : forall l cur,
  ~ In 10 cur ->
  Forall one_line (splitlines_from is_LF true cur l) /\
  (forall x, In x (removelast (splitlines_from is_LF true cur l)) ->
             ends_with_LF x).
Proof.
  induction l as [|c l IH]; intros cur Hcur.
  - cbn [splitlines_from]. destruct cur as [|h cur'].
    + split; [constructor | intros x []].
    + split; [|intros x []]. constructor; [|constructor].
      apply one_line_open. now rewrite <- in_rev.
  - destruct (Z.eq_dec c 10) as [->|Hc].
    + rewrite splitlines_LF_at_lf. cbn [rev].
      destruct (IH [] (fun H => H)) as [Hall Hlast]. split.
      * constructor; [|exact Hall]. apply one_line_closed.
        now rewrite <- in_rev.
      * intros x Hx.
        destruct (splitlines_from is_LF true [] l) as [|y ys] eqn:E;
          [destruct Hx|].
        cbn [removelast] in Hx. destruct Hx as [<- | Hx].
        -- now exists (rev cur).
        -- apply Hlast. exact Hx.
    + rewrite splitlines_LF_at_other by exact Hc. apply IH.
      intros [H|H]; [congruence | now apply Hcur].
Qed.

Lemma bytes_readlines_open m c d p sizehint :
  sizehint <= 0 ->
  readlines sizehint (SpooledBytesIO.mk m (Some (mk_flo c d p false))) =
  (Ok (map PyBytes (splitlines_from is_LF true [] (skipn p d))),
   SpooledBytesIO.mk m
     (Some (mk_flo c d (p + length (skipn p d)) false))).
Proof.
  intros Hh. cbn [readlines SpooledBytesIO.SpooledIOBase_t].
  unfold SpooledBytesIO.readlines. mstep.
  unfold flo_readlines, if_open, set_pos.
  cbn [flo_closed flo_cls flo_data flo_pos].
  replace (sizehint <=? 0) with true by (symmetry; apply Z.leb_le; lia).
  rewrite (concat_splitlines_from is_LF _ _ [] (Nat.le_refl _)).
  reflexivity.
Qed.

(** X15.  [readlines()] of an open byte stream returns everything from
    the cursor to the end, cut after each line feed: the lines put
    together are those bytes, no line is empty, a line feed occurs only
    as the last byte of a line, and every line but the last ends with
    one.  The cursor is then at the end of what was read, the stored
    bytes are untouched. *)
Theorem byte_readlines_partition (s : SpooledBytesIO.t) (sizehint : Z) :
  bytes_is_open s = true -> sizehint <= 0 ->
  let rest := skipn (bytes_cursor s) (bytes_stored s) in
  exists ls,
    outcome (readlines sizehint) s = Ok (map PyBytes ls) /\
    concat ls = rest /\
    Forall (fun l => l <> []) ls /\
    Forall one_line ls /\
    (forall l, In l (removelast ls) -> ends_with_LF l) /\
    bytes_cursor (exec (readlines sizehint) s)
    = (bytes_cursor s + length rest)%nat /\
    bytes_stored (exec (readlines sizehint) s) = bytes_stored s.
Proof.
  intros Hopen Hh. cbv zeta.
  assert (Hrun : exists c d p,
             bytes_stored s = d /\ bytes_cursor s = p /\
             readlines sizehint s =
             readlines sizehint
               (SpooledBytesIO.mk (SpooledBytesIO._max_size s)
                  (Some (mk_flo c d p false)))).
  { destruct (bytes_open_inv s Hopen) as [Hs | (c & d & p & Hs)]; rewrite Hs.
    - exists cls_BytesIO, [], 0%nat. repeat split.
    - exists c, d, p. repeat split. }
  destruct Hrun as (c & d & p & -> & -> & Hrun).
  exists (splitlines_from is_LF true [] (skipn p d)).
  unfold outcome, exec. rewrite Hrun, bytes_readlines_open by exact Hh.
  destruct (splitlines_LF_lines (skipn p d) [] (fun H => H)) as [Hone Hlast].
  split; [reflexivity|].
  split; [exact (concat_splitlines_from is_LF _ _ [] (Nat.le_refl _))|].
  split; [exact (splitlines_from_nonempty is_LF _ _ [] (Nat.le_refl _))|].
  split; [exact Hone|]. split; [exact Hlast|]. split; reflexivity.
Qed.

Lemma byte_readlines_partition_witness :
  let s := exec (write (PyBytes [97; 10; 98; 10; 99]) ;;; seek 1 0)
                (SpooledBytesIO.new 4) in
  exists ls,
    outcome (readlines 0) s = Ok (map PyBytes ls) /\
    concat ls = [10; 98; 10; 99] /\
    Forall (fun l => l <> []) ls /\
    Forall one_line ls /\
    (forall l, In l (removelast ls) -> ends_with_LF l) /\
    bytes_cursor (exec (readlines 0) s) = 5%nat /\
    bytes_stored (exec (readlines 0) s) = [97; 10; 98; 10; 99].
Proof.
  intros s. apply (byte_readlines_partition s 0); [reflexivity | lia].
Defined.

Lemma bytes_readline_open m c d p size :
  readline size (SpooledBytesIO.mk m (Some (mk_flo c d p false))) =
  let line := hd [] (splitlines_from is_LF true [] (skipn p d)) in
  let r := match size with
           | Some n => if n <? 0 then line else firstn (Z.to_nat n) line
           | None => line
           end in
  (Ok (PyBytes r),
   SpooledBytesIO.mk m (Some (mk_flo c d (p + length r) false))).
Proof. reflexivity. Qed.

(** X16.  [readline()] of an open byte stream returns the bytes from the
    cursor up to and including the next line feed, or up to the end if
    there is none, and moves the cursor behind them; it returns nothing
    only at the end of the data.  [readline(n)] with [n >= 0] returns
    the first [n] bytes of that line. *)
Theorem byte_readline_next_line (s : SpooledBytesIO.t) :
  bytes_is_open s = true ->
  let rest := skipn (bytes_cursor s) (bytes_stored s) in
  exists L R',
    rest = L ++ R' /\
    one_line L /\
    (R' <> [] -> ends_with_LF L) /\
    (rest <> [] -> L <> []) /\
    outcome (readline None) s = Ok (PyBytes L) /\
    bytes_cursor (exec (readline None) s) = (bytes_cursor s + length L)%nat /\
    (forall n, 0 <= n ->
       outcome (readline (Some n)) s = Ok (PyBytes (firstn (Z.to_nat n) L)) /\
       bytes_cursor (exec (readline (Some n)) s)
       = (bytes_cursor s + length (firstn (Z.to_nat n) L))%nat).
Proof.
  intros Hopen. cbv zeta.
  assert (Hrun : exists c d p,
             bytes_stored s = d /\ bytes_cursor s = p /\
             forall size, readline size s =
               readline size
                 (SpooledBytesIO.mk (SpooledBytesIO._max_size s)
                    (Some (mk_flo c d p false)))).
  { destruct (bytes_open_inv s Hopen) as [Hs | (c & d & p & Hs)]; rewrite Hs.
    - exists cls_BytesIO, [], 0%nat. repeat split.
    - exists c, d, p. repeat split. }
  destruct Hrun as (c & d & p & -> & -> & Hrun).
  pose proof (concat_splitlines_from is_LF _ (skipn p d) [] (Nat.le_refl _))
    as Hcat.
  pose proof (splitlines_from_nonempty is_LF _ (skipn p d) [] (Nat.le_refl _))
    as Hne.
  destruct (splitlines_LF_lines (skipn p d) [] (fun H => H)) as [Hone Hlast].
  unfold outcome, exec. setoid_rewrite Hrun.
  setoid_rewrite bytes_readline_open. cbv zeta.
  destruct (splitlines_from is_LF true [] (skipn p d)) as [|L tl];
    cbn [hd rev app concat] in *.
  - exists [], []. rewrite <- Hcat.
    split; [reflexivity|]. split; [intros a b H; now destruct a|].
    split; [congruence|]. split; [congruence|].
    split; [reflexivity|]. split; [reflexivity|].
    intros n Hn. replace (n <? 0) with false by (symmetry; apply Z.ltb_ge; lia).
    now rewrite firstn_nil.
  - exists L, (concat tl). split; [now rewrite <- Hcat|].
    split; [exact (Forall_inv Hone)|]. split.
    { intros Htl. apply Hlast. destruct tl as [|y ys]; [now cbn in Htl|].
      now left. }
    split; [intros _; exact (Forall_inv Hne)|].
    split; [reflexivity|]. split; [reflexivity|].
    intros n Hn. replace (n <? 0) with false by (symmetry; apply Z.ltb_ge; lia).
    split; reflexivity.
Qed.

Lemma byte_readline_next_line_witness :
  let s := exec (write (PyBytes [97; 10; 98; 10; 99]) ;;; seek 2 0)
                (SpooledBytesIO.new 4) in
  exists L R',
    [98; 10; 99] = L ++ R' /\
    one_line L /\
    (R' <> [] -> ends_with_LF L) /\
    ([98; 10; 99] <> [] -> L <> []) /\
    outcome (readline None) s = Ok (PyBytes L) /\
    bytes_cursor (exec (readline None) s) = (2 + length L)%nat /\
    (forall n, 0 <= n ->
       outcome (readline (Some n)) s = Ok (PyBytes (firstn (Z.to_nat n) L)) /\
       bytes_cursor (exec (readline (Some n)) s)
       = (2 + length (firstn (Z.to_nat n) L))%nat).
Proof.
  intros s. apply (byte_readline_next_line s). reflexivity.
Defined.

(** ** Runs of calls *)

Section Keeps.
Context {S : Type} (P : S -> S -> Prop).
Hypothesis P_refl : forall s, P s s.
Hypothesis P_trans : forall a b c, P a b -> P b c -> P a c.

Lemma keeps_ret {A} (a : A) : keeps P (ret a).
Proof. intros s. apply P_refl. Qed.

Lemma keeps_raise {A} (e : exn) : keeps P (@raise S A e).
Proof. intros s. apply P_refl. Qed.

Lemma keeps_get : keeps P get.
Proof. intros s. apply P_refl. Qed.

Lemma keeps_bind {A B} (m : M S A) (k : A -> M S B) :
  keeps P m -> (forall a, keeps P (k a)) -> keeps P (bind m k).
Proof.
  intros Hm Hk s. specialize (Hm s). unfold bind.
  destruct (m s) as [[a|e] s1]; cbn [snd] in *; [|exact Hm].
  exact (P_trans _ _ _ Hm (Hk a s1)).
Qed.

Lemma keeps_local {L A} (m : M L A) (l : L) : keeps P (local m l).
Proof.
  intros s. unfold local. destruct (m l) as [[a|e] l']; apply P_refl.
Qed.
End Keeps.

Lemma flo_step_refl f : flo_step f f.
Proof. split; [reflexivity | intros _; apply Nat.le_refl]. Qed.

Lemma flo_step_trans a b c : flo_step a b -> flo_step b c -> flo_step a c.
Proof.
  intros [H1 H2] [H3 H4]. split; [congruence|].
  intros Ha. specialize (H2 Ha). rewrite <- H1 in Ha. specialize (H4 Ha). lia.
Qed.

Lemma bytes_step_refl s : bytes_step s s.
Proof. split; [reflexivity|]. split; [trivial|]. intros _. left. apply Nat.le_refl. Qed.

Lemma bytes_step_trans a b c : bytes_step a b -> bytes_step b c -> bytes_step a c.
Proof.
  intros (H1 & H2 & H3) (H4 & H5 & H6). split; [congruence|].
  split; [auto|]. intros Hc. rewrite H1 in H6.
  assert (Hb : bytes_on_disk b = false).
  { destruct (bytes_on_disk b); [|reflexivity]. rewrite H5 in Hc; congruence. }
  destruct (H6 Hc) as [H|H]; [|now right].
  destruct (H3 Hb) as [H'|H']; [left | right]; lia.
Qed.

Lemma recoder_step_refl r : recoder_step r r.
Proof. reflexivity. Qed.

Lemma recoder_step_trans a b c :
  recoder_step a b -> recoder_step b c -> recoder_step a c.
Proof. unfold recoder_step. congruence. Qed.

Lemma text_step_refl s : text_step s s.
Proof. intros H. exact H. Qed.

Lemma text_step_trans a b c : text_step a b -> text_step b c -> text_step a c.
Proof. unfold text_step. auto. Qed.

(** The methods of a file. *)
Lemma keeps_if_open {A} (m : M flo A) : keeps flo_step m -> keeps flo_step (if_open m).
Proof.
  intros Hm f. unfold if_open. destruct (flo_closed f); [apply flo_step_refl | apply Hm].
Qed.

Lemma flo_step_same_data f p cl :
  flo_step f (mk_flo (flo_cls f) (flo_data f) p cl).
Proof. split; [reflexivity | intros _; apply Nat.le_refl]. Qed.

Lemma keeps_flo_tell : keeps flo_step flo_tell.
Proof. apply keeps_if_open. intros f. apply flo_step_refl. Qed.

Lemma keeps_flo_seek o w : keeps flo_step (flo_seek o w).
Proof.
  apply keeps_if_open. intros [c d p cl]. cbv beta zeta.
  cbn [flo_cls flo_pos flo_data].
  repeat match goal with
  | |- context [if ?b then _ else _] => destruct b
  end; cbn [snd];
    first [apply flo_step_refl
          | exact (flo_step_same_data (mk_flo _ d p cl) _ cl)].
Qed.

Lemma keeps_flo_read n : keeps flo_step (flo_read n).
Proof.
  apply keeps_if_open. intros f. cbv beta zeta.
  destruct (_ && _); cbn [snd]; [apply flo_step_refl | apply flo_step_same_data].
Qed.

Lemma keeps_flo_readline size : keeps flo_step (flo_readline size).
Proof. apply keeps_if_open. intros f. apply flo_step_same_data. Qed.

Lemma keeps_flo_readlines hint : keeps flo_step (flo_readlines hint).
Proof. apply keeps_if_open. intros f. apply flo_step_same_data. Qed.

Lemma keeps_flo_truncate size : keeps flo_step (flo_truncate size).
Proof.
  apply keeps_if_open. intros [c d p cl].
  cbn [flo_cls flo_data flo_pos].
  destruct (_ <? 0); [destruct c; apply flo_step_refl|].
  destruct c; cbn [snd]; split; try reflexivity; cbn [flo_cls flo_data];
    intros Hc; try discriminate.
  unfold set_data. cbn [flo_data]. rewrite length_firstn. lia.
Qed.

Lemma keeps_flo_close : keeps flo_step flo_close.
Proof. intros f. apply flo_step_same_data. Qed.

Lemma keeps_flo_fileno : keeps flo_step flo_fileno.
Proof.
  intros f. unfold flo_fileno. destruct (flo_cls f); [apply flo_step_refl|].
  destruct (flo_closed f); apply flo_step_refl.
Qed.

Lemma keeps_fl_seek o w : keeps flo_step (fl_seek (B := flo) o w).
Proof.
  cbn [fl_seek flo_FileLike].
  apply (keeps_bind _ flo_step_trans); [apply keeps_flo_seek|].
  intros a. apply (keeps_ret _ flo_step_refl).
Qed.

Lemma keeps_fl_flush : keeps flo_step (fl_flush (B := flo)).
Proof. apply keeps_if_open. apply (keeps_ret _ flo_step_refl). Qed.

Lemma keeps_fl_isatty : keeps flo_step (fl_isatty (B := flo)).
Proof. apply keeps_if_open. apply (keeps_ret _ flo_step_refl). Qed.

Lemma keeps_fl_closed : keeps flo_step (fl_closed (B := flo)).
Proof. intros f. apply flo_step_refl. Qed.

(** A call on the buffer of a byte stream. *)
Lemma keeps_bytes_on_buffer {A} (m : M flo A) :
  keeps flo_step m -> keeps bytes_step (on_buffer (S := SpooledBytesIO.t) m).
Proof.
  intros Hm [ms buf].
  assert (Hrun : exists f,
             bytes_stored (SpooledBytesIO.mk ms buf) = flo_data f /\
             bytes_on_disk (SpooledBytesIO.mk ms buf) = negb (isinstance_BytesIO f) /\
             snd (on_buffer (S := SpooledBytesIO.t) m
                            (SpooledBytesIO.mk ms buf)) =
             SpooledBytesIO.mk ms (Some (snd (m f)))).
  { destruct buf as [f|]; [exists f | exists BytesIO];
      (split; [reflexivity|]); (split; [reflexivity|]);
      unfold on_buffer, bind; cbn;
      match goal with |- context [m ?f] => destruct (m f) as [[a|e] f'] end;
      reflexivity. }
  destruct Hrun as (f & Hd & Hc & ->). specialize (Hm f).
  destruct Hm as [H1 H2]. unfold bytes_step. rewrite Hd, Hc.
  cbn [SpooledBytesIO._max_size bytes_on_disk bytes_stored
       SpooledBytesIO.__buffer].
  unfold isinstance_BytesIO in *. rewrite H1.
  split; [reflexivity|]. split; [trivial|].
  intros Hf. left. apply H2. now destruct (flo_cls f).
Qed.

Ltac keeps_flo :=
  first [ apply keeps_flo_tell | apply keeps_fl_seek | apply keeps_flo_seek
        | apply keeps_flo_read | apply keeps_flo_readline
        | apply keeps_flo_readlines | apply keeps_flo_truncate
        | apply keeps_flo_close | apply keeps_flo_fileno
        | apply keeps_fl_flush | apply keeps_fl_isatty
        | apply keeps_fl_closed ].

Ltac keeps_bytes :=
  repeat match goal with
  | |- keeps _ (on_buffer _) => apply keeps_bytes_on_buffer; keeps_flo
  | |- keeps _ (bind _ _) => apply (keeps_bind _ bytes_step_trans); [|intros ?]
  | |- keeps _ (ret _) => apply (keeps_ret _ bytes_step_refl)
  | |- keeps _ (raise _) => apply (keeps_raise _ bytes_step_refl)
  | |- keeps _ get => apply (keeps_get _ bytes_step_refl)
  | |- keeps _ (if ?b then _ else _) => destruct b
  | |- keeps _ (match ?x with _ => _ end) => destruct x
  end.

Lemma length_overwrite d p w :
  length (overwrite d p w) = Nat.max (length d) (p + length w).
Proof.
  unfold overwrite.
  rewrite !length_app, length_firstn, repeat_length, length_skipn. lia.
Qed.

Lemma keeps_bytes_rollover : keeps bytes_step (rollover (S := SpooledBytesIO.t)).
Proof.
  intros [m [[[] d p []]|]].
  - apply bytes_step_refl.
  - rewrite rollover_bytes_in_memory. cbn [snd].
    split; [reflexivity|]. split; [reflexivity | discriminate].
  - apply bytes_step_refl.
  - apply bytes_step_refl.
  - split; [reflexivity|]. split; [reflexivity | discriminate].
Qed.

Lemma keeps_bytes_write v : keeps bytes_step (write (S := SpooledBytesIO.t) v).
Proof.
  destruct v as [| |w|]; try (intros s; apply bytes_step_refl).
  assert (Hopen : forall m c d p,
             bytes_step (SpooledBytesIO.mk m (Some (mk_flo c d p false)))
               (snd (write (PyBytes w)
                       (SpooledBytesIO.mk m (Some (mk_flo c d p false)))))).
  { intros m c d p. rewrite write_bytes_open. cbn [snd].
    split; [reflexivity|].
    cbn [bytes_on_disk bytes_stored SpooledBytesIO.__buffer
         SpooledBytesIO._max_size flo_data].
    unfold isinstance_BytesIO. cbn [flo_cls].
    destruct (Z.leb_spec m (Z.of_nat (p + length w))) as [Hm|Hm].
    - split; [reflexivity | discriminate].
    - split; [trivial|]. intros _.
      destruct w as [|x w']; [left; apply Nat.le_refl|].
      rewrite length_overwrite. lia. }
  intros [m [[c d p []]|]].
  - apply bytes_step_refl.
  - apply Hopen.
  - specialize (Hopen m cls_BytesIO [] 0%nat).
    destruct Hopen as (H1 & H2 & H3). split; [exact H1|]. now split.
Qed.

Lemma keeps_bytes_rolled : keeps bytes_step (_rolled (S := SpooledBytesIO.t)).
Proof.
  intros [m [f|]]; [apply bytes_step_refl|].
  split; [reflexivity|]. split; [trivial|]. intros _. left. apply Nat.le_refl.
Qed.

Lemma keeps_bytes_getvalue : keeps bytes_step (getvalue (T := SpooledBytesIO.t)).
Proof.
  unfold getvalue, tell, seek.
  cbn [read SpooledBytesIO.SpooledIOBase_t]. unfold SpooledBytesIO.read.
  keeps_bytes.
Qed.

Lemma eq_bytes_step (s : SpooledBytesIO.t) (other : pyobject) :
  bytes_step s (fst (snd (__eq__ (s, other)))).
Proof.
  unfold __eq__. destruct other as [S' HS' o|v]; [|apply bytes_step_refl].
  pose proof (keeps_bytes_getvalue s) as H.
  destruct (getvalue s) as [[v1|e] s']; cbn [snd] in H;
    [destruct (getvalue o) as [[v2|e] o']|]; exact H.
Qed.

Lemma keeps_bytes_call (c : call) :
  keeps bytes_step (do_call (T := SpooledBytesIO.t) c).
Proof.
  destruct c; unfold do_call.
  - cbn [read SpooledBytesIO.SpooledIOBase_t]. unfold SpooledBytesIO.read.
    keeps_bytes.
  - apply keeps_bytes_write.
  - cbn [readline SpooledBytesIO.SpooledIOBase_t].
    unfold SpooledBytesIO.readline. keeps_bytes.
  - cbn [readlines SpooledBytesIO.SpooledIOBase_t].
    unfold SpooledBytesIO.readlines. keeps_bytes.
  - apply keeps_bytes_rollover.
  - unfold tell. keeps_bytes.
  - unfold seek. keeps_bytes.
  - unfold close. keeps_bytes.
  - unfold flush. keeps_bytes.
  - unfold isatty. keeps_bytes.
  - unfold next. cbn [readline SpooledBytesIO.SpooledIOBase_t].
    unfold SpooledBytesIO.readline. keeps_bytes.
  - unfold closed. keeps_bytes.
  - unfold pos, tell. keeps_bytes.
  - unfold buf, getvalue, tell, seek.
    cbn [read SpooledBytesIO.SpooledIOBase_t]. unfold SpooledBytesIO.read.
    keeps_bytes.
  - unfold len, fileno, tell, seek.
    apply (keeps_bind _ bytes_step_trans).
    + apply (keeps_bind _ bytes_step_trans); [apply keeps_bytes_rolled|].
      intros b. destruct b.
      * apply (keeps_bind _ bytes_step_trans).
        -- apply (keeps_bind _ bytes_step_trans);
             [apply keeps_bytes_rollover | intros ?; keeps_bytes].
        -- intros ?. keeps_bytes.
      * keeps_bytes.
    + intros ?. keeps_bytes.
  - unfold fileno.
    apply (keeps_bind _ bytes_step_trans).
    + apply (keeps_bind _ bytes_step_trans);
        [apply keeps_bytes_rollover | intros ?; keeps_bytes].
    + intros ?. keeps_bytes.
  - unfold truncate, tell, seek. keeps_bytes.
  - unfold getvalue, tell, seek.
    cbn [read SpooledBytesIO.SpooledIOBase_t]. unfold SpooledBytesIO.read.
    keeps_bytes.
  - unfold __iter__. cbn [generator_list generator_next].
    cbn [readline SpooledBytesIO.SpooledIOBase_t].
    unfold SpooledBytesIO.readline. keeps_bytes.
    destruct g; cbn [generator_next readline SpooledBytesIO.SpooledIOBase_t];
      unfold SpooledBytesIO.readline; keeps_bytes.
  - unfold __enter__. keeps_bytes.
  - unfold __exit__. keeps_bytes.
  - intros s. pose proof (eq_bytes_step s other) as H.
    destruct (__eq__ (s, other)) as [r [s' o]]. exact H.
  - intros s. pose proof (eq_bytes_step s other) as H.
    unfold __ne__, bind.
    destruct (__eq__ (s, other)) as [[b|e] [s' o]]; exact H.
Qed.

Lemma after_calls_bytes_step (cs : list call) : forall s : SpooledBytesIO.t,
  bytes_step s (after_calls cs s).
Proof.
  induction cs as [|c cs IH]; intros s; [apply bytes_step_refl|].
  unfold after_calls. cbn [fold_left].
  apply (bytes_step_trans _ (exec (do_call c) s)); [apply keeps_bytes_call|].
  apply IH.
Qed.

(** X17.  A byte stream in memory never holds [max_size] bytes or more:
    whatever methods are called on a new stream, in whatever order and
    whether they return or raise, as long as the stream has not gone to
    disk it is empty or holds fewer than [max_size] bytes. *)
Theorem byte_stream_in_memory_is_bounded (max_size : Z) (cs : list call) :
  let s := after_calls cs (SpooledBytesIO.new max_size) in
  bytes_on_disk s = false ->
  bytes_stored s = [] \/ Z.of_nat (length (bytes_stored s)) < max_size.
Proof.
  intros s Hmem.
  destruct (after_calls_bytes_step cs (SpooledBytesIO.new max_size))
    as (_ & _ & H).
  destruct (H Hmem) as [Hle | Hlt]; [left | right; exact Hlt].
  cbn in Hle. fold s in Hle. destruct (bytes_stored s); [reflexivity|].
  cbn in Hle. lia.
Qed.

Lemma byte_stream_in_memory_is_bounded_witness :
  let s := after_calls
             [call_write (PyBytes [1; 2; 3; 4; 5]); call_seek 2 0;
              call_write (PyBytes [6; 7]); call_truncate (Some (-1));
              call_getvalue; call_close]
             (SpooledBytesIO.new 6) in
  bytes_stored s = [] \/ Z.of_nat (length (bytes_stored s)) < 6.
Proof.
  intros s.
  apply (byte_stream_in_memory_is_bounded 6
           [call_write (PyBytes [1; 2; 3; 4; 5]); call_seek 2 0;
            call_write (PyBytes [6; 7]); call_truncate (Some (-1));
            call_getvalue; call_close]).
  reflexivity.
Defined.


(** The methods of the recoding wrapper. *)
Lemma keeps_on_stream {A} (m : M flo A) :
  keeps flo_step m -> keeps recoder_step (on_stream m).
Proof.
  intros Hm r. unfold on_stream. specialize (Hm (stream r)).
  destruct (m (stream r)) as [a f]. exact (proj1 Hm).
Qed.

Lemma keeps_on_stream_write w : keeps recoder_step (on_stream (flo_write w)).
Proof.
  intros r. unfold on_stream. pose proof (flo_write_cls w (stream r)) as H.
  destruct (flo_write w (stream r)) as [a f]. exact H.
Qed.

Lemma keeps_set_buffers bb cb lb : keeps recoder_step (set_buffers bb cb lb).
Proof. intros r. reflexivity. Qed.

Lemma keeps_str_encode {S} (P : S -> S -> Prop) t :
  (forall s, P s s) -> keeps P (str_encode t).
Proof. intros HP s. unfold str_encode. destruct (utf8_encode t); apply HP. Qed.

Lemma keeps_bytes_decode {S} (P : S -> S -> Prop) b :
  (forall s, P s s) -> keeps P (bytes_decode b).
Proof. intros HP s. unfold bytes_decode. destruct (utf8_decode true b); apply HP. Qed.

Ltac keeps_recoder :=
  repeat match goal with
  | |- keeps _ (on_stream (flo_write _)) => apply keeps_on_stream_write
  | |- keeps _ (on_stream _) => apply keeps_on_stream; keeps_flo
  | |- keeps _ (set_buffers _ _ _) => apply keeps_set_buffers
  | |- keeps _ (str_encode _) => apply (keeps_str_encode _ _ recoder_step_refl)
  | |- keeps _ (bytes_decode _) => apply (keeps_bytes_decode _ _ recoder_step_refl)
  | |- keeps _ (bind _ _) => apply (keeps_bind _ recoder_step_trans); [|intros ?]
  | |- keeps _ (ret _) => apply (keeps_ret _ recoder_step_refl)
  | |- keeps _ (raise _) => apply (keeps_raise _ recoder_step_refl)
  | |- keeps _ get => apply (keeps_get _ recoder_step_refl)
  | |- keeps _ (if ?b then _ else _) => destruct b
  | |- keeps _ (match ?x with _ => _ end) => destruct x
  end.

Lemma keeps_reader_fill : forall fuel size chars firstline,
  keeps recoder_step (reader_fill fuel size chars firstline).
Proof.
  induction fuel as [|fuel IH]; intros size chars firstline r;
    rewrite reader_fill_eq;
    (destruct (_ && _); [apply recoder_step_refl|]);
    revert r;
    match goal with
    | |- forall r, recoder_step r (snd (?m r)) => change (keeps recoder_step m)
    end;
    cbv zeta; keeps_recoder; apply IH.
Qed.

Lemma keeps_reader_read size chars firstline :
  keeps recoder_step (reader_read size chars firstline).
Proof.
  unfold reader_read. keeps_recoder; apply keeps_reader_fill.
Qed.

Lemma keeps_reader_readline_loop : forall fuel size readsize line,
  keeps recoder_step (reader_readline_loop fuel size readsize line).
Proof.
  induction fuel as [|fuel IH]; intros size readsize line;
    rewrite reader_readline_loop_eq; cbv zeta;
    keeps_recoder; first [apply keeps_reader_read | apply IH].
Qed.

Lemma keeps_reader_readline size : keeps recoder_step (reader_readline size).
Proof.
  unfold reader_readline. keeps_recoder; apply keeps_reader_readline_loop.
Qed.

Lemma keeps_recoder_read size : keeps recoder_step (recoder_read size).
Proof. unfold recoder_read. keeps_recoder. apply keeps_reader_read. Qed.

Lemma keeps_recoder_readline size : keeps recoder_step (recoder_readline size).
Proof. unfold recoder_readline. keeps_recoder. apply keeps_reader_readline. Qed.

Lemma keeps_recoder_readlines hint : keeps recoder_step (recoder_readlines hint).
Proof. unfold recoder_readlines. keeps_recoder. apply keeps_reader_read. Qed.

Lemma keeps_recoder_write data : keeps recoder_step (recoder_write data).
Proof. unfold recoder_write. keeps_recoder. Qed.

Lemma keeps_recoder_seek o w : keeps recoder_step (recoder_seek o w).
Proof. unfold recoder_seek. keeps_recoder. Qed.

Lemma keeps_recoder_fl_seek o w :
  keeps recoder_step (fl_seek (B := StreamRecoder) o w).
Proof.
  cbn [fl_seek StreamRecoder_FileLike].
  apply (keeps_bind _ recoder_step_trans); [apply keeps_recoder_seek|].
  intros ?. apply (keeps_ret _ recoder_step_refl).
Qed.

(** A call on the buffer of a text stream. *)
Lemma keeps_text_on_buffer {A} (m : M StreamRecoder A) :
  keeps recoder_step m -> keeps text_step (on_buffer (S := SpooledStringIO.t) m).
Proof.
  intros Hm [ms [r|]]; [|intros H; discriminate H].
  specialize (Hm r). unfold text_step, on_buffer, bind. cbn.
  destruct (m r) as [[a|e] r']; cbn [snd] in *; cbn;
    unfold isinstance_BytesIO; now rewrite Hm.
Qed.

Ltac keeps_recoder_call :=
  first [ apply keeps_recoder_read | apply keeps_recoder_readline
        | apply keeps_recoder_readlines | apply keeps_recoder_write
        | apply keeps_recoder_fl_seek | apply keeps_recoder_seek
        | apply keeps_on_stream; keeps_flo ].

Ltac keeps_text :=
  repeat match goal with
  | |- keeps _ (on_buffer _) => apply keeps_text_on_buffer; keeps_recoder_call
  | |- keeps _ (str_encode _) => apply (keeps_str_encode _ _ text_step_refl)
  | |- keeps _ (bytes_decode _) => apply (keeps_bytes_decode _ _ text_step_refl)
  | |- keeps _ (bind _ _) => apply (keeps_bind _ text_step_trans); [|intros ?]
  | |- keeps _ (ret _) => apply (keeps_ret _ text_step_refl)
  | |- keeps _ (raise _) => apply (keeps_raise _ text_step_refl)
  | |- keeps _ get => apply (keeps_get _ text_step_refl)
  | |- keeps _ (if ?b then _ else _) => destruct b
  | |- keeps _ (match ?x with _ => _ end) => destruct x
  end.

Lemma keeps_text_rollover : keeps text_step (rollover (S := SpooledStringIO.t)).
Proof.
  intros [m [[[[] d p cl] bb cb lb]|]]; try (intros H; discriminate H).
  rewrite rollover_text_rolled. apply text_step_refl.
Qed.

Lemma keeps_text_rolled : keeps text_step (_rolled (S := SpooledStringIO.t)).
Proof.
  intros [m [r|]]; [apply text_step_refl | intros H; discriminate H].
Qed.

Lemma keeps_text_buffer : keeps text_step SpooledStringIO.buffer.
Proof.
  intros [m [r|]]; [apply text_step_refl | intros H; discriminate H].
Qed.

Lemma keeps_text_decode_all ls : keeps text_step (SpooledStringIO.decode_all ls).
Proof.
  induction ls as [|x ls IH]; cbn [SpooledStringIO.decode_all]; keeps_text.
  exact IH.
Qed.

Lemma keeps_text_readline length :
  keeps text_step (readline (S := SpooledStringIO.t) length).
Proof.
  cbn [readline SpooledStringIO.SpooledIOBase_t].
  unfold SpooledStringIO.readline. keeps_text.
Qed.

Lemma keeps_text_read n : keeps text_step (read (S := SpooledStringIO.t) n).
Proof.
  cbn [read SpooledStringIO.SpooledIOBase_t].
  unfold SpooledStringIO.read. keeps_text.
Qed.

Lemma keeps_text_fileno : keeps text_step (fileno (T := SpooledStringIO.t)).
Proof.
  unfold fileno. apply (keeps_bind _ text_step_trans);
    [apply keeps_text_rollover | intros ?; keeps_text].
Qed.

Lemma keeps_text_getvalue : keeps text_step (getvalue (T := SpooledStringIO.t)).
Proof.
  unfold getvalue, tell, seek.
  apply (keeps_bind _ text_step_trans); [keeps_text|]. intros ?.
  apply (keeps_bind _ text_step_trans); [keeps_text|]. intros ?.
  apply (keeps_bind _ text_step_trans); [apply keeps_text_read|]. intros ?.
  keeps_text.
Qed.

Lemma eq_text_step (s : SpooledStringIO.t) (other : pyobject) :
  text_step s (fst (snd (__eq__ (s, other)))).
Proof.
  unfold __eq__. destruct other as [S' HS' o|v]; [|apply text_step_refl].
  pose proof (keeps_text_getvalue s) as H.
  destruct (getvalue s) as [[v1|e] s']; cbn [snd] in H;
    [destruct (getvalue o) as [[v2|e] o']|]; exact H.
Qed.

Lemma keeps_text_call (c : call) :
  keeps text_step (do_call (T := SpooledStringIO.t) c).
Proof.
  destruct c; unfold do_call.
  - apply (keeps_bind _ text_step_trans); [apply keeps_text_read|].
    intros ?. keeps_text.
  - cbn [write SpooledStringIO.SpooledIOBase_t]. unfold SpooledStringIO.write.
    destruct v; try apply (keeps_raise _ text_step_refl).
    apply (keeps_bind _ text_step_trans); [apply keeps_text_buffer|].
    intros ?. apply (keeps_bind _ text_step_trans);
      [apply (keeps_str_encode _ _ text_step_refl)|].
    intros ?. apply (keeps_bind _ text_step_trans); [keeps_text|].
    intros ?. unfold tell.
    apply (keeps_bind _ text_step_trans); [keeps_text|].
    intros ?. apply (keeps_bind _ text_step_trans);
      [apply (keeps_get _ text_step_refl)|].
    intros ?. destruct (_ <=? _);
      [apply keeps_text_rollover | apply (keeps_ret _ text_step_refl)].
  - apply (keeps_bind _ text_step_trans); [apply keeps_text_readline|].
    intros ?. keeps_text.
  - cbn [readlines SpooledStringIO.SpooledIOBase_t].
    unfold SpooledStringIO.readlines.
    apply (keeps_bind _ text_step_trans).
    + apply (keeps_bind _ text_step_trans); [keeps_text|].
      intros ?. apply keeps_text_decode_all.
    + intros ?. keeps_text.
  - apply keeps_text_rollover.
  - unfold tell. keeps_text.
  - unfold seek. keeps_text.
  - unfold close. keeps_text.
  - unfold flush. keeps_text.
  - unfold isatty. keeps_text.
  - unfold next. apply (keeps_bind _ text_step_trans);
      [apply keeps_text_readline | intros ?; keeps_text].
  - unfold closed. keeps_text.
  - unfold pos, tell. keeps_text.
  - unfold buf.
    apply (keeps_bind _ text_step_trans);
      [apply keeps_text_getvalue | intros ?; keeps_text].
  - unfold len, tell, seek.
    apply (keeps_bind _ text_step_trans); [|intros ?; keeps_text].
    apply (keeps_bind _ text_step_trans); [apply keeps_text_rolled|].
    intros b. destruct b.
    + apply (keeps_bind _ text_step_trans);
        [apply keeps_text_fileno | intros ?; keeps_text].
    + keeps_text.
  - apply (keeps_bind _ text_step_trans);
      [apply keeps_text_fileno | intros ?; keeps_text].
  - unfold truncate, tell, seek. keeps_text.
  - apply (keeps_bind _ text_step_trans);
      [apply keeps_text_getvalue | intros ?; keeps_text].
  - unfold __iter__. cbn [generator_list generator_next].
    apply (keeps_bind _ text_step_trans); [|intros ?; keeps_text].
    apply (keeps_bind _ text_step_trans).
    + apply (keeps_bind _ text_step_trans);
        [apply keeps_text_readline | intros ?; keeps_text].
    + intros [[v|] g]; [|keeps_text].
      apply (keeps_bind _ text_step_trans); [|intros ?; keeps_text].
      apply (keeps_bind _ text_step_trans); [|intros ?; keeps_text].
      destruct g; cbn [generator_next]; [|keeps_text..].
      apply (keeps_bind _ text_step_trans);
        [apply keeps_text_readline | intros ?; keeps_text].
  - unfold __enter__. keeps_text.
  - unfold __exit__. keeps_text.
  - intros s. pose proof (eq_text_step s other) as H.
    destruct (__eq__ (s, other)) as [r [s' o]]. exact H.
  - intros s. pose proof (eq_text_step s other) as H.
    unfold __ne__, bind.
    destruct (__eq__ (s, other)) as [[b|e] [s' o]]; exact H.
Qed.

Lemma after_calls_text_step (cs : list call) : forall s : SpooledStringIO.t,
  text_step s (after_calls cs s).
Proof.
  induction cs as [|c cs IH]; intros s; [apply text_step_refl|].
  unfold after_calls. cbn [fold_left].
  apply (text_step_trans _ (exec (do_call c) s)); [apply keeps_text_call|].
  apply IH.
Qed.

(** X18.  A stream that is on disk stays on disk: no method, called any
    number of times and whether it returns or raises, brings a stream of
    either class back into memory. *)
Theorem stream_on_disk_stays_on_disk :
  (forall (s : SpooledBytesIO.t) (cs : list call),
     bytes_on_disk s = true -> bytes_on_disk (after_calls cs s) = true) /\
  (forall (s : SpooledStringIO.t) (cs : list call),
     text_on_disk s = true -> text_on_disk (after_calls cs s) = true).
Proof.
  split; intros s cs Hs.
  - exact (proj1 (proj2 (after_calls_bytes_step cs s)) Hs).
  - exact (after_calls_text_step cs s Hs).
Qed.

Lemma stream_on_disk_stays_on_disk_witness :
  bytes_on_disk
    (after_calls [call_seek 0 0; call_truncate (Some 0); call_write (PyBytes [1]);
                  call_read (-5); call_close; call_rollover]
       (exec (write (PyBytes [1; 2; 3])) (SpooledBytesIO.new 2))) = true /\
  text_on_disk
    (after_calls [call_seek 1 0; call_truncate None; call_read (-1);
                  call_write (PyStr [104]); call_getvalue; call_close]
       (exec (write (PyStr [233; 233])) (SpooledStringIO.new 2))) = true.
Proof.
  split.
  - apply (proj1 stream_on_disk_stays_on_disk). reflexivity.
  - apply (proj2 stream_on_disk_stays_on_disk). reflexivity.
Defined.
